(** * SD-AI_Audit: the snapshot engine and the model response reconciler

    A shallow embedding of the audit server (the second revision of
    [backend-server.js]): the capture functions [fetchWebsiteSimple] and
    [fetchWebsiteContent], the in-page probes they evaluate, and the part of
    the [/api/audit] handler that drives the model ladder and repairs the
    model's JSON text; then the rate limiter [checkRateLimit], the metrics
    client [fetchPageSpeedInsights], the checklist of [generateAuditPrompt]
    and the handler from its first line to its [catch].

    JavaScript strings are sequences of UTF-16 code units, so they are lists
    of [N] here.  Calls that leave the program (the browser, the network, the
    generation backend) are given by an environment that fixes what each call
    returns or throws. *)

From Stdlib Require Import String Ascii DecimalString NArith ZArith QArith Qround.
From Stdlib Require Import Bool List Lia.
Import ListNotations.
Close Scope Q_scope.

Set Implicit Arguments.

(* ================================================================== *)
(** * JavaScript strings *)

Definition jsstring := list N.

Definition cu (a : ascii) : N := N_of_ascii a.

(** An ASCII literal as a JavaScript string. *)
Definition u (s : string) : jsstring := map cu (list_ascii_of_string s).

(** The same, with every apostrophe standing for a double quote: JSON texts
    are written [j "{'a':1}"]. *)
Definition j (s : string) : jsstring :=
  map (fun c => if N.eqb c 39 then 34%N else c) (u s).

Definition jseq (a b : jsstring) : bool :=
  if list_eq_dec N.eq_dec a b then true else false.

(** [s.startsWith(p)] *)
Fixpoint startsWith (s p : jsstring) : bool :=
  match p, s with
  | [], _ => true
  | _ :: _, [] => false
  | d :: p', c :: s' => N.eqb c d && startsWith s' p'
  end.

(** [s.includes(sub)] *)
Fixpoint includes (s sub : jsstring) : bool :=
  startsWith s sub ||
  match s with
  | [] => false
  | _ :: s' => includes s' sub
  end.

(** [s.substring(0, n)] *)
Definition substring0 (n : nat) (s : jsstring) : jsstring := firstn n s.

(** [xs.slice(0, n)] on arrays *)
Definition slice0 {A} (n : nat) (xs : list A) : list A := firstn n xs.

(** ECMAScript WhiteSpace and LineTerminator code units: what [\s] matches
    and what [trim] removes. *)
Definition isSpace (c : N) : bool :=
  ((9 <=? c) && (c <=? 13) || (c =? 32) || (c =? 160) || (c =? 5760)
   || (8192 <=? c) && (c <=? 8202) || (c =? 8232) || (c =? 8233)
   || (c =? 8239) || (c =? 8287) || (c =? 12288) || (c =? 65279))%N.

Fixpoint trimStart (s : jsstring) : jsstring :=
  match s with
  | c :: s' => if isSpace c then trimStart s' else s
  | [] => []
  end.

Definition trimEnd (s : jsstring) : jsstring := rev (trimStart (rev s)).

Definition trim (s : jsstring) : jsstring := trimEnd (trimStart s).

(** [a || b] on strings: the empty string is falsy. *)
Definition orElse (a b : jsstring) : jsstring :=
  match a with [] => b | _ => a end.

(* ================================================================== *)
(** * Thrown values and outcomes of calls *)

(** An [Error] object; [status] is the HTTP status some client libraries
    attach, and is absent on [new Error(msg)]. *)
Record JsError : Type := mkError { message : jsstring; status : option N }.

Definition new_Error (msg : jsstring) : JsError :=
  {| message := msg; status := None |}.

Inductive Outcome (A : Type) : Type :=
| Returns (a : A)
| Throws (e : JsError).

Arguments Returns {A} a.
Arguments Throws {A} e.

Definition returned {A} (o : Outcome A) : bool :=
  match o with Returns _ => true | Throws _ => false end.

Definition thrown {A} (o : Outcome A) : option JsError :=
  match o with Returns _ => None | Throws e => Some e end.

(* ================================================================== *)
(** * The regular expressions the server uses

    Every pattern in the source is a sequence of single-unit matchers, some
    of them starred; matching is leftmost, greedy and backtracking, as in
    ECMAScript. *)

Module Regex.

Inductive atom : Type :=
| Lit (c : N)                 (* a literal code unit *)
| Class (p : N -> bool).      (* a character class *)

Definition accepts (a : atom) (c : N) : bool :=
  match a with
  | Lit d => N.eqb c d
  | Class p => p c
  end.

Inductive item : Type :=
| One (a : atom)              (* a *)
| Many (a : atom).            (* a*, greedy *)

Definition regex := list item.

(** Match [r] at the start of [s]: the text each item consumed, and what
    is left.  A starred item first tries to take one more unit and falls
    back to stopping where it is. *)
Fixpoint exec_here (r : regex) (s : jsstring)
  : option (list jsstring * jsstring) :=
  match r with
  | [] => Some ([], s)
  | One a :: r' =>
      match s with
      | c :: s' =>
          if accepts a c then
            match exec_here r' s' with
            | Some (ch, rest) => Some ([c] :: ch, rest)
            | None => None
            end
          else None
      | [] => None
      end
  | Many a :: r' =>
      (fix star (s : jsstring) : option (list jsstring * jsstring) :=
         let stop :=
           match exec_here r' s with
           | Some (ch, rest) => Some ([] :: ch, rest)
           | None => None
           end in
         match s with
         | c :: s' =>
             if accepts a c then
               match star s' with
               | Some (m :: ch, rest) => Some ((c :: m) :: ch, rest)
               | _ => stop
               end
             else stop
         | [] => stop
         end) s
  end.

(** [s.match(r)] for a pattern without the [g] flag: the leftmost match,
    as the text before it, the text of each item, and the text after. *)
Fixpoint search (r : regex) (s : jsstring)
  : option (jsstring * list jsstring * jsstring) :=
  match exec_here r s with
  | Some (ch, rest) => Some ([], ch, rest)
  | None =>
      match s with
      | [] => None
      | c :: s' =>
          match search r s' with
          | Some (pre, ch, rest) => Some (c :: pre, ch, rest)
          | None => None
          end
      end
  end.

(** [s.replace(r, rep)] for a pattern with the [g] flag; [rep] builds the
    replacement from the text of each item.  [skip] counts the units of
    the current match that are still to be passed over. *)
Fixpoint replace_from (r : regex) (rep : list jsstring -> jsstring)
    (skip : nat) (s : jsstring) : jsstring :=
  match s with
  | [] =>
      match skip with
      | O => match exec_here r [] with
             | Some (ch, _) => rep ch
             | None => []
             end
      | S _ => []
      end
  | c :: s' =>
      match skip with
      | S k => replace_from r rep k s'
      | O =>
          match exec_here r s with
          | Some (ch, _) =>
              match length (concat ch) with
              | O => rep ch ++ c :: replace_from r rep 0 s'
              | S k => rep ch ++ replace_from r rep k s'
              end
          | None => c :: replace_from r rep 0 s'
          end
      end
  end.

Definition replaceAll (r : regex) (rep : list jsstring -> jsstring)
    (s : jsstring) : jsstring :=
  replace_from r rep 0 s.

(** [(s.match(r) || []).length] for a pattern with the [g] flag. *)
Fixpoint count_from (r : regex) (skip : nat) (s : jsstring) : nat :=
  match s with
  | [] =>
      match skip with
      | O => match exec_here r [] with Some _ => 1 | None => 0 end
      | S _ => 0
      end
  | c :: s' =>
      match skip with
      | S k => count_from r k s'
      | O =>
          match exec_here r s with
          | Some (ch, _) =>
              match length (concat ch) with
              | O => S (count_from r 0 s')
              | S k => S (count_from r k s')
              end
          | None => count_from r 0 s'
          end
      end
  end.

Definition matchCount (r : regex) (s : jsstring) : nat := count_from r 0 s.

Definition lits (s : jsstring) : regex := map (fun c => One (Lit c)) s.

Definition space : atom := Class isSpace.
Definition any : atom := Class (fun c => isSpace c || negb (isSpace c)).

End Regex.

(* ================================================================== *)
(** * [JSON.parse], as far as the server looks at it: accept or reject

    A lexer (one pass over the code units) followed by a pushdown recogniser
    over the tokens; both recurse on their input, so the recogniser is
    total. *)

Module Json.

Inductive token : Type :=
| TLBrace | TRBrace | TLBrack | TRBrack | TColon | TComma
| TString | TNumber | TWord.

Inductive lexst : Type :=
| LStart
| LStr | LEsc | LHex (k : nat)
| LMinus | LZero | LInt | LDot | LFrac | LExp | LExpSign | LExpDigits
| LWord (rest : jsstring).

Definition isJsonSpace (c : N) : bool :=
  ((c =? 32) || (c =? 9) || (c =? 10) || (c =? 13))%N.

Definition isDigit (c : N) : bool := ((48 <=? c) && (c <=? 57))%N.
Definition isDigit19 (c : N) : bool := ((49 <=? c) && (c <=? 57))%N.
Definition isHex (c : N) : bool :=
  (isDigit c || (65 <=? c) && (c <=? 70) || (97 <=? c) && (c <=? 102))%N.
Definition isE (c : N) : bool := ((c =? 101) || (c =? 69))%N.

(** A code unit seen between tokens. *)
Definition from_start (c : N) : option (list token * lexst) :=
  if isJsonSpace c then Some ([], LStart)
  else if N.eqb c (cu "{") then Some ([TLBrace], LStart)
  else if N.eqb c (cu "}") then Some ([TRBrace], LStart)
  else if N.eqb c (cu "[") then Some ([TLBrack], LStart)
  else if N.eqb c (cu "]") then Some ([TRBrack], LStart)
  else if N.eqb c (cu ":") then Some ([TColon], LStart)
  else if N.eqb c (cu ",") then Some ([TComma], LStart)
  else if N.eqb c 34 then Some ([], LStr)
  else if N.eqb c (cu "-") then Some ([], LMinus)
  else if N.eqb c (cu "0") then Some ([], LZero)
  else if isDigit19 c then Some ([], LInt)
  else if N.eqb c (cu "t") then Some ([], LWord (u "rue"))
  else if N.eqb c (cu "f") then Some ([], LWord (u "alse"))
  else if N.eqb c (cu "n") then Some ([], LWord (u "ull"))
  else None.

(** The number is over: emit it and look at [c] afresh. *)
Definition end_number (c : N) : option (list token * lexst) :=
  match from_start c with
  | Some (ts, st) => Some (TNumber :: ts, st)
  | None => None
  end.

Definition lex_step (st : lexst) (c : N) : option (list token * lexst) :=
  match st with
  | LStart => from_start c
  | LStr =>
      if N.eqb c 34 then Some ([TString], LStart)
      else if N.eqb c 92 then Some ([], LEsc)
      else if (c <? 32)%N then None
      else Some ([], LStr)
  | LEsc =>
      if N.eqb c 34 || N.eqb c 92 || N.eqb c (cu "/") || N.eqb c (cu "b")
         || N.eqb c (cu "f") || N.eqb c (cu "n") || N.eqb c (cu "r")
         || N.eqb c (cu "t")
      then Some ([], LStr)
      else if N.eqb c (cu "u") then Some ([], LHex 4)
      else None
  | LHex k =>
      if isHex c then
        match k with
        | S (S k') => Some ([], LHex (S k'))
        | _ => Some ([], LStr)
        end
      else None
  | LMinus =>
      if N.eqb c (cu "0") then Some ([], LZero)
      else if isDigit19 c then Some ([], LInt)
      else None
  | LZero =>
      if N.eqb c (cu ".") then Some ([], LDot)
      else if isE c then Some ([], LExp)
      else end_number c
  | LInt =>
      if isDigit c then Some ([], LInt)
      else if N.eqb c (cu ".") then Some ([], LDot)
      else if isE c then Some ([], LExp)
      else end_number c
  | LDot => if isDigit c then Some ([], LFrac) else None
  | LFrac =>
      if isDigit c then Some ([], LFrac)
      else if isE c then Some ([], LExp)
      else end_number c
  | LExp =>
      if N.eqb c (cu "+") || N.eqb c (cu "-") then Some ([], LExpSign)
      else if isDigit c then Some ([], LExpDigits)
      else None
  | LExpSign => if isDigit c then Some ([], LExpDigits) else None
  | LExpDigits =>
      if isDigit c then Some ([], LExpDigits) else end_number c
  | LWord [] => None
  | LWord (d :: rest) =>
      if N.eqb c d then
        match rest with
        | [] => Some ([TWord], LStart)
        | _ :: _ => Some ([], LWord rest)
        end
      else None
  end.

Definition lex_end (st : lexst) : option (list token) :=
  match st with
  | LStart => Some []
  | LZero | LInt | LFrac | LExpDigits => Some [TNumber]
  | _ => None
  end.

Fixpoint lex (st : lexst) (s : jsstring) : option (list token) :=
  match s with
  | [] => lex_end st
  | c :: s' =>
      match lex_step st c with
      | Some (ts, st') =>
          match lex st' s' with
          | Some rest => Some (ts ++ rest)
          | None => None
          end
      | None => None
      end
  end.

Inductive container : Type := InObject | InArray.

Inductive pstate : Type :=
| PValue        (* a value must follow *)
| PArrFirst     (* just after an opening bracket: a value or the closer *)
| PObjFirst     (* just after an opening brace: a key or the closer *)
| PObjKey       (* after a comma in an object: a key *)
| PColon        (* after a key *)
| PAfter.       (* after a value *)

Definition open_value (t : token) (stack : list container)
  : option (pstate * list container) :=
  match t with
  | TString | TNumber | TWord => Some (PAfter, stack)
  | TLBrace => Some (PObjFirst, InObject :: stack)
  | TLBrack => Some (PArrFirst, InArray :: stack)
  | _ => None
  end.

Definition pstep (st : pstate) (stack : list container) (t : token)
  : option (pstate * list container) :=
  match st with
  | PValue => open_value t stack
  | PArrFirst =>
      match t, stack with
      | TRBrack, InArray :: stack' => Some (PAfter, stack')
      | _, _ => open_value t stack
      end
  | PObjFirst =>
      match t, stack with
      | TString, _ => Some (PColon, stack)
      | TRBrace, InObject :: stack' => Some (PAfter, stack')
      | _, _ => None
      end
  | PObjKey => match t with TString => Some (PColon, stack) | _ => None end
  | PColon => match t with TColon => Some (PValue, stack) | _ => None end
  | PAfter =>
      match t, stack with
      | TComma, InArray :: _ => Some (PValue, stack)
      | TRBrack, InArray :: stack' => Some (PAfter, stack')
      | TComma, InObject :: _ => Some (PObjKey, stack)
      | TRBrace, InObject :: stack' => Some (PAfter, stack')
      | _, _ => None
      end
  end.

Fixpoint recognise (st : pstate) (stack : list container)
    (ts : list token) : bool :=
  match ts with
  | [] => match st, stack with PAfter, [] => true | _, _ => false end
  | t :: ts' =>
      match pstep st stack t with
      | Some (st', stack') => recognise st' stack' ts'
      | None => false
      end
  end.

Definition valid (s : jsstring) : bool :=
  match lex LStart s with
  | Some ts => recognise PValue [] ts
  | None => false
  end.

End Json.

(* ================================================================== *)
(** * The [/api/audit] handler, from its step 3 on: the model ladder and the
      repair of the model's JSON text *)

Module Audit.

Import Regex.

(** What [generateContent] resolves to, as far as the handler reads it:
    [result.response.text()], a call of the client library that returns
    the text or throws (on a blocked or empty response), and
    [result.response.usageMetadata]. *)
Record GenerateContentResult : Type := mkGenerateContentResult {
  text : Outcome jsstring;
  promptTokenCount : option N;
  candidatesTokenCount : option N
}.

(** A result whose [text()] returns [responseText]. *)
Definition mkResult (responseText : jsstring)
    (promptTokenCount candidatesTokenCount : option N)
  : GenerateContentResult :=
  {| text := Returns responseText;
     promptTokenCount := promptTokenCount;
     candidatesTokenCount := candidatesTokenCount |}.

Record Usage : Type := mkUsage { input_tokens : N; output_tokens : N }.

(** The body of a successful reply: [{content: [{text}], model, usage}]. *)
Record Response : Type := mkResponse {
  content_text : jsstring;
  model : jsstring;
  usage : Usage
}.

(** What the handler sends: [res.json(response)], or
    [res.status(code).json({error, details})]. *)
Inductive Reply : Type :=
| ReplyJson (r : Response)
| ReplyError (code : N) (error : jsstring) (details : option jsstring).

Definition orZero (o : option N) : N :=
  match o with Some n => n | None => 0%N end.

Definition respond (cleanText modelName : jsstring)
    (result : GenerateContentResult) : Response :=
  {| content_text := cleanText;
     model := modelName;
     usage := {| input_tokens := orZero (promptTokenCount result);
                 output_tokens := orZero (candidatesTokenCount result) |} |}.

(** ** The patterns of the clean-up *)

(** [/```json\s*/g] *)
Definition fence_json : regex := lits (u "```json") ++ [Many space].

(** [/```\s*/g] *)
Definition fence : regex := lits (u "```") ++ [Many space].

(** [/\{[\s\S]*\}/] *)
Definition braces : regex :=
  [One (Lit (cu "{")); Many any; One (Lit (cu "}"))].

Definition isCloser (c : N) : bool := N.eqb c (cu "}") || N.eqb c (cu "]").

(** [/,(\s*[}\]])/g]; group 1 is the text of the last two items. *)
Definition trailing_comma : regex :=
  [One (Lit (cu ",")); Many space; One (Class isCloser)].

Definition group1 (ch : list jsstring) : jsstring := concat (skipn 1 ch).

Definition nothing (ch : list jsstring) : jsstring := [].

(** [responseText.replace(/```json\s*/g, '').replace(/```\s*/g, '').trim()] *)
Definition stripFences (responseText : jsstring) : jsstring :=
  trim (replaceAll fence nothing (replaceAll fence_json nothing responseText)).

(** [jsonMatch ? jsonMatch[0] : responseText] *)
Definition extractJson (responseText : jsstring) : jsstring :=
  match search braces responseText with
  | Some (_, ch, _) => concat ch
  | None => responseText
  end.

(** [(cleanText.match(/c/g) || []).length] for a one-unit pattern [c] *)
Definition countOf (c : N) (cleanText : jsstring) : nat :=
  matchCount [One (Lit c)] cleanText.

(** The inner [try] block, up to the second [JSON.parse]. *)
Definition repair (cleanText : jsstring) : jsstring :=
  let cleanText := replaceAll trailing_comma group1 cleanText in
  let openBraces := countOf (cu "{") cleanText in
  let closeBraces := countOf (cu "}") cleanText in
  let openBrackets := countOf (cu "[") cleanText in
  let closeBrackets := countOf (cu "]") cleanText in
  let cleanText :=
    if (closeBrackets <? openBrackets)%nat
    then cleanText ++ repeat (cu "]") (openBrackets - closeBrackets)
    else cleanText in
  let cleanText :=
    if (closeBraces <? openBraces)%nat
    then cleanText ++ repeat (cu "}") (openBraces - closeBraces)
    else cleanText in
  cleanText.

Definition defaultModels : list jsstring :=
  [ u "gemini-3-pro-preview"; u "gemini-2.5-pro";
    u "gemini-2.5-flash"; u "gemini-2.0-flash" ].

(** [xs.includes(x)] on an array of strings *)
Definition arrayIncludes (xs : list jsstring) (x : jsstring) : bool :=
  existsb (jseq x) xs.

(** [[...new Set(xs)]]: the first occurrence of each string, in order. *)
Fixpoint unique_from (seen xs : list jsstring) : list jsstring :=
  match xs with
  | [] => []
  | x :: rest =>
      if arrayIncludes seen x then unique_from seen rest
      else x :: unique_from (x :: seen) rest
  end.

Definition unique (xs : list jsstring) : list jsstring := unique_from [] xs.

Definition truthy (s : jsstring) : bool :=
  match s with [] => false | _ => true end.

(** The list the loop runs over, after the [unshift] and the removal of
    the duplicate. *)
Definition modelsToTry (model : jsstring) : list jsstring :=
  if truthy model && arrayIncludes defaultModels model
  then unique (model :: defaultModels)
  else defaultModels.

(** The variables the loop assigns. *)
Record Ladder : Type := mkLadder {
  result : option GenerateContentResult;
  modelName : jsstring;
  lastError : option JsError
}.

Definition allFailedMessage (lastError : option JsError) : jsstring :=
  u "Gemini API error: All models failed. Last error: "
  ++ orElse (match lastError with Some e => message e | None => [] end)
            (u "Unknown error")
  ++ u ". Note: Some models may require billing to be enabled in Google AI Studio.".

Definition invalidJsonMessage (parseError : JsError) : jsstring :=
  u "Invalid JSON response from Gemini. The response may be incomplete or malformed. Error: "
  ++ message parseError ++ u ". Please try again.".

(** The outer [catch] of the handler. *)
Definition handleError (error : JsError) : Reply :=
  match status error with
  | Some 429%N =>
      ReplyError 429 (u "API rate limit exceeded. Please try again later.") None
  | Some 401%N =>
      ReplyError 500 (u "Invalid API key. Please check server configuration.") None
  | _ =>
      ReplyError 500 (u "Failed to generate audit. Please try again.")
                 (Some (message error))
  end.

Section Handler.

(** [JSON.parse]: returns, or throws a [SyntaxError]. *)
Variable JSON_parse : jsstring -> Outcome unit.

(** [genAI.getGenerativeModel({model}).generateContent(...)] for the
    compiled prompt, per backend identifier. *)
Variable generateContent : jsstring -> Outcome GenerateContentResult.

(** [for (const tryModel of modelsToTry) { try ... break ... catch ... }] *)
Fixpoint tryModels (models : list jsstring) (st : Ladder) : Ladder :=
  match models with
  | [] => st
  | tryModel :: rest =>
      match generateContent tryModel with
      | Returns r =>
          {| result := Some r; modelName := tryModel;
             lastError := lastError st |}
      | Throws geminiError =>
          tryModels rest
            {| result := result st; modelName := modelName st;
               lastError := Some geminiError |}
      end
  end.

(** From [result.response.text()] to the response object.  The call of
    [text()] stands outside the inner [try]: what it throws goes to the
    [catch] of the handler as it is. *)
Definition reconcile (modelName : jsstring)
    (result : GenerateContentResult) : Outcome Response :=
  match text result with
  | Throws error => Throws error
  | Returns responseText =>
      let responseText := stripFences responseText in
      let cleanText := extractJson responseText in
      match JSON_parse cleanText with
      | Returns _ => Returns (respond cleanText modelName result)
      | Throws parseError =>
          let cleanText := repair cleanText in
          match JSON_parse cleanText with
          | Returns _ => Returns (respond cleanText modelName result)
          | Throws fixError =>
              Throws (new_Error (invalidJsonMessage parseError))
          end
      end
  end.

(** The Gemini branch, inside the handler's [try]. *)
Definition callGemini (model : jsstring) : Outcome Response :=
  let st :=
    tryModels (modelsToTry model)
      {| result := None;
         modelName := orElse model (u "gemini-2.0-flash");
         lastError := None |} in
  match result st with
  | None => Throws (new_Error (allFailedMessage (lastError st)))
  | Some r => reconcile (modelName st) r
  end.

(** Step 3 of the handler; [genAI] tells whether the API key is set. *)
Definition api_audit_step3 (genAI : bool) (model : jsstring) : Reply :=
  if startsWith model (u "gemini") then
    if negb genAI then
      ReplyError 500
        (u "Gemini API key not configured. Please set GEMINI_API_KEY in .env file.")
        None
    else
      match callGemini model with
      | Returns response => ReplyJson response
      | Throws error => handleError error
      end
  else
    ReplyError 400
      (u "Unsupported model: " ++ model
       ++ u ". Use 'gemini-2.0-flash' (recommended) or 'gemini-1.5-flash'")
      None.

End Handler.

(** [JSON.parse] with the recogniser above; the text of the [SyntaxError]
    is the engine's and is left open. *)
Definition JSON_parse (syntaxError : jsstring -> jsstring) (s : jsstring)
  : Outcome unit :=
  if Json.valid s then Returns tt else Throws (new_Error (syntaxError s)).

End Audit.

(* ================================================================== *)
(** * The snapshot engine *)

Module Snapshot.

Import Regex.

(** A key of a JavaScript object: missing, [null], or holding a value. *)
Inductive field (A : Type) : Type :=
| Absent
| Null
| Val (a : A).

Arguments Absent {A}.
Arguments Null {A}.
Arguments Val {A} a.


(** ** Numbers read from the page *)

(** [Math.round] *)
Definition Math_round (q : Q) : Z := Qfloor (q + (1 # 2))%Q.

(** [parseFloat(..) || d] and [parseInt(..) || d]: [None] is [NaN]. *)
Definition orQ (o : option Q) (d : Q) : Q :=
  match o with
  | Some q => if Qeq_bool q 0 then d else q
  | None => d
  end.

Definition orZ (o : option Z) (d : Z) : Z :=
  match o with
  | Some z => if (z =? 0)%Z then d else z
  | None => d
  end.

(** [s.replace(/\s+/g, ' ').trim().substring(0, n)] *)
Definition squeeze (n : nat) (s : jsstring) : jsstring :=
  substring0 n
    (trim (replaceAll [One space; Many space] (fun _ => u " ") s)).

(** ** The static extraction (cheerio) *)

Record RawAnchor : Type := mkRawAnchor {
  a_text : jsstring;              (* $(el).text() *)
  a_lower : jsstring;             (* $(el).text().toLowerCase() *)
  a_href : option jsstring
}.

Record RawImage : Type := mkRawImage {
  i_src : option jsstring; i_alt : option jsstring; i_title : option jsstring
}.

Record RawButton : Type := mkRawButton {
  b_text : jsstring; b_value : option jsstring; b_type : option jsstring
}.

(** What the selectors find in a parsed document. *)
Record RawDom : Type := mkRawDom {
  titleText : jsstring;
  metaContent : option jsstring;
  h1s : list jsstring; h2s : list jsstring; h3s : list jsstring;
  anchors : list RawAnchor;
  imgs : list RawImage;
  formCount : nat;
  buttonEls : list RawButton;
  bodyText : jsstring
}.

Record Link : Type := mkLink {
  link_text : jsstring; href : option jsstring; isCTA : bool
}.

Record Image : Type := mkImage {
  src : option jsstring; alt : jsstring; img_title : jsstring
}.

Record Button : Type := mkButton { button_text : jsstring; button_type : jsstring }.

Record StructuredData : Type := mkStructuredData {
  title : jsstring;
  metaDescription : jsstring;
  headings : list jsstring * list jsstring * list jsstring;
  links : list Link;
  images : list Image;
  forms : nat;
  buttons : list Button;
  textContent : jsstring
}.

Definition orEmpty (o : option jsstring) : jsstring :=
  match o with Some s => s | None => [] end.

Definition linkOf (a : RawAnchor) : Link :=
  {| link_text := trim (a_text a);
     href := a_href a;
     isCTA := includes (a_lower a) (u "click") || includes (a_lower a) (u "buy")
              || includes (a_lower a) (u "sign up")
              || includes (a_lower a) (u "contact") |}.

Definition imageOf (i : RawImage) : Image :=
  {| src := i_src i; alt := orEmpty (i_alt i); img_title := orEmpty (i_title i) |}.

Definition buttonOf (b : RawButton) : Button :=
  {| button_text := orElse (b_text b) (orEmpty (b_value b));
     button_type := orElse (orEmpty (b_type b)) (u "button") |}.

(** The [structuredData] literal of both capture paths; [pageTitle] is
    [page.title()] on the rendering path and empty on the other. *)
Definition structuredDataOf (pageTitle : jsstring) (d : RawDom) : StructuredData :=
  {| title := orElse pageTitle (orElse (titleText d) (u "No title"));
     metaDescription := orEmpty (metaContent d);
     headings := (h1s d, h2s d, h3s d);
     links := slice0 50 (map linkOf (anchors d));
     images := slice0 30 (map imageOf (imgs d));
     forms := formCount d;
     buttons := map buttonOf (buttonEls d);
     textContent := squeeze (N.to_nat 50000) (bodyText d) |}.

(** ** The reflow probe (the script evaluated at 320px) *)

Record ReflowPage : Type := mkReflowPage {
  r_scrollWidth : Z;            (* document.body.scrollWidth *)
  r_innerWidth : Z;             (* window.innerWidth *)
  r_clientWidth : Z             (* document.documentElement.clientWidth *)
}.

Record ReflowTest : Type := mkReflowTest {
  viewportWidth : Z;
  bodyWidth : Z;
  hasHorizontalScroll : bool;
  scrollbarWidth : Z;
  meetsReflowRequirement : bool
}.

Definition reflowEvaluate (p : ReflowPage) : ReflowTest :=
  let bodyWidth := r_scrollWidth p in
  let viewportWidth := r_innerWidth p in
  let hasHorizontalScroll := (viewportWidth <? bodyWidth)%Z in
  let scrollbarWidth := (r_innerWidth p - r_clientWidth p)%Z in
  {| viewportWidth := viewportWidth;
     bodyWidth := bodyWidth;
     hasHorizontalScroll := hasHorizontalScroll;
     scrollbarWidth := scrollbarWidth;
     meetsReflowRequirement :=
       negb hasHorizontalScroll || (scrollbarWidth =? 0)%Z |}.

(** ** The zoom probe *)

Record ZoomPage : Type := mkZoomPage {
  z_scrollWidth : Z; z_scrollHeight : Z;          (* before the zoom *)
  z_zoomedWidth : Z; z_zoomedHeight : Z;          (* 500ms after it *)
  z_innerWidth : Z; z_innerHeight : Z
}.

Record ZoomTest : Type := mkZoomTest {
  zoomLevel : Z;
  originalWidth : Z; originalHeight : Z;
  zoomedWidth : Z; zoomedHeight : Z;
  zoom_viewportWidth : Z; zoom_viewportHeight : Z;
  zoom_hasHorizontalScroll : bool;
  hasVerticalScroll : bool;
  meetsZoomRequirement : bool
}.

Definition zoomEvaluate (p : ZoomPage) : ZoomTest :=
  {| zoomLevel := 2;
     originalWidth := z_scrollWidth p;
     originalHeight := z_scrollHeight p;
     zoomedWidth := z_zoomedWidth p;
     zoomedHeight := z_zoomedHeight p;
     zoom_viewportWidth := z_innerWidth p;
     zoom_viewportHeight := z_innerHeight p;
     zoom_hasHorizontalScroll := (z_innerWidth p <? z_zoomedWidth p)%Z;
     hasVerticalScroll := (z_innerHeight p <? z_zoomedHeight p)%Z;
     meetsZoomRequirement := true |}.

(** ** Elements as the style probes read them *)

Record ClientRect : Type := mkRect {
  rect_width : Q; rect_height : Q; rect_x : Q; rect_y : Q
}.

(** An element matched on the desktop page; the paddings are what
    [parseFloat] makes of the computed style. *)
Record DesktopElement : Type := mkDesktopElement {
  d_tag : jsstring;             (* el.tagName.toLowerCase() *)
  d_text : jsstring;            (* el.textContent *)
  d_rect : ClientRect;
  d_paddingTop : option Q; d_paddingBottom : option Q;
  d_paddingLeft : option Q; d_paddingRight : option Q
}.

Record TargetSize : Type := mkTargetSize {
  ts_tag : jsstring;
  ts_text : jsstring;
  ts_width : Z; ts_height : Z;
  ts_effectiveWidth : Z; ts_effectiveHeight : Z;
  meets24x24 : bool
}.

Record TargetSizes : Type := mkTargetSizes {
  ts_total : nat;
  ts_compliant : nat;
  ts_nonCompliant : list TargetSize;
  ts_details : list TargetSize
}.

(** The desktop style analysis; of its keys only [targetSizes] is
    modelled. *)
Record CssAnalysis : Type := mkCssAnalysis { targetSizes : TargetSizes }.

Record DesktopPage : Type := mkDesktopPage {
  clickable : list DesktopElement   (* the target-size selector, in order *)
}.

(** An element matched on the mobile page; sizes and paddings are what
    [parseInt] makes of the computed style. *)
Record MobileElement : Type := mkMobileElement {
  m_tag : jsstring;
  m_text : jsstring;            (* el.textContent *)
  m_rect : ClientRect;
  m_fontSize : option Z;
  m_paddingTop : option Z; m_paddingBottom : option Z;
  m_paddingLeft : option Z; m_paddingRight : option Z;
  m_ariaLabel : option jsstring;
  m_title : option jsstring
}.

Record Size : Type := mkSize { width : Z; height : Z; x : Z; y : Z }.

Record TouchTarget : Type := mkTouchTarget {
  tt_tag : jsstring;
  tt_text : jsstring;
  size : Size;
  effectiveSize : Z * Z;        (* width, height *)
  fontSize : Z;
  meetsWCAG : bool;
  hasLabel : jsstring + bool
}.

Record NonCompliant : Type := mkNonCompliant {
  nc_element : jsstring;
  nc_size : Z * Z;                (* printed by the source as WxHpx *)
  nc_required : jsstring
}.

Record TouchTargets : Type := mkTouchTargets {
  total : nat;
  compliant : nat;
  nonCompliant : list NonCompliant;
  details : option (list TouchTarget)   (* missing in the reduced record *)
}.

Record SpacingIssue : Type := mkSpacingIssue {
  element1 : jsstring; element2 : jsstring; distance : Z
}.

Record MobileAnchor : Type := mkMobileAnchor {
  ma_text : jsstring;           (* link.textContent *)
  ma_textDecoration : jsstring;
  ma_fontWeight : option Z;     (* parseInt(styles.fontWeight) *)
  ma_fontSize : jsstring
}.

Record MobileLink : Type := mkMobileLink {
  ml_text : jsstring; hasUnderline : bool; isBold : bool; ml_fontSize : jsstring
}.

Record MobileCss : Type := mkMobileCss {
  css_links_total : nat;
  css_links_details : list MobileLink;
  css_body_lineHeight : jsstring;
  css_body_letterSpacing : jsstring
}.

Record Viewport : Type := mkViewport {
  vp_width : Z; vp_height : Z;
  metaTag : option jsstring;
  hasViewportMeta : bool
}.

Record Typography : Type := mkTypography {
  bodyFontSize : Z; bodyLineHeight : Q; meetsMinimum : bool
}.

Record MobileStructuredData : Type := mkMobileStructuredData {
  ms_headings : list jsstring * list jsstring * list jsstring;
  ms_buttons : list Button;
  ms_links : list (jsstring * option jsstring);
  ms_forms : nat
}.

Record MobileData : Type := mkMobileData {
  viewport : Viewport;
  touchTargets : TouchTargets;
  spacing_issues : list SpacingIssue;
  hasMobileMediaQueries : bool;
  breakpoints : list jsstring;
  typography : Typography;
  mobile_textContent : jsstring;
  mobile_cssAnalysis : option MobileCss;   (* missing in the reduced record *)
  mobile_structuredData : MobileStructuredData;
  mobile_html : jsstring
}.

(** What the full mobile script reads. *)
Record MobilePage : Type := mkMobilePage {
  mp_innerWidth : Z; mp_innerHeight : Z;
  mp_viewportMeta : option (option jsstring);  (* the element, its content *)
  mp_matches : list (list MobileElement);      (* per selector, in order *)
  mp_hasMobileMediaQueries : bool;             (* as the stylesheet loop left them *)
  mp_mobileBreakpoints : list jsstring;
  mp_bodyFontSize : option Z;
  mp_bodyLineHeight : option Q;
  mp_innerText : jsstring;
  mp_anchors : list MobileAnchor;
  mp_bodyLineHeightText : jsstring;
  mp_bodyLetterSpacingText : jsstring
}.

(** What the reduced mobile script reads. *)
Record BasicPage : Type := mkBasicPage {
  bp_innerWidth : Z; bp_innerHeight : Z;
  bp_viewportMeta : option (option jsstring);
  bp_controls : nat;            (* querySelectorAll(...).length *)
  bp_bodyFontSize : option Z;
  bp_bodyLineHeight : option Q;
  bp_innerText : jsstring;
  bp_outerHTML : jsstring
}.

Definition getElementSize (r : ClientRect) : Size :=
  {| width := Math_round (rect_width r); height := Math_round (rect_height r);
     x := Math_round (rect_x r); y := Math_round (rect_y r) |}.

(** One entry of the mobile touch-target list. *)
Definition touchTargetOf (el : MobileElement) : TouchTarget :=
  let size := getElementSize (m_rect el) in
  let fontSize := orZ (m_fontSize el) 16 in
  let paddingTop := orZ (m_paddingTop el) 0 in
  let paddingBottom := orZ (m_paddingBottom el) 0 in
  let paddingLeft := orZ (m_paddingLeft el) 0 in
  let paddingRight := orZ (m_paddingRight el) 0 in
  let effectiveWidth := (width size + paddingLeft + paddingRight)%Z in
  let effectiveHeight := (height size + paddingTop + paddingBottom)%Z in
  {| tt_tag := m_tag el;
     tt_text := substring0 50 (trim (m_text el));
     size := size;
     effectiveSize := (effectiveWidth, effectiveHeight);
     fontSize := fontSize;
     meetsWCAG := (44 <=? effectiveWidth)%Z && (44 <=? effectiveHeight)%Z;
     hasLabel :=
       match orEmpty (m_ariaLabel el), orEmpty (m_title el) with
       | [], [] => inr (0 <? length (trim (m_text el)))%nat
       | [], t => inl t
       | a, _ => inl a
       end |}.

(** The pairs of entries whose origins are under 8px apart on both axes. *)
Fixpoint spacingIssues (els : list TouchTarget) : list SpacingIssue :=
  match els with
  | [] => []
  | el1 :: rest =>
      flat_map
        (fun el2 =>
           let distanceX := Z.abs (x (size el1) - x (size el2)) in
           let distanceY := Z.abs (y (size el1) - y (size el2)) in
           if (distanceX <? 8)%Z && (distanceY <? 8)%Z
           then [ {| element1 := substring0 30 (tt_text el1);
                     element2 := substring0 30 (tt_text el2);
                     distance := Z.min distanceX distanceY |} ]
           else [])
        rest
      ++ spacingIssues rest
  end.

Definition mobileLinkOf (a : MobileAnchor) : MobileLink :=
  {| ml_text := substring0 50 (trim (ma_text a));
     hasUnderline := includes (ma_textDecoration a) (u "underline");
     isBold := match ma_fontWeight a with
               | Some w => (600 <=? w)%Z
               | None => false
               end;
     ml_fontSize := ma_fontSize a |}.

Definition emptyMobileStructuredData : MobileStructuredData :=
  {| ms_headings := ([], [], []); ms_buttons := []; ms_links := []; ms_forms := 0 |}.

Definition mobileStructuredDataOf (d : RawDom) : MobileStructuredData :=
  {| ms_headings := (h1s d, h2s d, h3s d);
     ms_buttons := map buttonOf (buttonEls d);
     ms_links := slice0 30 (map (fun a => (trim (a_text a), a_href a)) (anchors d));
     ms_forms := formCount d |}.

(** The full mobile script, followed by the two assignments
    [mobileData.structuredData = ...] and [mobileData.html = ...]. *)
Definition mobileEvaluate (p : MobilePage) (mobileHtml : jsstring)
    (mobileDom : RawDom) : MobileData :=
  let interactiveElements :=
    flat_map (fun els => map touchTargetOf (firstn 20 els)) (mp_matches p) in
  {| viewport :=
       {| vp_width := mp_innerWidth p; vp_height := mp_innerHeight p;
          metaTag := match mp_viewportMeta p with
                     | Some content => content
                     | None => None
                     end;
          hasViewportMeta := match mp_viewportMeta p with
                             | Some _ => true
                             | None => false
                             end |};
     touchTargets :=
       {| total := length interactiveElements;
          compliant := length (filter meetsWCAG interactiveElements);
          nonCompliant :=
            map (fun el => {| nc_element := substring0 50 (tt_text el);
                              nc_size := effectiveSize el;
                              nc_required := u "44x44px minimum" |})
                (filter (fun el => negb (meetsWCAG el)) interactiveElements);
          details := Some (slice0 30 interactiveElements) |};
     spacing_issues := slice0 10 (spacingIssues interactiveElements);
     hasMobileMediaQueries := mp_hasMobileMediaQueries p;
     breakpoints := slice0 5 (mp_mobileBreakpoints p);
     typography :=
       let bodyFontSize := orZ (mp_bodyFontSize p) 16 in
       {| bodyFontSize := bodyFontSize;
          bodyLineHeight := orQ (mp_bodyLineHeight p) (3 # 2);
          meetsMinimum := (16 <=? bodyFontSize)%Z |};
     mobile_textContent := squeeze (N.to_nat 30000) (mp_innerText p);
     mobile_cssAnalysis :=
       Some {| css_links_total := length (mp_anchors p);
               css_links_details := map mobileLinkOf (firstn 20 (mp_anchors p));
               css_body_lineHeight := mp_bodyLineHeightText p;
               css_body_letterSpacing := mp_bodyLetterSpacingText p |};
     mobile_structuredData := mobileStructuredDataOf mobileDom;
     mobile_html := substring0 (N.to_nat 100000) mobileHtml |}.

(** The reduced mobile record of the [catch]: viewport facts and the
    number of controls; every other key is a fixed placeholder or a raw
    reading, and there is no style analysis and no per-target detail. *)
Definition basicMobileData (p : BasicPage) : MobileData :=
  {| viewport :=
       {| vp_width := bp_innerWidth p; vp_height := bp_innerHeight p;
          metaTag := match bp_viewportMeta p with
                     | Some (Some (c :: s)) => Some (c :: s)
                     | _ => None
                     end;
          hasViewportMeta := match bp_viewportMeta p with
                             | Some _ => true
                             | None => false
                             end |};
     touchTargets :=
       {| total := bp_controls p; compliant := 0; nonCompliant := [];
          details := None |};
     spacing_issues := [];
     hasMobileMediaQueries := false;
     breakpoints := [];
     typography :=
       {| bodyFontSize := orZ (bp_bodyFontSize p) 16;
          bodyLineHeight := orQ (bp_bodyLineHeight p) (3 # 2);
          meetsMinimum := true |};
     mobile_textContent := squeeze (N.to_nat 10000) (bp_innerText p);
     mobile_cssAnalysis := None;
     mobile_structuredData := emptyMobileStructuredData;
     mobile_html := substring0 (N.to_nat 50000) (bp_outerHTML p) |}.


(** Does a mobile record hold every key of the full record? *)
Definition fullyPopulated (m : MobileData) : bool :=
  match mobile_cssAnalysis m, details (touchTargets m) with
  | Some _, Some _ => true
  | _, _ => false
  end.

(** ** Calls that leave the program *)

(** What the lightweight request resolves to: status line and body. *)
Record HttpResponse : Type := mkHttpResponse {
  http_status : N;
  statusText : jsstring;
  body : Outcome jsstring       (* response.text() *)
}.

(** [response.ok] *)
Definition ok (r : HttpResponse) : bool :=
  ((200 <=? http_status r) && (http_status r <? 300))%N.

(** One run of a capture: what each call returns or throws.  Every call
    site is reached at most once in a run, so one outcome per site says
    all there is to say.  Each call is taken to settle: a promise that
    never resolves is not a run of this model. *)
Record Env : Type := mkEnv {
  puppeteer : bool;                         (* was the module loaded *)
  now : jsstring;                           (* new Date().toISOString() *)
  launch : Outcome unit;
  newPage : Outcome unit;
  setUserAgent : Outcome unit;
  setViewport : Outcome unit;
  goto_networkidle0 : Outcome unit;
  goto_domcontentloaded : Outcome unit;
  scroll : Outcome unit;
  page_content : Outcome jsstring;
  page_title : Outcome jsstring;
  css_page : Outcome DesktopPage;
  reflow_setViewport : Outcome unit;
  reflow_page : Outcome ReflowPage;
  zoom_setViewport : Outcome unit;
  zoom_page : Outcome ZoomPage;
  reset_setViewport : Outcome unit;
  mobile_setUserAgent : Outcome unit;
  mobile_setViewport : Outcome unit;
  mobile_viewportCheck : Outcome unit;
  reload_networkidle0 : Outcome unit;
  reload_domcontentloaded : Outcome unit;
  mobile_scroll : Outcome unit;
  mobile_content : Outcome jsstring;
  mobile_page : Outcome MobilePage;
  basic_page : Outcome BasicPage;
  close : Outcome unit;                     (* browser.close() before the return *)
  close_in_catch : Outcome unit;            (* browser.close() in the catch *)
  fetch : Outcome HttpResponse
}.

(** ** Sequencing calls that may throw *)

Definition bindO {A B} (m : Outcome A) (k : A -> Outcome B) : Outcome B :=
  match m with
  | Returns a => k a
  | Throws e => Throws e
  end.

(** [try { m } catch (e) { h e }] *)
Definition tryO {A} (m : Outcome A) (h : JsError -> Outcome A) : Outcome A :=
  match m with
  | Returns a => Returns a
  | Throws e => h e
  end.

(** The browser process, and the local variable [browser] that holds it. *)
Inductive Process : Type := NotStarted | Running | Closed.

Record World : Type := mkWorld { process : Process; browser : bool }.

Definition M (A : Type) : Type := World -> Outcome A * World.

Definition ret {A} (a : A) : M A := fun w => (Returns a, w).

Definition bind {A B} (m : M A) (k : A -> M B) : M B :=
  fun w =>
    match m w with
    | (Returns a, w') => k a w'
    | (Throws e, w') => (Throws e, w')
    end.

Definition try_catch {A} (m : M A) (h : JsError -> M A) : M A :=
  fun w =>
    match m w with
    | (Returns a, w') => (Returns a, w')
    | (Throws e, w') => h e w'
    end.

(** A call on the page: its outcome is the environment's, and the browser
    stays as it is. *)
Definition call {A} (o : Outcome A) : M A := fun w => (o, w).

(** [browser = await puppeteer.launch(...)] *)
Definition do_launch (o : Outcome unit) : M unit :=
  fun w =>
    match o with
    | Returns _ => (Returns tt, {| process := Running; browser := true |})
    | Throws e => (Throws e, w)
    end.

(** [await browser.close()] *)
Definition do_close (o : Outcome unit) : M unit :=
  fun w =>
    match o with
    | Returns _ => (Returns tt, {| process := Closed; browser := browser w |})
    | Throws e => (Throws e, w)
    end.

(** [browser = null] *)
Definition clear_browser : M unit :=
  fun w => (Returns tt, {| process := process w; browser := false |}).

Definition get_browser : M bool := fun w => (Returns (browser w), w).

Declare Scope js_scope.
Delimit Scope js_scope with js.
Notation "x <- m ;; k" := (bind m (fun x => k))
  (at level 61, m at next level, right associativity) : js_scope.
Notation "m ;; k" := (bind m (fun _ => k))
  (at level 61, right associativity) : js_scope.
Notation "x <~ m ;; k" := (bindO m (fun x => k))
  (at level 61, m at next level, right associativity) : js_scope.
Notation "m ~~ k" := (bindO m (fun _ => k))
  (at level 61, right associativity) : js_scope.

Record Snapshot : Type := mkSnapshot {
  url : jsstring;
  html : jsstring;
  structuredData : StructuredData;
  cssAnalysis : field CssAnalysis;
  reflowTest : field ReflowTest;
  zoomTest : field ZoomTest;
  mobileData : field MobileData;
  fetchedAt : jsstring
}.

(** What the rendering path holds when it reaches the mobile stage. *)
Record Desktop : Type := mkDesktop {
  dk_html : jsstring;
  dk_structuredData : StructuredData;
  dk_cssAnalysis : field CssAnalysis;
  dk_reflowTest : field ReflowTest;
  dk_zoomTest : field ZoomTest
}.

Section Engine.

(** Addition of doubles, with its rounding; the doubles themselves are
    the rationals they denote. *)
Variable fadd : Q -> Q -> Q.

(** [cheerio.load(html)] and the selectors run on it. *)
Variable cheerio_load : jsstring -> RawDom.

(** [rect.width + paddingLeft + paddingRight] on the desktop page *)
Definition effectiveWidth (el : DesktopElement) : Q :=
  let paddingLeft := orQ (d_paddingLeft el) 0 in
  let paddingRight := orQ (d_paddingRight el) 0 in
  fadd (fadd (rect_width (d_rect el)) paddingLeft) paddingRight.

(** [rect.height + paddingTop + paddingBottom] on the desktop page *)
Definition effectiveHeight (el : DesktopElement) : Q :=
  let paddingTop := orQ (d_paddingTop el) 0 in
  let paddingBottom := orQ (d_paddingBottom el) 0 in
  fadd (fadd (rect_height (d_rect el)) paddingTop) paddingBottom.

(** One entry of the desktop target-size list. *)
Definition targetSizeOf (el : DesktopElement) : TargetSize :=
  let rect := d_rect el in
  let effectiveWidth := effectiveWidth el in
  let effectiveHeight := effectiveHeight el in
  {| ts_tag := d_tag el;
     ts_text := substring0 40 (trim (d_text el));
     ts_width := Math_round (rect_width rect);
     ts_height := Math_round (rect_height rect);
     ts_effectiveWidth := Math_round effectiveWidth;
     ts_effectiveHeight := Math_round effectiveHeight;
     meets24x24 := Qle_bool 24 effectiveWidth && Qle_bool 24 effectiveHeight |}.

(** The desktop style script, for the part modelled. *)
Definition cssEvaluate (p : DesktopPage) : CssAnalysis :=
  let targetSizes := map targetSizeOf (firstn 30 (clickable p)) in
  {| targetSizes :=
       {| ts_total := length targetSizes;
          ts_compliant := length (filter meets24x24 targetSizes);
          ts_nonCompliant := filter (fun t => negb (meets24x24 t)) targetSizes;
          ts_details := targetSizes |} |}.

Variable env : Env.

Local Open Scope js_scope.

Definition httpErrorMessage (r : HttpResponse) : jsstring :=
  u "HTTP " ++ u (NilEmpty.string_of_uint (N.to_uint (http_status r)))
  ++ u ": " ++ statusText r.

(** The lightweight fetcher. *)
Definition fetchWebsiteSimple (url : jsstring) : Outcome Snapshot :=
  tryO
    (response <~ fetch env ;;
     (if negb (ok response)
      then Throws (new_Error (httpErrorMessage response))
      else Returns tt) ~~
     html <~ body response ;;
     let structuredData := structuredDataOf [] (cheerio_load html) in
     Returns
       {| url := url;
          html := substring0 (N.to_nat 200000) html;
          structuredData := structuredData;
          cssAnalysis := Absent;
          reflowTest := Absent;
          zoomTest := Absent;
          mobileData := Null;
          fetchedAt := now env |})
    (fun error =>
       Throws (new_Error (u "Simple fetch failed: " ++ message error))).

(** From the new page to the viewport reset before the mobile stage. *)
Definition desktopStage : Outcome Desktop :=
  newPage env ~~
  setUserAgent env ~~
  setViewport env ~~
  tryO (goto_networkidle0 env)
       (fun navError =>
          tryO (goto_domcontentloaded env) (fun navError2 => Returns tt)) ~~
  scroll env ~~
  html <~ page_content env ;;
  title <~ page_title env ;;
  let structuredData := structuredDataOf title (cheerio_load html) in
  desktopCSSAnalysis <~
    tryO (p <~ css_page env ;; Returns (Val (cssEvaluate p)))
         (fun cssError => Returns Null) ;;
  reflowTest <~
    tryO (reflow_setViewport env ~~
          p <~ reflow_page env ;; Returns (Val (reflowEvaluate p)))
         (fun reflowError => Returns Null) ;;
  zoomTest <~
    tryO (zoom_setViewport env ~~
          p <~ zoom_page env ;; Returns (Val (zoomEvaluate p)))
         (fun zoomError => Returns Null) ;;
  reset_setViewport env ~~
  Returns {| dk_html := html;
             dk_structuredData := structuredData;
             dk_cssAnalysis := desktopCSSAnalysis;
             dk_reflowTest := reflowTest;
             dk_zoomTest := zoomTest |}.

(** The body of the mobile [try]. *)
Definition mobileCapture : Outcome MobileData :=
  mobile_setUserAgent env ~~
  mobile_setViewport env ~~
  mobile_viewportCheck env ~~
  tryO (reload_networkidle0 env)
       (fun reloadError =>
          tryO (reload_domcontentloaded env) (fun reloadError2 => Returns tt)) ~~
  mobile_scroll env ~~
  mobileHtml <~ mobile_content env ;;
  p <~ mobile_page env ;;
  Returns (mobileEvaluate p mobileHtml (cheerio_load mobileHtml)).

(** The mobile stage with its two handlers: the value of [mobileData]
    when the stage is left. *)
Definition mobileStage : field MobileData :=
  match mobileCapture with
  | Returns mobileData => Val mobileData
  | Throws mobileError =>
      match basic_page env with
      | Returns basic => Val (basicMobileData basic)
      | Throws fallbackError => Null
      end
  end.

(** The object the rendering path returns. *)
Definition renderedSnapshot (url : jsstring) (d : Desktop)
    (mobileData : field MobileData) : Snapshot :=
  {| url := url;
     html := substring0 (N.to_nat 200000) (dk_html d);
     structuredData := dk_structuredData d;
     cssAnalysis := dk_cssAnalysis d;
     reflowTest := dk_reflowTest d;
     zoomTest := dk_zoomTest d;
     mobileData := mobileData;
     fetchedAt := now env |}.

(** The body of the outer [try]. *)
Definition renderPath (url : jsstring) : M Snapshot :=
  do_launch (launch env) ;;
  d <- call desktopStage ;;
  let mobileData := mobileStage in
  do_close (close env) ;;
  clear_browser ;;
  ret (renderedSnapshot url d mobileData).

Definition fetchWebsiteContent (url : jsstring) : M Snapshot :=
  if puppeteer env then
    try_catch (renderPath url)
      (fun puppeteerError =>
         b <- get_browser ;;
         (if b
          then try_catch (do_close (close_in_catch env)) (fun e => ret tt)
          else ret tt) ;;
         call (fetchWebsiteSimple url))
  else call (fetchWebsiteSimple url).

Definition start : World := {| process := NotStarted; browser := false |}.
Definition running : World := {| process := Running; browser := true |}.
Definition closed : World := {| process := Closed; browser := false |}.

(** The error the lightweight fetcher throws for a given cause. *)
Definition wrapped (cause : JsError) : JsError :=
  new_Error (u "Simple fetch failed: " ++ message cause).

(** The browser after the handler of the outer [catch]. *)
Definition afterFailure (w : World) : World :=
  if browser w then
    match close_in_catch env with
    | Returns _ => {| process := Closed; browser := browser w |}
    | Throws _ => w
    end
  else w.

(** What a call of [fetchWebsiteContent] resolves to, and the browser it
    leaves behind. *)
Definition capture (url : jsstring) : Outcome Snapshot * World :=
  fetchWebsiteContent url start.

End Engine.

End Snapshot.

(* ================================================================== *)
(** * The repair steps as the specification words them

    Direct definitions on the text, without patterns; they are compared
    with the handler's own steps below. *)

Module Spec.

(** The white space a text opens with. *)
Fixpoint leadingSpace (s : jsstring) : jsstring :=
  match s with
  | c :: s' => if isSpace c then c :: leadingSpace s' else []
  | [] => []
  end.

(** Step 1, for one marker: [out] is [s] without the occurrences of the
    marker, read from the left, and without the white space that follows
    each of them. *)
Inductive Stripped (marker : jsstring) : jsstring -> jsstring -> Prop :=
| stripped_nil : Stripped marker [] []
| stripped_marker (rest out : jsstring) :
    Stripped marker (trimStart rest) out ->
    Stripped marker (marker ++ rest) out
| stripped_keep (c : N) (s out : jsstring) :
    startsWith (c :: s) marker = false ->
    Stripped marker s out ->
    Stripped marker (c :: s) (c :: out).

(** The text before the last [c] and the text after it. *)
Fixpoint split_last (c : N) (s : jsstring) : option (jsstring * jsstring) :=
  match s with
  | [] => None
  | x :: s' =>
      match split_last c s' with
      | Some (before, after) => Some (x :: before, after)
      | None => if N.eqb x c then Some ([], s') else None
      end
  end.

(** The span from the first opening brace to the last closing brace
    after it. *)
Fixpoint brace_span (s : jsstring) : option jsstring :=
  match s with
  | [] => None
  | x :: s' =>
      if N.eqb x (cu "{") then
        match split_last (cu "}") s' with
        | Some (inside, _) => Some (x :: inside ++ [cu "}"])
        | None => None
        end
      else brace_span s'
  end.

(** Step 2: the span, or the whole text when there is none. *)
Definition first_to_last_brace (s : jsstring) : jsstring :=
  match brace_span s with
  | Some span => span
  | None => s
  end.

(** Is the next unit that is not white space a closing bracket or brace? *)
Fixpoint closerFollows (s : jsstring) : bool :=
  match s with
  | [] => false
  | c :: s' => if isSpace c then closerFollows s' else Audit.isCloser c
  end.

(** The white space before a closer, the closer, and what follows it. *)
Fixpoint closerSplit (s : jsstring) : option (jsstring * N * jsstring) :=
  match s with
  | [] => None
  | c :: s' =>
      if isSpace c then
        match closerSplit s' with
        | Some (ws, cl, rest) => Some (c :: ws, cl, rest)
        | None => None
        end
      else if Audit.isCloser c then Some ([], c, s') else None
  end.

(** Step 4: drop each comma that stands before a closing bracket or
    brace. *)
Fixpoint dropTrailingCommas (s : jsstring) : jsstring :=
  match s with
  | [] => []
  | c :: s' =>
      if N.eqb c (cu ",") && closerFollows s'
      then dropTrailingCommas s'
      else c :: dropTrailingCommas s'
  end.

Definition occurrences (c : N) (s : jsstring) : nat := count_occ N.eq_dec s c.

(** Step 5: append the deficit of closing brackets, then of closing
    braces, both counted over every unit of the text. *)
Definition balance (s : jsstring) : jsstring :=
  s ++ repeat (cu "]") (occurrences (cu "[") s - occurrences (cu "]") s)
    ++ repeat (cu "}") (occurrences (cu "{") s - occurrences (cu "}") s).

(** What the six steps end in: the text that parsed, or the failure with
    the original parse error. *)
Inductive Reconciled : Type :=
| Accepted (clean : jsstring)
| Fatal (original : JsError).

(** Steps 1 to 6 in a row, on the raw text of the response. *)
Definition reconcile (JSON_parse : jsstring -> Outcome unit)
    (responseText : jsstring) : Reconciled :=
  let clean := first_to_last_brace (Audit.stripFences responseText) in
  match JSON_parse clean with
  | Returns _ => Accepted clean
  | Throws original =>
      let fixed := balance (dropTrailingCommas clean) in
      match JSON_parse fixed with
      | Returns _ => Accepted fixed
      | Throws _ => Fatal original
      end
  end.

End Spec.

(* ================================================================== *)
(** * Sample runs *)

Module Samples.

Import Audit.

(** A parser whose errors carry no text. *)
Definition parse : jsstring -> Outcome unit := JSON_parse (fun _ => []).

Definition emptyReport : GenerateContentResult :=
  mkResult (j "{'categories':[]}") None None.

(** Every backend throws, each with a reason of its own. *)
Definition allFail (m : jsstring) : Outcome GenerateContentResult :=
  Throws (new_Error (u "failed: " ++ m)).

(** Only the backend [gemini-2.5-flash] throws. *)
Definition flashFails (m : jsstring) : Outcome GenerateContentResult :=
  if jseq m (u "gemini-2.5-flash")
  then Throws (new_Error (u "quota exceeded"))
  else Returns emptyReport.

Import Snapshot.

Definition emptyDom : RawDom :=
  {| titleText := []; metaContent := None;
     h1s := []; h2s := []; h3s := [];
     anchors := []; imgs := []; formCount := 0; buttonEls := [];
     bodyText := [] |}.

(** A parser of documents that finds nothing in them. *)
Definition noDom (html : jsstring) : RawDom := emptyDom.

Definition blankMobilePage : MobilePage :=
  {| mp_innerWidth := 390; mp_innerHeight := 844;
     mp_viewportMeta := None; mp_matches := [];
     mp_hasMobileMediaQueries := false; mp_mobileBreakpoints := [];
     mp_bodyFontSize := Some 16%Z; mp_bodyLineHeight := None;
     mp_innerText := []; mp_anchors := [];
     mp_bodyLineHeightText := u "normal";
     mp_bodyLetterSpacingText := u "normal" |}.

Definition blankBasicPage : BasicPage :=
  {| bp_innerWidth := 390; bp_innerHeight := 844;
     bp_viewportMeta := None; bp_controls := 3;
     bp_bodyFontSize := Some 16%Z; bp_bodyLineHeight := None;
     bp_innerText := []; bp_outerHTML := u "<html></html>" |}.

(** A run in which every call returns. *)
Definition calm : Env :=
  {| puppeteer := true;
     now := u "2025-01-01T00:00:00.000Z";
     launch := Returns tt;
     newPage := Returns tt;
     setUserAgent := Returns tt;
     setViewport := Returns tt;
     goto_networkidle0 := Returns tt;
     goto_domcontentloaded := Returns tt;
     scroll := Returns tt;
     page_content := Returns (u "<html></html>");
     page_title := Returns (u "Home");
     css_page := Returns {| clickable := [] |};
     reflow_setViewport := Returns tt;
     reflow_page := Returns {| r_scrollWidth := 320; r_innerWidth := 320;
                               r_clientWidth := 320 |};
     zoom_setViewport := Returns tt;
     zoom_page := Returns {| z_scrollWidth := 1920; z_scrollHeight := 1080;
                             z_zoomedWidth := 3840; z_zoomedHeight := 2160;
                             z_innerWidth := 1920; z_innerHeight := 1080 |};
     reset_setViewport := Returns tt;
     mobile_setUserAgent := Returns tt;
     mobile_setViewport := Returns tt;
     mobile_viewportCheck := Returns tt;
     reload_networkidle0 := Returns tt;
     reload_domcontentloaded := Returns tt;
     mobile_scroll := Returns tt;
     mobile_content := Returns (u "<html></html>");
     mobile_page := Returns blankMobilePage;
     basic_page := Returns blankBasicPage;
     close := Returns tt;
     close_in_catch := Returns tt;
     fetch := Returns {| http_status := 200; statusText := u "OK";
                         body := Returns (u "<html></html>") |} |}.

Definition crash : JsError := new_Error (u "Target closed").

(** The same run, except that the first call of the mobile stage throws. *)
Definition mobileFails : Env :=
  {| puppeteer := true;
     now := now calm;
     launch := launch calm;
     newPage := newPage calm;
     setUserAgent := setUserAgent calm;
     setViewport := setViewport calm;
     goto_networkidle0 := goto_networkidle0 calm;
     goto_domcontentloaded := goto_domcontentloaded calm;
     scroll := scroll calm;
     page_content := page_content calm;
     page_title := page_title calm;
     css_page := css_page calm;
     reflow_setViewport := reflow_setViewport calm;
     reflow_page := reflow_page calm;
     zoom_setViewport := zoom_setViewport calm;
     zoom_page := zoom_page calm;
     reset_setViewport := reset_setViewport calm;
     mobile_setUserAgent := Throws crash;
     mobile_setViewport := mobile_setViewport calm;
     mobile_viewportCheck := mobile_viewportCheck calm;
     reload_networkidle0 := reload_networkidle0 calm;
     reload_domcontentloaded := reload_domcontentloaded calm;
     mobile_scroll := mobile_scroll calm;
     mobile_content := mobile_content calm;
     mobile_page := mobile_page calm;
     basic_page := basic_page calm;
     close := close calm;
     close_in_catch := close_in_catch calm;
     fetch := fetch calm |}.

(** A page that answers the plain request with 403 and brings the
    renderer down when its content is read. *)
Definition hostile : Env :=
  {| puppeteer := true;
     now := now calm;
     launch := launch calm;
     newPage := newPage calm;
     setUserAgent := setUserAgent calm;
     setViewport := setViewport calm;
     goto_networkidle0 := goto_networkidle0 calm;
     goto_domcontentloaded := goto_domcontentloaded calm;
     scroll := scroll calm;
     page_content := Throws crash;
     page_title := page_title calm;
     css_page := css_page calm;
     reflow_setViewport := reflow_setViewport calm;
     reflow_page := reflow_page calm;
     zoom_setViewport := zoom_setViewport calm;
     zoom_page := zoom_page calm;
     reset_setViewport := reset_setViewport calm;
     mobile_setUserAgent := mobile_setUserAgent calm;
     mobile_setViewport := mobile_setViewport calm;
     mobile_viewportCheck := mobile_viewportCheck calm;
     reload_networkidle0 := reload_networkidle0 calm;
     reload_domcontentloaded := reload_domcontentloaded calm;
     mobile_scroll := mobile_scroll calm;
     mobile_content := mobile_content calm;
     mobile_page := mobile_page calm;
     basic_page := basic_page calm;
     close := close calm;
     close_in_catch := close_in_catch calm;
     fetch := Returns {| http_status := 403; statusText := u "Forbidden";
                         body := Returns (u "<html>blocked</html>") |} |}.

(** Elements at and under the two thresholds. *)
Definition box (w h : Q) : ClientRect :=
  {| rect_width := w; rect_height := h; rect_x := 0; rect_y := 0 |}.

Definition mobileEl (w h : Q) (pad : option Z) : MobileElement :=
  {| m_tag := u "button"; m_text := u "Go"; m_rect := box w h;
     m_fontSize := Some 16%Z;
     m_paddingTop := pad; m_paddingBottom := pad;
     m_paddingLeft := pad; m_paddingRight := pad;
     m_ariaLabel := None; m_title := None |}.

Definition desktopEl (w h : Q) (pad : option Q) : DesktopElement :=
  {| d_tag := u "a"; d_text := u "Go"; d_rect := box w h;
     d_paddingTop := pad; d_paddingBottom := pad;
     d_paddingLeft := pad; d_paddingRight := pad |}.




(** The calm run with another page read by the mobile script. *)
Definition withMobilePage (p : MobilePage) : Env :=
  {| puppeteer := true;
     now := now calm;
     launch := launch calm;
     newPage := newPage calm;
     setUserAgent := setUserAgent calm;
     setViewport := setViewport calm;
     goto_networkidle0 := goto_networkidle0 calm;
     goto_domcontentloaded := goto_domcontentloaded calm;
     scroll := scroll calm;
     page_content := page_content calm;
     page_title := page_title calm;
     css_page := css_page calm;
     reflow_setViewport := reflow_setViewport calm;
     reflow_page := reflow_page calm;
     zoom_setViewport := zoom_setViewport calm;
     zoom_page := zoom_page calm;
     reset_setViewport := reset_setViewport calm;
     mobile_setUserAgent := mobile_setUserAgent calm;
     mobile_setViewport := mobile_setViewport calm;
     mobile_viewportCheck := mobile_viewportCheck calm;
     reload_networkidle0 := reload_networkidle0 calm;
     reload_domcontentloaded := reload_domcontentloaded calm;
     mobile_scroll := mobile_scroll calm;
     mobile_content := mobile_content calm;
     mobile_page := Returns p;
     basic_page := basic_page calm;
     close := close calm;
     close_in_catch := close_in_catch calm;
     fetch := fetch calm |}.

(** The calm run with two touch targets two pixels apart. *)
Definition crowded : Env :=
  withMobilePage
    {| mp_innerWidth := 390; mp_innerHeight := 844;
       mp_viewportMeta := None;
       mp_matches :=
         [[{| m_tag := u "a"; m_text := u "Home";
              m_rect := {| rect_width := 50; rect_height := 50;
                           rect_x := 10; rect_y := 10 |};
              m_fontSize := Some 16%Z;
              m_paddingTop := None; m_paddingBottom := None;
              m_paddingLeft := None; m_paddingRight := None;
              m_ariaLabel := None; m_title := None |};
           {| m_tag := u "a"; m_text := u "Shop";
              m_rect := {| rect_width := 50; rect_height := 50;
                           rect_x := 12; rect_y := 15 |};
              m_fontSize := Some 16%Z;
              m_paddingTop := None; m_paddingBottom := None;
              m_paddingLeft := None; m_paddingRight := None;
              m_ariaLabel := None; m_title := None |}]];
       mp_hasMobileMediaQueries := false;
       mp_mobileBreakpoints := [];
       mp_bodyFontSize := Some 16%Z; mp_bodyLineHeight := None;
       mp_innerText := []; mp_anchors := [];
       mp_bodyLineHeightText := u "normal";
       mp_bodyLetterSpacingText := u "normal" |}.


End Samples.

(* ================================================================== *)
(** * The rate limiter *)

Module RateLimit.

Definition RATE_LIMIT : nat := 10.
Definition RATE_WINDOW : Z := 60 * 60 * 1000.

(** [requestCounts]: a [Map] from the client address to the times of the
    requests counted for it, in insertion order. *)
Definition Store : Type := list (jsstring * list Z).

(** [requestCounts.get(ip)] *)
Fixpoint get (requestCounts : Store) (ip : jsstring) : option (list Z) :=
  match requestCounts with
  | [] => None
  | (k, v) :: rest => if jseq k ip then Some v else get rest ip
  end.

(** [requestCounts.set(ip, times)]: an existing key keeps its place. *)
Fixpoint set (requestCounts : Store) (ip : jsstring) (times : list Z) : Store :=
  match requestCounts with
  | [] => [(ip, times)]
  | (k, v) :: rest =>
      if jseq k ip then (k, times) :: rest else (k, v) :: set rest ip times
  end.

(** [now - time < RATE_WINDOW] *)
Definition inWindow (now time : Z) : bool := (now - time <? RATE_WINDOW)%Z.

(** [requestCounts.get(ip) || []] *)
Definition userRequests (requestCounts : Store) (ip : jsstring) : list Z :=
  match get requestCounts ip with
  | Some times => times
  | None => []
  end.

(** [checkRateLimit(ip)], with the reading of [Date.now()] and the map it
    works on; it returns the verdict and the map it leaves. *)
Definition checkRateLimit (now : Z) (ip : jsstring) (requestCounts : Store)
  : bool * Store :=
  let recentRequests := filter (inWindow now) (userRequests requestCounts ip) in
  if (RATE_LIMIT <=? length recentRequests)%nat then (false, requestCounts)
  else (true, set requestCounts ip (recentRequests ++ [now])).

(** A series of calls, each with its clock reading and address: the
    verdicts in order and the map at the end. *)
Fixpoint serve (calls : list (Z * jsstring)) (requestCounts : Store)
  : list bool * Store :=
  match calls with
  | [] => ([], requestCounts)
  | (now, ip) :: rest =>
      let (allowed, requestCounts') := checkRateLimit now ip requestCounts in
      let (verdicts, final) := serve rest requestCounts' in
      (allowed :: verdicts, final)
  end.

(** The times of the calls of [ip] that were allowed. *)
Fixpoint allowedTimes (ip : jsstring) (calls : list (Z * jsstring))
    (verdicts : list bool) : list Z :=
  match calls, verdicts with
  | (now, ip') :: calls', allowed :: verdicts' =>
      if allowed && jseq ip' ip
      then now :: allowedTimes ip calls' verdicts'
      else allowedTimes ip calls' verdicts'
  | _, _ => []
  end.

(** Clock readings that never go back. *)
Fixpoint ascending (last : Z) (calls : list (Z * jsstring)) : Prop :=
  match calls with
  | [] => True
  | (now, _) :: rest => (last <= now)%Z /\ ascending now rest
  end.

(** What the map holds agrees, inside every later window, with a given
    history of allowed times. *)
Definition agrees (m : Store) (history : jsstring -> list Z) (last : Z) : Prop :=
  forall ip now,
    (last <= now)%Z ->
    filter (inWindow now) (userRequests m ip)
    = filter (inWindow now) (history ip).

End RateLimit.

(* ================================================================== *)
(** * The external metrics client *)

Module Psi.

(** One entry of [lighthouseResult.audits]. *)
Record Audit : Type := mkAudit {
  audit_id : option jsstring;
  audit_title : option jsstring;
  audit_description : option jsstring;
  audit_score : option Q;
  audit_displayValue : option jsstring;
  audit_numericValue : option Q;
  audit_details : option jsstring       (* kept as it came *)
}.

(** [categories.<name>?.score], [None] when the category or its score is
    missing or [null]. *)
Record CategoryScores : Type := mkCategoryScores {
  cat_performance : option Q;
  cat_accessibility : option Q;
  cat_bestPractices : option Q;
  cat_seo : option Q
}.

Record Lhr : Type := mkLhr {
  audits : option (list (jsstring * Audit));
  categories : option CategoryScores;
  finalUrl : option jsstring;
  userAgent : option jsstring;
  config_viewport : option jsstring;            (* configSettings?.viewport *)
  config_emulatedFormFactor : option jsstring
}.

(** The parsed body of a response. *)
Record Body : Type := mkBody { lighthouseResult : option Lhr }.

Record AccessibilityAudit : Type := mkAccessibilityAudit {
  aa_title : option jsstring;
  aa_description : option jsstring;
  aa_score : option Q;
  aa_displayValue : option jsstring;
  aa_details : option jsstring
}.

Record Metric : Type := mkMetric {
  metric_title : option jsstring;
  metric_displayValue : option jsstring;
  metric_numericValue : option Q;
  metric_score : option Q
}.

Record Scores : Type := mkScores {
  performance : option Z;
  accessibility : option Z;
  bestPractices : option Z;
  seo : option Z
}.

Record Data : Type := mkData {
  strategy : jsstring;
  scores : Scores;
  accessibilityAudits : list (jsstring * AccessibilityAudit);
  performanceMetrics : list (jsstring * Metric);
  data_finalUrl : option jsstring;
  data_userAgent : option jsstring;
  data_viewport : option jsstring;
  emulatedFormFactor : option jsstring
}.

Record Result : Type := mkResult {
  mobile : option Data;
  desktop : option Data;
  fetchedAt : jsstring
}.

(** [obj[key]] on an object read from JSON *)
Fixpoint lookup {A} (obj : list (jsstring * A)) (key : jsstring) : option A :=
  match obj with
  | [] => None
  | (k, v) :: rest => if jseq k key then Some v else lookup rest key
  end.

(** [obj[key] = v]: an existing key keeps its place. *)
Fixpoint assign {A} (obj : list (jsstring * A)) (key : jsstring) (v : A)
  : list (jsstring * A) :=
  match obj with
  | [] => [(key, v)]
  | (k, w) :: rest =>
      if jseq k key then (k, v) :: rest else (k, w) :: assign rest key v
  end.

Definition metricIds : list jsstring :=
  [ u "first-contentful-paint"; u "largest-contentful-paint";
    u "total-blocking-time"; u "cumulative-layout-shift"; u "speed-index" ].

(** A response to one of the two requests: [response.ok] and what
    [response.json()] resolves to ([None]: a falsy value). *)
Record Http : Type := mkHttp {
  psi_ok : bool;
  psi_json : Outcome (option Body)
}.

Record Env : Type := mkEnv {
  psiApiKey : option jsstring;            (* process.env.PSI_API_KEY *)
  mobileResponse : Outcome Http;
  desktopResponse : Outcome Http;
  psi_now : jsstring
}.

(** [r.status === 'fulfilled' && r.value.ok] *)
Definition usable (r : Outcome Http) : bool :=
  match r with
  | Returns response => psi_ok response
  | Throws _ => false
  end.

Section Client.

(** Multiplication of doubles, with its rounding. *)
Variable fmul : Q -> Q -> Q.

(** [score ? Math.round(score * 100) : null] *)
Definition percent (score : option Q) : option Z :=
  match score with
  | Some s =>
      if Qeq_bool s 0 then None else Some (Snapshot.Math_round (fmul s 100))
  | None => None
  end.

(** The loop over [Object.keys(audits)]. *)
Fixpoint collectAccessibility (audits : list (jsstring * Audit))
    (accessibilityAudits : list (jsstring * AccessibilityAudit))
  : list (jsstring * AccessibilityAudit) :=
  match audits with
  | [] => accessibilityAudits
  | (key, audit) :: rest =>
      collectAccessibility rest
        (match audit_id audit with
         | Some id =>
             if Audit.truthy id && startsWith id (u "accessibility") then
               assign accessibilityAudits id
                 {| aa_title := audit_title audit;
                    aa_description := audit_description audit;
                    aa_score := audit_score audit;
                    aa_displayValue := audit_displayValue audit;
                    aa_details := audit_details audit |}
             else accessibilityAudits
         | None => accessibilityAudits
         end)
  end.

(** The loop over [metricIds]. *)
Fixpoint collectMetrics (audits : list (jsstring * Audit))
    (ids : list jsstring) (performanceMetrics : list (jsstring * Metric))
  : list (jsstring * Metric) :=
  match ids with
  | [] => performanceMetrics
  | id :: rest =>
      collectMetrics audits rest
        (match lookup audits id with
         | Some audit =>
             assign performanceMetrics id
               {| metric_title := audit_title audit;
                  metric_displayValue := audit_displayValue audit;
                  metric_numericValue := audit_numericValue audit;
                  metric_score := audit_score audit |}
         | None => performanceMetrics
         end)
  end.

(** [v || null]: a missing or empty value gives [null]. *)
Definition orNone (o : option jsstring) : option jsstring :=
  match o with
  | Some (c :: s) => Some (c :: s)
  | _ => None
  end.

Definition extractPSIData (psiResponse : option Body) (strategy : jsstring)
  : option Data :=
  match psiResponse with
  | Some {| lighthouseResult := Some lhr |} =>
      let audits := match audits lhr with Some a => a | None => [] end in
      let categories :=
        match categories lhr with
        | Some c => c
        | None => {| cat_performance := None; cat_accessibility := None;
                     cat_bestPractices := None; cat_seo := None |}
        end in
      Some
        {| strategy := strategy;
           scores :=
             {| performance := percent (cat_performance categories);
                accessibility := percent (cat_accessibility categories);
                bestPractices := percent (cat_bestPractices categories);
                seo := percent (cat_seo categories) |};
           accessibilityAudits := collectAccessibility audits [];
           performanceMetrics := collectMetrics audits metricIds [];
           data_finalUrl := finalUrl lhr;
           data_userAgent := userAgent lhr;
           data_viewport := orNone (config_viewport lhr);
           emulatedFormFactor := orNone (config_emulatedFormFactor lhr) |}
  | _ => None
  end.

Variable env : Env.

(** [r.status === 'fulfilled' && r.value.ok ? await r.value.json() : null] *)
Definition dataOf (r : Outcome Http) : Outcome (option Body) :=
  match r with
  | Returns response => if psi_ok response then psi_json response else Returns None
  | Throws _ => Returns None
  end.

(** [fetchPageSpeedInsights(url)]; [None] is [null]. *)
Definition fetchPageSpeedInsights : option Result :=
  match Audit.truthy (Snapshot.orEmpty (psiApiKey env)) with
  | false => None
  | true =>
      match dataOf (mobileResponse env) with
      | Throws error => None
      | Returns mobileData =>
          match dataOf (desktopResponse env) with
          | Throws error => None
          | Returns desktopData =>
              match mobileData, desktopData with
              | None, None => None
              | _, _ =>
                  Some {| mobile := extractPSIData mobileData (u "mobile");
                          desktop := extractPSIData desktopData (u "desktop");
                          fetchedAt := psi_now env |}
              end
          end
      end
  end.

End Client.

End Psi.

(* ================================================================== *)
(** * The checklist of the prompt, and the handler as a whole *)

Module Handler.

Import Audit.

(** One item of a category of [auditOptions]. *)
Record Item : Type := mkItem {
  label : jsstring;
  checked : bool;
  prompt : option jsstring
}.

(** One category; a key that the request leaves out is [None]. *)
Record Category : Type := mkCategory {
  cat_title : option jsstring;
  items : option (list (jsstring * Item))
}.

Definition AuditOptions : Type := list (jsstring * Category).

(** The body of the request; [None] is a key left out. *)
Record Request : Type := mkRequest {
  req_url : option jsstring;
  req_auditOptions : option AuditOptions;
  req_model : option jsstring
}.

(** [item.prompt && item.prompt.trim()] *)
Definition hasCustomPrompt (item : Item) : bool :=
  match prompt item with
  | Some p => truthy p && truthy (trim p)
  | None => false
  end.

(** The check mark and the warning sign of the template. *)
Definition checkMark : jsstring := [10003%N].
Definition warningSign : jsstring := [9888%N; 65039%N].

Definition newline : jsstring := [10%N].

(** The text one checked item adds to the prompt. *)
Definition itemText (item : Item) : jsstring :=
  newline ++ checkMark ++ u " " ++ label item ++ newline
  ++ (if hasCustomPrompt item then
        newline ++ warningSign
        ++ j " CUSTOM INSTRUCTIONS (HIGHEST PRIORITY - override default behavior if needed, but keep '"
        ++ label item ++ j "' as the main assessment context):" ++ newline
        ++ Snapshot.orEmpty (prompt item) ++ newline
      else []).

Definition checkedItems (its : list (jsstring * Item)) : list (jsstring * Item) :=
  filter (fun entry => checked (snd entry)) its.

Section Engine.

(** The text of the [TypeError] the engine throws when a property is read
    from, or the entries are taken of, a missing value. *)
Variable typeErrorMessage : jsstring -> jsstring.

Definition TypeError (what : jsstring) : JsError :=
  new_Error (typeErrorMessage what).

(** [s.toUpperCase()] *)
Variable toUpperCase : jsstring -> jsstring.

(** The loop that counts the custom prompts before anything is fetched. *)
Fixpoint countCustomPrompts (auditOptions : AuditOptions) (customPromptCount : nat)
  : Outcome nat :=
  match auditOptions with
  | [] => Returns customPromptCount
  | (categoryKey, category) :: rest =>
      match items category with
      | None => Throws (TypeError (u "items"))
      | Some its =>
          countCustomPrompts rest
            (customPromptCount
             + length (filter (fun entry => checked (snd entry)
                                            && hasCustomPrompt (snd entry)) its))
      end
  end.

(** What one category adds to the prompt. *)
Definition categoryText (category : Category) : Outcome jsstring :=
  match items category with
  | None => Throws (TypeError (u "items"))
  | Some its =>
      match checkedItems its with
      | [] => Returns []
      | entry :: more =>
          match cat_title category with
          | None => Throws (TypeError (u "toUpperCase"))
          | Some title =>
              Returns (newline ++ u "## " ++ toUpperCase title ++ newline
                       ++ concat (map (fun e => itemText (snd e)) (entry :: more)))
          end
      end
  end.

(** The loop of [generateAuditPrompt] over [Object.entries(auditOptions)]. *)
Fixpoint checklist (auditOptions : AuditOptions) (prompt : jsstring)
  : Outcome jsstring :=
  match auditOptions with
  | [] => Returns prompt
  | (categoryKey, category) :: rest =>
      match categoryText category with
      | Returns text => checklist rest (prompt ++ text)
      | Throws e => Throws e
      end
  end.

(** The template before the checklist: the page, the probes and the
    external metrics, rendered as text. *)
Variable renderContent :
  jsstring -> Snapshot.Snapshot -> option Psi.Result -> jsstring.

(** The template after the checklist: the output contract. *)
Variable outputContract : jsstring.

(** [generateAuditPrompt(url, websiteContent, auditOptions)], with
    [websiteContent.psiData] as a separate argument. *)
Definition generateAuditPrompt (url : jsstring) (websiteContent : Snapshot.Snapshot)
    (psiData : option Psi.Result) (auditOptions : AuditOptions) : Outcome jsstring :=
  match checklist auditOptions (renderContent url websiteContent psiData) with
  | Returns prompt => Returns (prompt ++ outputContract)
  | Throws e => Throws e
  end.

Variable fadd : Q -> Q -> Q.
Variable fmul : Q -> Q -> Q.
Variable cheerio_load : jsstring -> Snapshot.RawDom.
Variable JSON_parse : jsstring -> Outcome unit.

(** [generateContent] of a backend, for a prompt. *)
Variable generateContent : jsstring -> jsstring -> Outcome GenerateContentResult.

(** The run the request meets: the clock, the capture, the metrics client,
    and whether the API key of the backend is set. *)
Variable now : Z.
Variable env : Snapshot.Env.
Variable psiEnv : Psi.Env.
Variable genAI : bool.

(** The handler, after its [try] is entered and the rate limiter has let
    the request through. *)
Definition audit (req : Request) : Reply :=
  let model := match req_model req with
               | Some m => m
               | None => u "gemini-2.0-flash"
               end in
  match Snapshot.orEmpty (req_url req) with
  | [] => ReplyError 400 (u "URL is required") None
  | c :: s =>
      let url := c :: s in
      match req_auditOptions req with
      | None => ReplyError 400 (u "Audit options are required") None
      | Some auditOptions =>
          match countCustomPrompts auditOptions 0 with
          | Throws error => handleError error
          | Returns customPromptCount =>
              let websiteContent :=
                fst (Snapshot.capture fadd cheerio_load env url) in
              let psiData := Psi.fetchPageSpeedInsights fmul psiEnv in
              match websiteContent with
              | Throws _ =>
                  handleError (new_Error (u "Failed to fetch website content"))
              | Returns content =>
                  match generateAuditPrompt url content psiData auditOptions with
                  | Throws error => handleError error
                  | Returns prompt =>
                      api_audit_step3 JSON_parse (generateContent prompt)
                        genAI model
                  end
              end
          end
      end
  end.

(** [app.post('/api/audit', ...)]: the reply, and the rate limiter's map
    after the request. *)
Definition api_audit (clientIp : jsstring) (req : Request)
    (requestCounts : RateLimit.Store) : Reply * RateLimit.Store :=
  let (allowed, requestCounts') :=
    RateLimit.checkRateLimit now clientIp requestCounts in
  if negb allowed then
    (ReplyError 429 (u "Rate limit exceeded. Please try again later.") None,
     requestCounts')
  else (audit req, requestCounts').

End Engine.

(** The options with everything that is not checked taken out. *)
Definition onlyChecked (auditOptions : AuditOptions) : AuditOptions :=
  map (fun entry =>
         (fst entry,
          {| cat_title := cat_title (snd entry);
             items := match items (snd entry) with
                      | Some its => Some (checkedItems its)
                      | None => None
                      end |}))
      auditOptions.

End Handler.

(* ================================================================== *)
(** * More of the desktop style probe *)

Module Probe.

(** A label element, or the target of [aria-labelledby], as the probe
    reads it. *)
Record RawLabel : Type := mkRawLabel {
  l_display : jsstring;
  l_visibility : jsstring;
  l_opacity : jsstring;
  l_text : jsstring                 (* textContent *)
}.

(** A form control as the probe reads it. *)
Record RawInput : Type := mkRawInput {
  in_labels : list RawLabel;                (* input.labels, empty when null *)
  in_ariaLabel : option jsstring;
  in_ariaLabelledBy : option jsstring;
  in_labelledByTarget : option RawLabel     (* document.getElementById(..) *)
}.

Record LabelFacts : Type := mkLabelFacts {
  hasLabel : bool;
  labelVisible : bool;
  labelText : jsstring
}.

Definition isnt (s : jsstring) (v : string) : bool := negb (jseq s (u v)).

(** The loop over [input.labels]: the last shown label wins. *)
Fixpoint scanLabels (labels : list RawLabel) (acc : bool * jsstring)
  : bool * jsstring :=
  match labels with
  | [] => acc
  | label :: rest =>
      scanLabels rest
        (if isnt (l_display label) "none" && isnt (l_visibility label) "hidden"
            && isnt (l_opacity label) "0"
         then (true, trim (l_text label))
         else acc)
  end.

(** The label part of one entry of [formElements]. *)
Definition labelFacts (input : RawInput) : LabelFacts :=
  let (labelVisible, labelText) := scanLabels (in_labels input) (false, []) in
  let ariaLabel := Snapshot.orEmpty (in_ariaLabel input) in
  let ariaLabelledBy := Snapshot.orEmpty (in_ariaLabelledBy input) in
  let (labelVisible, labelText) :=
    match ariaLabel with
    | _ :: _ => (true, ariaLabel)
    | [] =>
        match ariaLabelledBy, in_labelledByTarget input with
        | _ :: _, Some labelEl =>
            if isnt (l_display labelEl) "none"
               && isnt (l_visibility labelEl) "hidden"
            then (true, trim (l_text labelEl))
            else (labelVisible, labelText)
        | _, _ => (labelVisible, labelText)
        end
    end in
  {| hasLabel := (0 <? length (in_labels input))%nat
                 || Audit.truthy ariaLabel || Audit.truthy ariaLabelledBy;
     labelVisible := labelVisible;
     labelText := substring0 50 labelText |}.

(** An interactive element as the probe reads it, with focus on it and
    without. *)
Record RawInteractive : Type := mkRawInteractive {
  ri_title : option jsstring;
  ri_ariaLabel : option jsstring;
  ri_ariaDescribedBy : option jsstring;
  ri_tag : jsstring;
  ri_text : jsstring;
  ri_color : jsstring;
  ri_backgroundColor : jsstring;
  ri_focusOutline : jsstring;
  ri_focusOutlineWidth : jsstring;
  ri_focusColor : jsstring;
  ri_focusBg : jsstring
}.

Record FocusFacts : Type := mkFocusFacts {
  hasVisibleFocus : bool;
  isDistinctFromNormal : bool;
  hasTitle : bool;
  hasAriaLabel : bool
}.

Record HoverOnly : Type := mkHoverOnly {
  ho_element : jsstring;
  ho_text : jsstring;
  ho_tooltip : jsstring
}.

Definition focusFacts (el : RawInteractive) : FocusFacts :=
  {| hasVisibleFocus := isnt (ri_focusOutline el) "none"
                        && isnt (ri_focusOutlineWidth el) "0px";
     isDistinctFromNormal := negb (jseq (ri_focusColor el) (ri_color el))
                             || negb (jseq (ri_focusBg el) (ri_backgroundColor el))
                             || isnt (ri_focusOutline el) "none";
     hasTitle := Audit.truthy (Snapshot.orEmpty (ri_title el));
     hasAriaLabel := Audit.truthy (Snapshot.orEmpty (ri_ariaLabel el)) |}.

(** [title && !ariaLabel && !el.getAttribute('aria-describedby')] *)
Definition isHoverOnly (el : RawInteractive) : bool :=
  Audit.truthy (Snapshot.orEmpty (ri_title el))
  && negb (Audit.truthy (Snapshot.orEmpty (ri_ariaLabel el)))
  && negb (Audit.truthy (Snapshot.orEmpty (ri_ariaDescribedBy el))).

(** The two lists the loop over the first 25 interactive elements fills. *)
Definition interactiveStates (els : list RawInteractive)
  : list FocusFacts * list HoverOnly :=
  let first := firstn 25 els in
  (map focusFacts first,
   map (fun el => {| ho_element := ri_tag el;
                     ho_text := substring0 40 (trim (ri_text el));
                     ho_tooltip := Snapshot.orEmpty (ri_title el) |})
       (filter isHoverOnly first)).

(** [checkIfRelativeUnit(value)] on the text of a computed style;
    [toLowerCase] is the engine's. *)
Definition checkIfRelativeUnit (toLowerCase : jsstring -> jsstring)
    (value : jsstring) : bool :=
  match value with
  | [] => false
  | _ :: _ =>
      let str := toLowerCase value in
      includes str (u "em") || includes str (u "rem")
      || jseq str (u "normal") || jseq str (u "inherit")
  end.

(** The units of a length written in figures. *)
Definition isFigure (c : N) : bool :=
  ((48 <=? c) && (c <=? 57) || (c =? 46) || (c =? 45))%N.

End Probe.


(* ================================================================== *)
(** * Shapes of text *)

Module Text.

(** Every white-space unit of [s] is U+0020 and is not followed by another
    white-space unit. *)
Fixpoint singleSpaced (s : jsstring) : bool :=
  match s with
  | [] => true
  | a :: rest =>
      (if isSpace a
       then N.eqb a 32
            && match rest with
               | b :: _ => negb (isSpace b)
               | [] => true
               end
       else true)
      && singleSpaced rest
  end.

End Text.

(* ================================================================== *)
(** * Sample requests *)

Module Runs.

Import Audit Handler.

(** The text of a [TypeError], in the shape the engine gives it: for the
    entries taken of a missing [items], and for a property read from a
    missing value. *)
Definition typeErrorMessage (what : jsstring) : jsstring :=
  if jseq what (u "items")
  then u "Cannot convert undefined or null to object"
  else u "Cannot read properties of undefined (reading '" ++ what ++ u "')".

(** [toUpperCase] on the letters a to z. *)
Definition toUpperCase (s : jsstring) : jsstring :=
  map (fun c => if ((97 <=? c) && (c <=? 122))%N then (c - 32)%N else c) s.

Definition renderContent (url : jsstring) (websiteContent : Snapshot.Snapshot)
    (psiData : option Psi.Result) : jsstring :=
  u "Audit of " ++ url ++ newline.

Definition outputContract : jsstring := u "Respond with JSON only.".

(** A backend that refuses every call with status 429. *)
Definition throttled (prompt m : jsstring) : Outcome GenerateContentResult :=
  Throws {| message := u "Too Many Requests"; status := Some 429%N |}.

(** A backend that answers every call, with a result whose [text()]
    throws an error that carries status 429. *)
Definition blocked (prompt m : jsstring) : Outcome GenerateContentResult :=
  Returns {| text := Throws {| message := u "Resource has been exhausted";
                               status := Some 429%N |};
             promptTokenCount := None;
             candidatesTokenCount := None |}.

(** A backend that answers every call with the empty report. *)
Definition obliging (prompt m : jsstring) : Outcome GenerateContentResult :=
  Returns Samples.emptyReport.

(** No key for the external metrics. *)
Definition noMetrics : Psi.Env :=
  {| Psi.psiApiKey := None;
     Psi.mobileResponse := Throws (new_Error (u "fetch failed"));
     Psi.desktopResponse := Throws (new_Error (u "fetch failed"));
     Psi.psi_now := u "2025-01-01T00:00:00.000Z" |}.

Definition metaItem : Item :=
  {| label := u "Meta description"; checked := true; prompt := None |}.

Definition altItem : Item :=
  {| label := u "Alt texts"; checked := false;
     prompt := Some (u "Ignore decorative images") |}.

Definition seo : Category :=
  {| cat_title := Some (u "seo");
     items := Some [(u "meta", metaItem); (u "alt", altItem)] |}.

Definition plain : Request :=
  {| req_url := Some (u "https://example.com");
     req_auditOptions := Some [(u "seo", seo)];
     req_model := None |}.

(** The same request with a category that has no [items]. *)
Definition malformed : Request :=
  {| req_url := Some (u "https://example.com");
     req_auditOptions :=
       Some [(u "seo", seo);
             (u "ux", {| cat_title := Some (u "ux"); items := None |})];
     req_model := None |}.

(** A request with a checked item in a category without a title. *)
Definition untitled : Request :=
  {| req_url := Some (u "https://example.com");
     req_auditOptions :=
       Some [(u "seo", {| cat_title := None;
                          items := Some [(u "meta", metaItem)] |})];
     req_model := None |}.

(** A request without a URL. *)
Definition noUrl : Request :=
  {| req_url := None; req_auditOptions := None; req_model := None |}.

(** A report of the external metrics with one of the five metrics, one
    audit whose name starts with accessibility and one whose name does
    not, and an accessibility score of zero. *)
Definition lcp : Psi.Audit :=
  {| Psi.audit_id := Some (u "largest-contentful-paint");
     Psi.audit_title := Some (u "Largest Contentful Paint");
     Psi.audit_description := None;
     Psi.audit_score := Some (9 # 10)%Q;
     Psi.audit_displayValue := Some (u "1.2 s");
     Psi.audit_numericValue := Some (1200 # 1)%Q;
     Psi.audit_details := None |}.

Definition tree : Psi.Audit :=
  {| Psi.audit_id := Some (u "accessibility-tree");
     Psi.audit_title := Some (u "Accessibility tree");
     Psi.audit_description := None;
     Psi.audit_score := None;
     Psi.audit_displayValue := None;
     Psi.audit_numericValue := None;
     Psi.audit_details := None |}.

Definition contrast : Psi.Audit :=
  {| Psi.audit_id := Some (u "color-contrast");
     Psi.audit_title := Some (u "Contrast");
     Psi.audit_description := None;
     Psi.audit_score := Some 0%Q;
     Psi.audit_displayValue := None;
     Psi.audit_numericValue := None;
     Psi.audit_details := None |}.

Definition report : Psi.Body :=
  {| Psi.lighthouseResult :=
       Some {| Psi.audits :=
                 Some [(u "color-contrast", contrast);
                       (u "largest-contentful-paint", lcp);
                       (u "accessibility-tree", tree)];
               Psi.categories :=
                 Some {| Psi.cat_performance := Some (9 # 10)%Q;
                         Psi.cat_accessibility := Some 0%Q;
                         Psi.cat_bestPractices := None;
                         Psi.cat_seo := None |};
               Psi.finalUrl := Some (u "https://example.com/");
               Psi.userAgent := None;
               Psi.config_viewport := None;
               Psi.config_emulatedFormFactor := Some (u "desktop") |} |}.

(** The request for the mobile strategy fails; the desktop one is
    answered with the report. *)
Definition desktopOnly : Psi.Env :=
  {| Psi.psiApiKey := Some (u "key");
     Psi.mobileResponse := Throws (new_Error (u "fetch failed"));
     Psi.desktopResponse :=
       Returns {| Psi.psi_ok := true; Psi.psi_json := Returns (Some report) |};
     Psi.psi_now := u "2025-01-01T00:00:00.000Z" |}.

(** The handler on the sample engine, for a backend and a run of the
    capture. *)
Definition audit (generateContent : jsstring -> jsstring -> Outcome GenerateContentResult)
    (env : Snapshot.Env) (req : Request) : Reply :=
  Handler.audit typeErrorMessage toUpperCase renderContent outputContract
    Qplus Qmult Samples.noDom Samples.parse generateContent env noMetrics true req.

End Runs.

(* ================================================================== *)
(** * Facts about strings and patterns *)

Lemma jseq_true (a b : jsstring) : jseq a b = true <-> a = b.
Proof. unfold jseq. destruct (list_eq_dec N.eq_dec a b); split; congruence. Qed.

Lemma jseq_refl (a : jsstring) : jseq a a = true.
Proof. apply jseq_true. reflexivity. Qed.

Lemma jseq_false (a b : jsstring) : jseq a b = false <-> a <> b.
Proof. unfold jseq. destruct (list_eq_dec N.eq_dec a b); split; congruence. Qed.

Module RegexFacts.

Import Regex.

(** How a starred item unfolds. *)
Lemma exec_many (a : atom) (r : regex) (s : jsstring) :
  exec_here (Many a :: r) s =
  let stop :=
    match exec_here r s with
    | Some (ch, rest) => Some ([] :: ch, rest)
    | None => None
    end in
  match s with
  | c :: s' =>
      if accepts a c then
        match exec_here (Many a :: r) s' with
        | Some (m :: ch, rest) => Some ((c :: m) :: ch, rest)
        | _ => stop
        end
      else stop
  | [] => stop
  end.
Proof. destruct s; reflexivity. Qed.

Lemma accepts_any (c : N) : accepts any c = true.
Proof. simpl. apply orb_negb_r. Qed.

(** Counting a one-unit pattern counts the occurrences of the unit. *)
Lemma matchCount_lit (c : N) (s : jsstring) :
  matchCount [One (Lit c)] s = Spec.occurrences c s.
Proof.
  unfold matchCount, Spec.occurrences.
  induction s as [|x s IH]; simpl; [reflexivity|].
  destruct (N.eqb_spec x c) as [->|Hne]; simpl.
  - destruct (N.eq_dec c c); [|congruence]. now rewrite IH.
  - destruct (N.eq_dec x c); [congruence|]. exact IH.
Qed.

(** A greedy [any*] before a literal stops at the last occurrence. *)
Lemma exec_any_then_lit (c : N) (s : jsstring) :
  exec_here [Many any; One (Lit c)] s =
  match Spec.split_last c s with
  | Some (before, after) => Some ([before; [c]], after)
  | None => None
  end.
Proof.
  induction s as [|x s IH].
  - reflexivity.
  - rewrite exec_many, accepts_any, IH. cbn [Spec.split_last].
    destruct (Spec.split_last c s) as [[before after]|]; [reflexivity|].
    cbn. destruct (N.eqb_spec x c) as [->|]; reflexivity.
Qed.

Lemma exec_braces (x : N) (s : jsstring) :
  exec_here Audit.braces (x :: s) =
  if N.eqb x (cu "{") then
    match Spec.split_last (cu "}") s with
    | Some (inside, after) => Some ([[x]; inside; [cu "}"]], after)
    | None => None
    end
  else None.
Proof.
  unfold Audit.braces.
  change (exec_here (One (Lit (cu "{")) :: [Many any; One (Lit (cu "}"))]) (x :: s))
    with (if accepts (Lit (cu "{")) x
          then match exec_here [Many any; One (Lit (cu "}"))] s with
               | Some (ch, rest) => Some ([x] :: ch, rest)
               | None => None
               end
          else None).
  rewrite exec_any_then_lit. cbn [accepts].
  destruct (N.eqb x (cu "{")); [|reflexivity].
  destruct (Spec.split_last (cu "}") s) as [[inside after]|]; reflexivity.
Qed.

Lemma search_braces_none (s : jsstring) :
  Spec.split_last (cu "}") s = None -> search Audit.braces s = None.
Proof.
  induction s as [|x s IH]; intros H.
  - reflexivity.
  - cbn [Spec.split_last] in H.
    destruct (Spec.split_last (cu "}") s) as [[b a]|] eqn:E; [discriminate|].
    cbn [search]. rewrite exec_braces, E, (IH eq_refl).
    destruct (N.eqb x (cu "{")); reflexivity.
Qed.

(** The brace pattern finds the span from the first opening brace to the
    last closing brace. *)
Lemma extractJson_spec (s : jsstring) :
  Audit.extractJson s = Spec.first_to_last_brace s.
Proof.
  unfold Audit.extractJson, Spec.first_to_last_brace.
  assert (H : match search Audit.braces s with
              | Some (_, ch, _) => Some (concat ch)
              | None => None
              end = Spec.brace_span s).
  { induction s as [|x s IH]; [reflexivity|].
    cbn [search Spec.brace_span]. rewrite exec_braces.
    destruct (N.eqb x (cu "{")).
    - destruct (Spec.split_last (cu "}") s) as [[inside after]|] eqn:E.
      + cbn. rewrite ?app_nil_r. reflexivity.
      + now rewrite (search_braces_none _ E).
    - rewrite <- IH.
      destruct (search Audit.braces s) as [[[pre ch] rest]|]; reflexivity. }
  rewrite <- H.
  destruct (search Audit.braces s) as [[[pre ch] rest]|]; reflexivity.
Qed.

Lemma space_not_comma (c : N) : isSpace c = true -> N.eqb c (cu ",") = false.
Proof. destruct (N.eqb_spec c (cu ",")) as [->|]; [vm_compute|]; congruence. Qed.

Lemma space_not_closer (c : N) : isSpace c = true -> Audit.isCloser c = false.
Proof.
  unfold Audit.isCloser.
  destruct (N.eqb_spec c (cu "}")) as [->|]; [vm_compute; congruence|].
  destruct (N.eqb_spec c (cu "]")) as [->|]; [vm_compute; congruence|].
  reflexivity.
Qed.

Lemma closer_not_comma (c : N) : Audit.isCloser c = true -> N.eqb c (cu ",") = false.
Proof. destruct (N.eqb_spec c (cu ",")) as [->|]; [vm_compute|]; congruence. Qed.

Lemma exec_space_closer (s : jsstring) :
  exec_here [Many space; One (Class Audit.isCloser)] s =
  match Spec.closerSplit s with
  | Some (ws, cl, rest) => Some ([ws; [cl]], rest)
  | None => None
  end.
Proof.
  induction s as [|x s IH]; [reflexivity|].
  rewrite exec_many, IH. cbn [accepts space Spec.closerSplit].
  destruct (isSpace x) eqn:Hx.
  - destruct (Spec.closerSplit s) as [[[ws cl] rest]|]; [reflexivity|].
    cbn. now rewrite (space_not_closer _ Hx).
  - cbn. destruct (Audit.isCloser x); reflexivity.
Qed.

Lemma closerFollows_split (s : jsstring) :
  Spec.closerFollows s =
  match Spec.closerSplit s with Some _ => true | None => false end.
Proof.
  induction s as [|x s IH]; [reflexivity|]. cbn.
  destruct (isSpace x).
  - rewrite IH. destruct (Spec.closerSplit s) as [[[ws cl] rest]|]; reflexivity.
  - destruct (Audit.isCloser x); reflexivity.
Qed.

Lemma closerSplit_app (s ws rest : jsstring) (cl : N) :
  Spec.closerSplit s = Some (ws, cl, rest) ->
  s = ws ++ cl :: rest /\
  Spec.dropTrailingCommas s = ws ++ cl :: Spec.dropTrailingCommas rest.
Proof.
  revert ws. induction s as [|x s IH]; intros ws H; [discriminate|].
  cbn in H. destruct (isSpace x) eqn:Hx.
  - destruct (Spec.closerSplit s) as [[[ws' cl'] rest']|]; [|discriminate].
    injection H as <- <- <-. destruct (IH _ eq_refl) as [-> E].
    split; [reflexivity|].
    cbn [Spec.dropTrailingCommas]. rewrite (space_not_comma _ Hx). cbn.
    now rewrite E.
  - destruct (Audit.isCloser x) eqn:Hc; [|discriminate].
    injection H as <- <- <-. split; [reflexivity|].
    cbn [Spec.dropTrailingCommas]. now rewrite (closer_not_comma _ Hc).
Qed.

Lemma exec_trailing_comma (x : N) (s : jsstring) :
  exec_here Audit.trailing_comma (x :: s) =
  if N.eqb x (cu ",") then
    match Spec.closerSplit s with
    | Some (ws, cl, rest) => Some ([[x]; ws; [cl]], rest)
    | None => None
    end
  else None.
Proof.
  unfold Audit.trailing_comma.
  change (exec_here (One (Lit (cu ",")) :: [Many space; One (Class Audit.isCloser)])
                    (x :: s))
    with (if accepts (Lit (cu ",")) x
          then match exec_here [Many space; One (Class Audit.isCloser)] s with
               | Some (ch, rest) => Some ([x] :: ch, rest)
               | None => None
               end
          else None).
  rewrite exec_space_closer. cbn [accepts].
  destruct (N.eqb x (cu ",")); [|reflexivity].
  destruct (Spec.closerSplit s) as [[[ws cl] rest]|]; reflexivity.
Qed.

Lemma replace_trailing_comma_from (s : jsstring) :
  forall k, replace_from Audit.trailing_comma Audit.group1 k s
            = Spec.dropTrailingCommas (skipn k s).
Proof.
  induction s as [|x s IH]; intros [|k]; try reflexivity.
  - cbn [replace_from skipn]. rewrite exec_trailing_comma.
    cbn [Spec.dropTrailingCommas]. rewrite closerFollows_split.
    destruct (N.eqb x (cu ",")); cbn [andb].
    + destruct (Spec.closerSplit s) as [[[ws cl] rest]|] eqn:E.
      * destruct (closerSplit_app _ E) as [Hs Hd].
        replace (length (concat [[x]; ws; [cl]])) with (S (length (ws ++ [cl])))
          by (cbn [concat length app]; rewrite ?app_nil_r; reflexivity).
        rewrite IH, Hd. subst s.
        replace (skipn (length (ws ++ [cl])) (ws ++ cl :: rest)) with rest.
        -- unfold Audit.group1. cbn [skipn concat app].
           rewrite ?app_nil_r, <- ?app_assoc. reflexivity.
        -- change (cl :: rest) with ([cl] ++ rest).
           rewrite app_assoc, skipn_app, skipn_all, Nat.sub_diag. reflexivity.
      * now rewrite IH.
    + now rewrite IH.
  - cbn [replace_from skipn]. apply IH.
Qed.

(** The comma pattern drops exactly the commas that stand before a
    closer. *)
Lemma replace_trailing_comma (s : jsstring) :
  replaceAll Audit.trailing_comma Audit.group1 s = Spec.dropTrailingCommas s.
Proof. unfold replaceAll. now rewrite replace_trailing_comma_from. Qed.

(** The handler's repair is the two steps of the specification. *)
Lemma repair_spec (s : jsstring) :
  Audit.repair s = Spec.balance (Spec.dropTrailingCommas s).
Proof.
  unfold Audit.repair, Spec.balance, Audit.countOf.
  rewrite !matchCount_lit, replace_trailing_comma.
  set (t := Spec.dropTrailingCommas s).
  destruct (Nat.ltb_spec (Spec.occurrences (cu "]") t) (Spec.occurrences (cu "[") t)) as [H1|H1];
    destruct (Nat.ltb_spec (Spec.occurrences (cu "}") t) (Spec.occurrences (cu "{") t)) as [H2|H2].
  - now rewrite <- app_assoc.
  - replace (Spec.occurrences (cu "{") t - Spec.occurrences (cu "}") t)%nat with 0%nat by lia.
    cbn. now rewrite app_nil_r.
  - replace (Spec.occurrences (cu "[") t - Spec.occurrences (cu "]") t)%nat with 0%nat by lia.
    reflexivity.
  - replace (Spec.occurrences (cu "{") t - Spec.occurrences (cu "}") t)%nat with 0%nat by lia.
    replace (Spec.occurrences (cu "[") t - Spec.occurrences (cu "]") t)%nat with 0%nat by lia.
    cbn. now rewrite app_nil_r.
Qed.

Lemma leadingSpace_trimStart (s : jsstring) :
  s = Spec.leadingSpace s ++ trimStart s.
Proof.
  induction s as [|c s IH]; [reflexivity|]. cbn.
  destruct (isSpace c); [cbn; now f_equal|reflexivity].
Qed.

(** A greedy run of white space at the end of a pattern takes all the
    white space there is. *)
Lemma exec_space_end (s : jsstring) :
  exec_here [Many space] s = Some ([Spec.leadingSpace s], trimStart s).
Proof.
  induction s as [|c s IH]; [reflexivity|].
  rewrite exec_many, IH. cbn [accepts space Spec.leadingSpace trimStart].
  destruct (isSpace c); reflexivity.
Qed.

Lemma exec_marker (marker s : jsstring) :
  exec_here (lits marker ++ [Many space]) s =
  if startsWith s marker then
    Some (map (fun c => [c]) marker
            ++ [Spec.leadingSpace (skipn (length marker) s)],
          trimStart (skipn (length marker) s))
  else None.
Proof.
  revert s. induction marker as [|d marker IH]; intros s.
  - cbn [lits map app length skipn]. rewrite exec_space_end.
    destruct s; reflexivity.
  - cbn [lits map app length]. destruct s as [|c s]; [reflexivity|].
    cbn [exec_here accepts startsWith skipn].
    destruct (N.eqb c d) eqn:E; [|reflexivity].
    apply N.eqb_eq in E. subst d.
    change (map (fun c0 => One (Lit c0)) marker) with (lits marker).
    rewrite IH. cbn [andb]. destruct (startsWith s marker); reflexivity.
Qed.

Lemma startsWith_skipn (s marker : jsstring) :
  startsWith s marker = true -> s = marker ++ skipn (length marker) s.
Proof.
  revert s. induction marker as [|d marker IH]; intros s H; [reflexivity|].
  destruct s as [|c s]; [discriminate|]. cbn in H.
  apply andb_true_iff in H. destruct H as [E H]. apply N.eqb_eq in E. subst d.
  cbn. f_equal. now apply IH.
Qed.

Lemma concat_singletons (m : jsstring) (tail : list jsstring) :
  concat (map (fun c => [c]) m ++ tail) = m ++ concat tail.
Proof. induction m as [|c m IH]; [reflexivity|]. cbn. now rewrite IH. Qed.

Lemma replace_marker_from (marker : jsstring) (s : jsstring) :
  marker <> [] ->
  forall k,
    Spec.Stripped marker (skipn k s)
      (replace_from (lits marker ++ [Many space]) Audit.nothing k s).
Proof.
  intros Hne. induction s as [|x s IH]; intros k.
  - destruct k; cbn [skipn replace_from]; [|constructor].
    rewrite exec_marker. destruct marker; [congruence|]. constructor.
  - destruct k as [|k]; [|cbn [skipn replace_from]; apply IH].
    cbn [skipn replace_from]. rewrite exec_marker.
    destruct (startsWith (x :: s) marker) eqn:E.
    + rewrite concat_singletons. cbn [concat]. rewrite app_nil_r.
      pose proof (startsWith_skipn _ _ E) as Hs.
      set (rest := skipn (length marker) (x :: s)) in *.
      assert (Hlen : length (marker ++ Spec.leadingSpace rest)
                     = S (length (marker ++ Spec.leadingSpace rest) - 1)).
      { destruct marker; [congruence|]. cbn. lia. }
      rewrite Hlen. unfold Audit.nothing at 1. cbn [app].
      rewrite Hs at 1. apply Spec.stripped_marker.
      replace (trimStart rest)
        with (skipn (length (marker ++ Spec.leadingSpace rest) - 1) s);
        [apply IH|].
      assert (Hx : x :: s = (marker ++ Spec.leadingSpace rest) ++ trimStart rest).
      { rewrite <- app_assoc, <- leadingSpace_trimStart. exact Hs. }
      change (skipn (length (marker ++ Spec.leadingSpace rest) - 1) s)
        with (skipn (S (length (marker ++ Spec.leadingSpace rest) - 1)) (x :: s)).
      rewrite <- Hlen, Hx at 1.
      rewrite skipn_app, skipn_all, Nat.sub_diag. reflexivity.
    + apply Spec.stripped_keep; [exact E|apply (IH 0%nat)].
Qed.

(** Each of the two fence patterns removes its marker, wherever it stands,
    together with the white space after it. *)
Lemma stripFences_spec (s : jsstring) :
  exists without_json without_fence,
    Spec.Stripped (u "```json") s without_json
    /\ Spec.Stripped (u "```") without_json without_fence
    /\ Audit.stripFences s = trim without_fence.
Proof.
  exists (replaceAll Audit.fence_json Audit.nothing s),
         (replaceAll Audit.fence Audit.nothing
            (replaceAll Audit.fence_json Audit.nothing s)).
  split; [|split; [|reflexivity]].
  - apply (@replace_marker_from (u "```json") s ltac:(discriminate) 0%nat).
  - apply (@replace_marker_from (u "```")
             (replaceAll Audit.fence_json Audit.nothing s)
             ltac:(discriminate) 0%nat).
Qed.

(** A pattern that opens with a literal leaves alone a text without that
    literal. *)
Lemma replace_without_opening (c : N) (r : regex)
    (rep : list jsstring -> jsstring) (s : jsstring) :
  ~ In c s -> replaceAll (One (Lit c) :: r) rep s = s.
Proof.
  unfold replaceAll. induction s as [|x s IH]; intros H; [reflexivity|].
  cbn [replace_from exec_here accepts].
  destruct (N.eqb_spec x c) as [->|_]; [exfalso; apply H; now left|].
  f_equal. apply IH. intros Hin. apply H. now right.
Qed.

(** A response without a backquote is only trimmed by the fence step. *)
Lemma stripFences_without_fence (s : jsstring) :
  ~ In (cu "`") s -> Audit.stripFences s = trim s.
Proof.
  intros H. unfold Audit.stripFences, Audit.fence, Audit.fence_json.
  change (lits (u "```json") ++ [Many space])
    with (One (Lit (cu "`")) :: (lits (u "``json") ++ [Many space])).
  change (lits (u "```") ++ [Many space])
    with (One (Lit (cu "`")) :: (lits (u "``") ++ [Many space])).
  rewrite (@replace_without_opening _ _ _ _ H), (@replace_without_opening _ _ _ _ H).
  reflexivity.
Qed.

End RegexFacts.

(* ================================================================== *)
(** * The model response reconciler *)

Module ReconcilerFacts.

Import Audit.

Lemma startsWith_app (p rest : jsstring) : startsWith (p ++ rest) p = true.
Proof.
  induction p as [|c p IH]; [destruct rest; reflexivity|].
  cbn. now rewrite N.eqb_refl, IH.
Qed.

Lemma includes_prefix (s p : jsstring) :
  startsWith s p = true -> includes s p = true.
Proof. intros H. destruct s; cbn [includes]; now rewrite H. Qed.

Lemma includes_app (a m b : jsstring) : includes (a ++ m ++ b) m = true.
Proof.
  induction a as [|c a IH].
  - cbn [app]. apply includes_prefix, startsWith_app.
  - cbn [app includes]. rewrite IH. apply orb_true_r.
Qed.

(** C5. For every raw response text the handler strips the code fences
    (each fence marker with the white space after it, and the white space
    around the whole), takes the span from the first opening brace to the
    last closing brace, and parses it; if that parse throws it drops the
    commas that stand before a closer, appends the missing closing
    brackets and then the missing closing braces (both counted over the
    whole text), and parses once more; if the second parse throws too, it
    throws an error whose message is the fixed text around the message of
    the first parse error, not of the second.  Nothing else is tried. *)
Theorem reconcile_is_two_attempts
    (JSON_parse : jsstring -> Outcome unit)
    (modelName responseText : jsstring)
    (promptTokenCount candidatesTokenCount : option N) :
  match Spec.reconcile JSON_parse responseText with
  | Spec.Accepted clean =>
      reconcile JSON_parse modelName
        (mkResult responseText promptTokenCount candidatesTokenCount)
      = Returns {| content_text := clean;
                   model := modelName;
                   usage := {| input_tokens := orZero promptTokenCount;
                               output_tokens := orZero candidatesTokenCount |} |}
  | Spec.Fatal original =>
      reconcile JSON_parse modelName
        (mkResult responseText promptTokenCount candidatesTokenCount)
      = Throws
          {| message :=
               u "Invalid JSON response from Gemini. The response may be incomplete or malformed. Error: "
               ++ message original ++ u ". Please try again.";
             status := None |}
  end
  /\ (forall parseError fixError,
         JSON_parse (Spec.first_to_last_brace (stripFences responseText))
         = Throws parseError ->
         JSON_parse
           (Spec.balance
              (Spec.dropTrailingCommas
                 (Spec.first_to_last_brace (stripFences responseText))))
         = Throws fixError ->
         reconcile JSON_parse modelName
           (mkResult responseText promptTokenCount candidatesTokenCount)
         = Throws
             {| message :=
                  u "Invalid JSON response from Gemini. The response may be incomplete or malformed. Error: "
                  ++ message parseError ++ u ". Please try again.";
                status := None |})
  /\ exists without_json without_fence,
      Spec.Stripped (u "```json") responseText without_json
      /\ Spec.Stripped (u "```") without_json without_fence
      /\ stripFences responseText = trim without_fence.
Proof.
  assert (E : reconcile JSON_parse modelName
                (mkResult responseText promptTokenCount candidatesTokenCount)
              = match JSON_parse
                        (Spec.first_to_last_brace (stripFences responseText)) with
                | Returns _ =>
                    Returns
                      {| content_text :=
                           Spec.first_to_last_brace (stripFences responseText);
                         model := modelName;
                         usage := {| input_tokens := orZero promptTokenCount;
                                     output_tokens := orZero candidatesTokenCount |} |}
                | Throws parseError =>
                    match JSON_parse
                            (Spec.balance
                               (Spec.dropTrailingCommas
                                  (Spec.first_to_last_brace
                                     (stripFences responseText)))) with
                    | Returns _ =>
                        Returns
                          {| content_text :=
                               Spec.balance
                                 (Spec.dropTrailingCommas
                                    (Spec.first_to_last_brace
                                       (stripFences responseText)));
                             model := modelName;
                             usage :=
                               {| input_tokens := orZero promptTokenCount;
                                  output_tokens := orZero candidatesTokenCount |} |}
                    | Throws _ =>
                        Throws
                          {| message :=
                               u "Invalid JSON response from Gemini. The response may be incomplete or malformed. Error: "
                               ++ message parseError ++ u ". Please try again.";
                             status := None |}
                    end
                end).
  { unfold reconcile, mkResult. cbn [text].
    rewrite RegexFacts.extractJson_spec.
    destruct (JSON_parse _); [reflexivity|].
    rewrite RegexFacts.repair_spec.
    destruct (JSON_parse _); reflexivity. }
  split; [|split; [|apply RegexFacts.stripFences_spec]].
  - rewrite E. unfold Spec.reconcile.
    destruct (JSON_parse _); [reflexivity|].
    destruct (JSON_parse _); reflexivity.
  - intros parseError fixError H1 H2. now rewrite E, H1, H2.
Qed.

(** What [text()] throws is thrown on as it is. *)
Lemma reconcile_text_throws
    (JSON_parse : jsstring -> Outcome unit)
    (modelName : jsstring) (result : GenerateContentResult) (error : JsError) :
  text result = Throws error ->
  reconcile JSON_parse modelName result = Throws error.
Proof. unfold reconcile. now intros ->. Qed.

(** The parser is asked about two texts and no other: two parsers that
    agree on the extracted span and on its repaired form give the same
    outcome. *)
Lemma reconcile_reads_two_texts
    (parse1 parse2 : jsstring -> Outcome unit)
    (modelName : jsstring) (result : GenerateContentResult)
    (responseText : jsstring) :
  text result = Returns responseText ->
  let clean := extractJson (stripFences responseText) in
  parse1 clean = parse2 clean ->
  parse1 (repair clean) = parse2 (repair clean) ->
  reconcile parse1 modelName result = reconcile parse2 modelName result.
Proof.
  cbn zeta. unfold reconcile. intros -> -> ->. reflexivity.
Qed.

(** When both parses throw, the error names the first parse error. *)
Lemma reconcile_surfaces_first_error
    (JSON_parse : jsstring -> Outcome unit)
    (modelName : jsstring) (result : GenerateContentResult)
    (responseText : jsstring) (parseError fixError : JsError) :
  text result = Returns responseText ->
  let clean := extractJson (stripFences responseText) in
  JSON_parse clean = Throws parseError ->
  JSON_parse (repair clean) = Throws fixError ->
  exists e, reconcile JSON_parse modelName result = Throws e
            /\ includes (message e) (message parseError) = true.
Proof.
  cbn zeta. intros Ht H1 H2. unfold reconcile. rewrite Ht, H1, H2.
  eexists; split; [reflexivity|].
  cbn [message new_Error]. unfold invalidJsonMessage. apply includes_app.
Qed.

(** A response object is built only around a text that the parser
    accepted. *)
Lemma returned_report_parses
    (JSON_parse : jsstring -> Outcome unit)
    (generateContent : jsstring -> Outcome GenerateContentResult)
    (model : jsstring) (response : Response) :
  callGemini JSON_parse generateContent model = Returns response ->
  returned (JSON_parse (content_text response)) = true.
Proof.
  unfold callGemini.
  destruct (result _) as [r|]; [|discriminate].
  unfold reconcile. destruct (text r) as [t|]; [|discriminate].
  destruct (JSON_parse (extractJson (stripFences t))) eqn:E1.
  - intros [= <-]. cbn [content_text respond]. now rewrite E1.
  - destruct (JSON_parse (repair (extractJson (stripFences t)))) eqn:E2;
      [|discriminate].
    intros [= <-]. cbn [content_text respond]. now rewrite E2.
Qed.

(** The fenced report of the specification comes back without its fence. *)
Example fenced_report_round_trip :
  reconcile Samples.parse (u "gemini-2.5-pro")
    (mkResult (u "```json" ++ [10%N] ++ j "{'categories':[]}" ++ [10%N] ++ u "```")
              None None)
  = Returns (respond (j "{'categories':[]}") (u "gemini-2.5-pro")
                     (mkResult [] None None)).
Proof. vm_compute. reflexivity. Qed.

(** A trailing comma and a missing closing brace are repaired. *)
Example repaired_report :
  reconcile Samples.parse (u "gemini-2.5-pro")
    (mkResult (j "{'categories':[{'title':'A','items':[],}]") None None)
  = Returns (respond (j "{'categories':[{'title':'A','items':[]}]}")
                     (u "gemini-2.5-pro") (mkResult [] None None)).
Proof. vm_compute. reflexivity. Qed.

(** The truncated report of the specification: the repair appends both
    brackets before both braces, the result does not parse, and the
    handler throws. *)
Example truncated_report_is_fatal :
  repair (j "{'categories':[{'title':'A','items':[")
  = j "{'categories':[{'title':'A','items':[]]}}"
  /\ returned
       (reconcile Samples.parse (u "gemini-2.5-pro")
          (mkResult (j "{'categories':[{'title':'A','items':[") None None))
     = false.
Proof. split; vm_compute; reflexivity. Qed.

(** The span is greedy: of two objects in one response it takes both, and
    the prose between them. *)
Example greedy_span_takes_both_objects :
  extractJson (j "Here: {'a':1} and {'b':2}. Done")
  = j "{'a':1} and {'b':2}".
Proof. vm_compute. reflexivity. Qed.

(** The balancer counts every bracket and brace of the text, also those
    inside string literals. *)
Lemma counts_are_occurrences (c : N) (s : jsstring) :
  countOf c s = Spec.occurrences c s.
Proof. apply RegexFacts.matchCount_lit. Qed.

(** C10. The four counts of the repair are plain occurrence counts over
    the text, string literals included; and there is a response, a valid
    JSON document cut short whose only missing part is a closing bracket
    and a closing brace, with an opening bracket inside a string value,
    that the repair closes with one bracket too many, so that the second
    parse fails and the handler throws. *)
Theorem bracket_in_string_defeats_repair :
  (forall c s, countOf c s = Spec.occurrences c s)
  /\ (forall s,
         repair s
         = let t := Regex.replaceAll trailing_comma group1 s in
           t ++ repeat (cu "]")
                  (Spec.occurrences (cu "[") t - Spec.occurrences (cu "]") t)
             ++ repeat (cu "}")
                  (Spec.occurrences (cu "{") t - Spec.occurrences (cu "}") t))
  /\ exists cut : jsstring,
      Json.valid (cut ++ u "]}") = true
      /\ includes cut (j "'['") = true
      /\ repair cut = cut ++ u "]]}"
      /\ Json.valid (repair cut) = false
      /\ forall syntaxError modelName usage1 usage2,
          exists e,
            reconcile (JSON_parse syntaxError) modelName
              (mkResult cut usage1 usage2) = Throws e.
Proof.
  split; [exact counts_are_occurrences|].
  split.
  { intros s. cbn zeta. rewrite RegexFacts.repair_spec.
    unfold Spec.balance. now rewrite RegexFacts.replace_trailing_comma. }
  exists (j "{'a':'[','b':[1").
  split; [vm_compute; reflexivity|].
  split; [vm_compute; reflexivity|].
  split; [vm_compute; reflexivity|].
  split; [vm_compute; reflexivity|].
  intros syntaxError modelName usage1 usage2.
  unfold reconcile, JSON_parse, mkResult. cbn [text].
  replace (extractJson (stripFences (j "{'a':'[','b':[1")))
    with (j "{'a':'[','b':[1") by (vm_compute; reflexivity).
  replace (Json.valid (j "{'a':'[','b':[1")) with false by (vm_compute; reflexivity).
  replace (Json.valid (repair (j "{'a':'[','b':[1"))) with false
    by (vm_compute; reflexivity).
  eexists. reflexivity.
Qed.

End ReconcilerFacts.

(* ================================================================== *)
(** * The model ladder *)

Module LadderFacts.

Import Audit.

Lemma last_cons_default {A} (x : A) (l : list A) (d1 d2 : A) :
  last (x :: l) d1 = last (x :: l) d2.
Proof.
  revert x. induction l as [|y l IH]; intros x; [reflexivity|].
  change (last (y :: l) d1 = last (y :: l) d2). apply IH.
Qed.

Section Ladder.

Variable JSON_parse : jsstring -> Outcome unit.
Variable generateContent : jsstring -> Outcome GenerateContentResult.

(** The loop over backends that all throw keeps the error of the last
    one and nothing else. *)
Lemma tryModels_all_failed (models : list jsstring) :
  forall st,
    (forall m, In m models -> returned (generateContent m) = false) ->
    tryModels generateContent models st
    = {| result := result st;
         modelName := modelName st;
         lastError := last (map (fun m => thrown (generateContent m)) models)
                           (lastError st) |}.
Proof.
  induction models as [|m models IH]; intros st H.
  - destruct st; reflexivity.
  - cbn [tryModels].
    assert (Hm : returned (generateContent m) = false) by (apply H; now left).
    destruct (generateContent m) as [r|e] eqn:E; [discriminate|].
    rewrite IH by (intros m' Hin; apply H; now right).
    cbn [result modelName lastError map]. rewrite E. cbn [thrown].
    destruct models as [|m' models']; [reflexivity|].
    cbn [map]. f_equal.
    etransitivity; [apply (last_cons_default _ _ _ (lastError st))|reflexivity].
Qed.

(** The loop stops at the first backend that returns. *)
Lemma tryModels_first_success (pre post : list jsstring) (w : jsstring)
    (r : GenerateContentResult) :
  forall st,
    (forall m, In m pre -> returned (generateContent m) = false) ->
    generateContent w = Returns r ->
    result (tryModels generateContent (pre ++ w :: post) st) = Some r
    /\ modelName (tryModels generateContent (pre ++ w :: post) st) = w.
Proof.
  induction pre as [|m pre IH]; intros st H Hw.
  - cbn. rewrite Hw. split; reflexivity.
  - cbn [app tryModels].
    assert (Hm : returned (generateContent m) = false) by (apply H; now left).
    destruct (generateContent m) as [r'|e]; [discriminate|].
    apply IH; [intros m' Hin; apply H; now right|exact Hw].
Qed.

(** Whatever the loop returns as a result came from the backend it
    names, and every backend before that one threw. *)
Lemma tryModels_winner (models : list jsstring) :
  forall st r,
    result st = None ->
    result (tryModels generateContent models st) = Some r ->
    exists pre post,
      models = pre ++ modelName (tryModels generateContent models st) :: post
      /\ (forall m, In m pre -> returned (generateContent m) = false)
      /\ generateContent (modelName (tryModels generateContent models st))
         = Returns r.
Proof.
  induction models as [|m models IH]; intros st r Hst H.
  - cbn in H. congruence.
  - cbn [tryModels] in *.
    destruct (generateContent m) as [r'|e] eqn:E.
    + cbn in H. injection H as ->. exists [], models. cbn [modelName].
      repeat split; [intros ? []|exact E].
    + destruct (IH {| result := result st; modelName := modelName st;
                       lastError := Some e |} r Hst H)
        as (pre & post & Hm & Hpre & Hw).
      set (st' := {| result := result st; modelName := modelName st;
                    lastError := Some e |}) in *.
      exists (m :: pre), post. split; [cbn; now f_equal|]. split; [|exact Hw].
      intros m' [<-|Hin]; [now rewrite E|now apply Hpre].
Qed.

End Ladder.

Lemma modelsToTry_default (model : jsstring) :
  arrayIncludes defaultModels model = true ->
  modelsToTry model
  = model :: filter (fun m => negb (jseq m model)) defaultModels.
Proof.
  intros H. unfold arrayIncludes, defaultModels in H. cbn [existsb] in H.
  repeat (apply orb_true_iff in H; destruct H as [H|H]);
    try discriminate; apply jseq_true in H; subst model; vm_compute; reflexivity.
Qed.

Lemma modelsToTry_other (model : jsstring) :
  arrayIncludes defaultModels model = false ->
  modelsToTry model = defaultModels.
Proof. intros H. unfold modelsToTry. rewrite H, andb_false_r. reflexivity. Qed.

Lemma modelsToTry_last (model : jsstring) :
  exists init l, modelsToTry model = init ++ [l].
Proof.
  destruct (arrayIncludes defaultModels model) eqn:H.
  - rewrite (modelsToTry_default _ H).
    unfold arrayIncludes, defaultModels in H. cbn [existsb] in H.
    repeat (apply orb_true_iff in H; destruct H as [H|H]);
      try discriminate; apply jseq_true in H; subst model.
    + exists (firstn 3 (modelsToTry (u "gemini-3-pro-preview"))), (u "gemini-2.0-flash").
      vm_compute; reflexivity.
    + exists (firstn 3 (modelsToTry (u "gemini-2.5-pro"))), (u "gemini-2.0-flash").
      vm_compute; reflexivity.
    + exists (firstn 3 (modelsToTry (u "gemini-2.5-flash"))), (u "gemini-2.0-flash").
      vm_compute; reflexivity.
    + exists (firstn 3 (modelsToTry (u "gemini-2.0-flash"))), (u "gemini-2.5-flash").
      vm_compute; reflexivity.
  - rewrite (modelsToTry_other _ H).
    exists (firstn 3 defaultModels), (u "gemini-2.0-flash"). reflexivity.
Qed.

End LadderFacts.

Module LadderClaims.

Import Audit LadderFacts.

Lemma last_map_snoc {A B} (f : A -> B) (init : list A) (x : A) (d : B) (d' : A) :
  last (map f (init ++ [x])) d = f (last (init ++ [x]) d').
Proof. rewrite map_app. cbn [map]. now rewrite !last_last. Qed.

Lemma reconcile_model (JSON_parse : jsstring -> Outcome unit)
    (modelName : jsstring) (r : GenerateContentResult) (resp : Response) :
  reconcile JSON_parse modelName r = Returns resp -> model resp = modelName.
Proof.
  unfold reconcile. destruct (text r); [|discriminate].
  destruct (JSON_parse _); [intros [= <-]; reflexivity|].
  destruct (JSON_parse _); [intros [= <-]; reflexivity|discriminate].
Qed.

(** C3, as the code has it. If every backend of the ladder throws, the
    handler replies once, with status 500, and the details of that reply
    are built from the error of the last backend tried alone; the errors
    of the backends tried before it are not in the reply. *)
Theorem exhausted_ladder_keeps_last_reason
    (JSON_parse : jsstring -> Outcome unit)
    (generateContent : jsstring -> Outcome GenerateContentResult)
    (model : jsstring) :
  startsWith model (u "gemini") = true ->
  (forall m, In m (modelsToTry model) -> returned (generateContent m) = false) ->
  api_audit_step3 JSON_parse generateContent true model
  = ReplyError 500 (u "Failed to generate audit. Please try again.")
      (Some (allFailedMessage
               (thrown (generateContent (last (modelsToTry model) []))))).
Proof.
  intros Hg Hall. unfold api_audit_step3, callGemini. rewrite Hg. cbn [negb].
  rewrite tryModels_all_failed by exact Hall. cbn [result lastError].
  destruct (modelsToTry_last model) as (init & l & ->).
  rewrite (last_map_snoc _ init l None []). reflexivity.
Qed.

Lemma exhausted_ladder_keeps_last_reason_witness :
  api_audit_step3 Samples.parse Samples.allFail true (u "gemini-2.0-flash")
  = ReplyError 500 (u "Failed to generate audit. Please try again.")
      (Some (allFailedMessage
               (thrown (Samples.allFail
                          (last (modelsToTry (u "gemini-2.0-flash")) []))))).
Proof.
  apply (exhausted_ladder_keeps_last_reason
           Samples.parse Samples.allFail (u "gemini-2.0-flash")).
  - reflexivity.
  - intros m _. reflexivity.
Defined.

(** C3 as stated fails: with four backends that all throw, the reply
    names the reason of the last one tried and none of the others. *)
Lemma earlier_failure_reasons_are_lost :
  (forall m, In m (modelsToTry (u "gemini-2.0-flash")) ->
             returned (Samples.allFail m) = false)
  /\ modelsToTry (u "gemini-2.0-flash")
     = [ u "gemini-2.0-flash"; u "gemini-3-pro-preview";
         u "gemini-2.5-pro"; u "gemini-2.5-flash" ]
  /\ exists details,
      api_audit_step3 Samples.parse Samples.allFail true (u "gemini-2.0-flash")
      = ReplyError 500 (u "Failed to generate audit. Please try again.")
          (Some details)
      /\ includes details (u "failed: gemini-2.5-flash") = true
      /\ includes details (u "failed: gemini-2.0-flash") = false
      /\ includes details (u "failed: gemini-3-pro-preview") = false
      /\ includes details (u "failed: gemini-2.5-pro") = false.
Proof.
  split; [intros m _; reflexivity|].
  split; [vm_compute; reflexivity|].
  eexists. split; [vm_compute; reflexivity|].
  repeat split; vm_compute; reflexivity.
Qed.

(** The first backend that returns decides the call. *)
Lemma first_success_decides
    (JSON_parse : jsstring -> Outcome unit)
    (generateContent : jsstring -> Outcome GenerateContentResult)
    (model : jsstring) (pre post : list jsstring) (w : jsstring)
    (r : GenerateContentResult) :
  modelsToTry model = pre ++ w :: post ->
  (forall m, In m pre -> returned (generateContent m) = false) ->
  generateContent w = Returns r ->
  callGemini JSON_parse generateContent model = reconcile JSON_parse w r
  /\ forall response,
      callGemini JSON_parse generateContent model = Returns response ->
      Audit.model response = w.
Proof.
  intros Hm Hpre Hw.
  assert (E : callGemini JSON_parse generateContent model
              = reconcile JSON_parse w r).
  { unfold callGemini. rewrite Hm.
    destruct (@tryModels_first_success generateContent pre post w r
                {| result := None;
                   modelName := orElse model (u "gemini-2.0-flash");
                   lastError := None |} Hpre Hw) as [-> ->].
    reflexivity. }
  split; [exact E|]. intros response. rewrite E. apply reconcile_model.
Qed.

(** C4, as the code has it. A requested backend that is one of the
    defaults is tried first and the other defaults follow in their fixed
    order; any other request leaves the list of defaults as it is.  The
    backends are tried in that order, the first one that returns ends the
    loop, the later ones are not consulted, and a successful reply names
    that backend. *)
Theorem ladder_order_and_winner
    (JSON_parse : jsstring -> Outcome unit)
    (generateContent : jsstring -> Outcome GenerateContentResult)
    (model : jsstring) :
  (arrayIncludes defaultModels model = true ->
   modelsToTry model
   = model :: filter (fun m => negb (jseq m model)) defaultModels)
  /\ (arrayIncludes defaultModels model = false ->
      modelsToTry model = defaultModels)
  /\ (forall pre w post r,
         modelsToTry model = pre ++ w :: post ->
         (forall m, In m pre -> returned (generateContent m) = false) ->
         generateContent w = Returns r ->
         callGemini JSON_parse generateContent model
         = reconcile JSON_parse w r)
  /\ (forall genAI response,
         api_audit_step3 JSON_parse generateContent genAI model
         = ReplyJson response ->
         exists pre post r,
           modelsToTry model = pre ++ Audit.model response :: post
           /\ (forall m, In m pre -> returned (generateContent m) = false)
           /\ generateContent (Audit.model response) = Returns r).
Proof.
  split; [apply modelsToTry_default|].
  split; [apply modelsToTry_other|].
  split.
  - intros pre w post r Hm Hpre Hw.
    exact (proj1 (@first_success_decides JSON_parse generateContent
                    model pre post w r Hm Hpre Hw)).
  - intros genAI response. unfold api_audit_step3.
    destruct (startsWith model (u "gemini")); [|discriminate].
    destruct genAI; cbn [negb]; [|discriminate].
    destruct (callGemini JSON_parse generateContent model) as [resp|e] eqn:E.
    + intros [= ->]. unfold callGemini in E.
      set (st0 := {| result := None;
                     modelName := orElse model (u "gemini-2.0-flash");
                     lastError := None |}) in *.
      destruct (result (tryModels generateContent (modelsToTry model) st0))
        as [r|] eqn:Er; [|discriminate].
      apply reconcile_model in E. rewrite E.
      destruct (@tryModels_winner generateContent (modelsToTry model) st0 r eq_refl Er)
        as (pre & post & H1 & H2 & H3).
      exists pre, post, r. auto.
    + unfold handleError. destruct (status e) as [[|p]|]; try discriminate.
      destruct (Pos.eq_dec p 429) as [->|]; [discriminate|].
      destruct (Pos.eq_dec p 401) as [->|]; [discriminate|].
      intros H. exfalso. revert H.
      repeat (destruct p as [p|p|]; try discriminate).
Qed.

(** A text that parses neither before nor after the repair ends the
    request with status 500; the details name the first parse error. *)
Lemma unparseable_response_is_fatal
    (JSON_parse : jsstring -> Outcome unit)
    (generateContent : jsstring -> Outcome GenerateContentResult)
    (model : jsstring) (pre post : list jsstring) (w : jsstring)
    (r : GenerateContentResult) (responseText : jsstring)
    (parseError fixError : JsError) :
  startsWith model (u "gemini") = true ->
  modelsToTry model = pre ++ w :: post ->
  (forall m, In m pre -> returned (generateContent m) = false) ->
  generateContent w = Returns r ->
  text r = Returns responseText ->
  JSON_parse (extractJson (stripFences responseText)) = Throws parseError ->
  JSON_parse (repair (extractJson (stripFences responseText)))
  = Throws fixError ->
  api_audit_step3 JSON_parse generateContent true model
  = ReplyError 500 (u "Failed to generate audit. Please try again.")
      (Some (invalidJsonMessage parseError)).
Proof.
  intros Hg Hm Hpre Hw Ht H1 H2. unfold api_audit_step3. rewrite Hg. cbn [negb].
  destruct (@first_success_decides JSON_parse generateContent
              model pre post w r Hm Hpre Hw) as [-> _].
  unfold reconcile. rewrite Ht, H1, H2. reflexivity.
Qed.

Lemma ladder_order_and_winner_witness :
  modelsToTry (u "gemini-2.5-flash")
  = [ u "gemini-2.5-flash"; u "gemini-3-pro-preview";
      u "gemini-2.5-pro"; u "gemini-2.0-flash" ]
  /\ modelsToTry (u "gemini-pro") = defaultModels
  /\ callGemini Samples.parse Samples.flashFails (u "gemini-2.5-flash")
     = reconcile Samples.parse (u "gemini-3-pro-preview") Samples.emptyReport
  /\ exists pre post r,
      modelsToTry (u "gemini-2.5-flash")
      = pre ++ u "gemini-3-pro-preview" :: post
      /\ (forall m, In m pre -> returned (Samples.flashFails m) = false)
      /\ Samples.flashFails (u "gemini-3-pro-preview") = Returns r.
Proof.
  destruct (ladder_order_and_winner Samples.parse Samples.flashFails
              (u "gemini-2.5-flash")) as (Hin & _ & Hfirst & Hreply).
  destruct (ladder_order_and_winner Samples.parse Samples.flashFails
              (u "gemini-pro")) as (_ & Hout & _ & _).
  split; [rewrite Hin; reflexivity|].
  split; [apply Hout; reflexivity|].
  split.
  - apply (Hfirst [u "gemini-2.5-flash"] (u "gemini-3-pro-preview")
             [u "gemini-2.5-pro"; u "gemini-2.0-flash"] Samples.emptyReport).
    + rewrite Hin; reflexivity.
    + intros m [<-|[]]. reflexivity.
    + reflexivity.
  - apply (Hreply true
             (respond (j "{'categories':[]}") (u "gemini-3-pro-preview")
                      Samples.emptyReport)).
    vm_compute. reflexivity.
Defined.

(** C4 as stated fails: a request for [gemini-pro] passes the
    prefix test of the handler, yet the ladder is the list of defaults,
    which does not start with the requested backend and does not contain
    it; when every backend answers, the report names the first default. *)
Lemma requested_backend_outside_defaults_is_not_tried :
  startsWith (u "gemini-pro") (u "gemini") = true
  /\ modelsToTry (u "gemini-pro")
     = [ u "gemini-3-pro-preview"; u "gemini-2.5-pro";
         u "gemini-2.5-flash"; u "gemini-2.0-flash" ]
  /\ hd_error (modelsToTry (u "gemini-pro")) <> Some (u "gemini-pro")
  /\ arrayIncludes (modelsToTry (u "gemini-pro")) (u "gemini-pro")
     = false
  /\ api_audit_step3 Samples.parse (fun _ => Returns Samples.emptyReport)
       true (u "gemini-pro")
     = ReplyJson (respond (j "{'categories':[]}") (u "gemini-3-pro-preview")
                          Samples.emptyReport).
Proof.
  split; [reflexivity|]. split; [reflexivity|].
  split; [vm_compute; discriminate|].
  split; [reflexivity|vm_compute; reflexivity].
Qed.

End LadderClaims.

(* ================================================================== *)
(** * The probes *)

Module ProbeFacts.

Import Snapshot.

(** C2. The reflow verdict is true exactly when the body is no wider
    than the viewport at 320px or the scrollbar has zero width, and false
    exactly when the body is wider than the viewport and the scrollbar
    has a width other than zero: the overflow that a zero-width scrollbar
    excuses is the only overflow that passes. *)
Theorem reflow_verdict (p : ReflowPage) :
  (meetsReflowRequirement (reflowEvaluate p) = true
   <-> (r_scrollWidth p <= r_innerWidth p
        \/ r_innerWidth p - r_clientWidth p = 0)%Z)
  /\ (meetsReflowRequirement (reflowEvaluate p) = false
      <-> (r_innerWidth p < r_scrollWidth p
           /\ r_innerWidth p - r_clientWidth p <> 0)%Z)
  /\ hasHorizontalScroll (reflowEvaluate p)
     = (r_innerWidth p <? r_scrollWidth p)%Z
  /\ scrollbarWidth (reflowEvaluate p) = (r_innerWidth p - r_clientWidth p)%Z.
Proof.
  unfold reflowEvaluate. cbn.
  destruct (Z.ltb_spec (r_innerWidth p) (r_scrollWidth p));
    destruct (Z.eqb_spec (r_innerWidth p - r_clientWidth p) 0);
    cbn; repeat split; intros; try discriminate; try lia; auto.
Qed.

(** The zoom probe reports a passing verdict whatever it measured. *)
Lemma zoomEvaluate_passes (p : ZoomPage) :
  meetsZoomRequirement (zoomEvaluate p) = true.
Proof. reflexivity. Qed.

Lemma Qle_bool_false (a b : Q) : Qle_bool a b = false <-> (b < a)%Q.
Proof.
  split; intros H.
  - apply Qnot_le_lt. intros Hle. apply Qle_bool_iff in Hle. congruence.
  - destruct (Qle_bool a b) eqn:E; [|reflexivity].
    apply Qle_bool_iff in E. exfalso. exact (Qlt_not_le _ _ H E).
Qed.

(** C8. On the mobile page the effective box of a target is its rounded
    size plus its paddings, and the target passes exactly when the
    effective width and height are both at least 44, so an effective box
    of exactly 44 by 44 passes and a target fails exactly when one of the
    two is under 44.  On the desktop page the effective box is the size
    of the bounding rectangle plus the paddings of the two sides, added as
    the engine adds doubles, and the target passes exactly when both sums
    are at least 24; where those additions are exact, a target passes
    exactly when width plus horizontal paddings and height plus vertical
    paddings are both at least 24, so exactly 24 by 24 passes and a target
    fails exactly when one of the two is under 24. *)
Theorem target_size_boundaries (fadd : Q -> Q -> Q) :
  (forall el : MobileElement,
      let t := touchTargetOf el in
      (meetsWCAG t = true
       <-> (44 <= fst (effectiveSize t) /\ 44 <= snd (effectiveSize t))%Z)
      /\ (meetsWCAG t = false
          <-> (fst (effectiveSize t) < 44 \/ snd (effectiveSize t) < 44)%Z)
      /\ (effectiveSize t = (44, 44)%Z -> meetsWCAG t = true)
      /\ effectiveSize t
         = (Math_round (rect_width (m_rect el))
            + orZ (m_paddingLeft el) 0 + orZ (m_paddingRight el) 0,
            Math_round (rect_height (m_rect el))
            + orZ (m_paddingTop el) 0 + orZ (m_paddingBottom el) 0)%Z)
  /\ (forall el : DesktopElement,
         let t := targetSizeOf fadd el in
         let w := fadd (fadd (rect_width (d_rect el))
                             (orQ (d_paddingLeft el) 0))
                       (orQ (d_paddingRight el) 0) in
         let h := fadd (fadd (rect_height (d_rect el))
                             (orQ (d_paddingTop el) 0))
                       (orQ (d_paddingBottom el) 0) in
         (meets24x24 t = true <-> (24 <= w /\ 24 <= h)%Q)
         /\ (meets24x24 t = false <-> (w < 24 \/ h < 24)%Q)
         /\ ts_effectiveWidth t = Math_round w
         /\ ts_effectiveHeight t = Math_round h
         /\ ts_width t = Math_round (rect_width (d_rect el))
         /\ ts_height t = Math_round (rect_height (d_rect el)))
  /\ (forall el : DesktopElement,
         let t := targetSizeOf fadd el in
         let width := (rect_width (d_rect el) + orQ (d_paddingLeft el) 0
                       + orQ (d_paddingRight el) 0)%Q in
         let height := (rect_height (d_rect el) + orQ (d_paddingTop el) 0
                        + orQ (d_paddingBottom el) 0)%Q in
         (fadd (fadd (rect_width (d_rect el)) (orQ (d_paddingLeft el) 0))
               (orQ (d_paddingRight el) 0) == width)%Q ->
         (fadd (fadd (rect_height (d_rect el)) (orQ (d_paddingTop el) 0))
               (orQ (d_paddingBottom el) 0) == height)%Q ->
         (meets24x24 t = true <-> (24 <= width /\ 24 <= height)%Q)
         /\ (meets24x24 t = false <-> (width < 24 \/ height < 24)%Q)
         /\ ((width == 24)%Q -> (height == 24)%Q -> meets24x24 t = true)).
Proof.
  assert (Hdesktop :
            forall el : DesktopElement,
              let t := targetSizeOf fadd el in
              let w := fadd (fadd (rect_width (d_rect el))
                                  (orQ (d_paddingLeft el) 0))
                            (orQ (d_paddingRight el) 0) in
              let h := fadd (fadd (rect_height (d_rect el))
                                  (orQ (d_paddingTop el) 0))
                            (orQ (d_paddingBottom el) 0) in
              (meets24x24 t = true <-> (24 <= w /\ 24 <= h)%Q)
              /\ (meets24x24 t = false <-> (w < 24 \/ h < 24)%Q)).
  { intros el t w h. unfold t, targetSizeOf. cbn [meets24x24].
    unfold effectiveWidth, effectiveHeight. fold w. fold h. split.
    - rewrite andb_true_iff, !Qle_bool_iff. reflexivity.
    - rewrite andb_false_iff, !Qle_bool_false. reflexivity. }
  split; [|split].
  - intros el t. unfold t, touchTargetOf. cbn [meetsWCAG effectiveSize fst snd].
    set (w := (width _ + _ + _)%Z). set (h := (height _ + _ + _)%Z).
    split; [|split; [|split]].
    + rewrite andb_true_iff, !Z.leb_le. reflexivity.
    + rewrite andb_false_iff, !Z.leb_gt. reflexivity.
    + intros [= -> ->]. reflexivity.
    + reflexivity.
  - intros el t w h. destruct (Hdesktop el) as [H1 H2].
    split; [exact H1|]. split; [exact H2|].
    repeat split.
  - intros el t width height Hw Hh. destruct (Hdesktop el) as [H1 H2].
    fold t in H1, H2. split; [|split].
    + rewrite H1, Hw, Hh. reflexivity.
    + rewrite H2, Hw, Hh. reflexivity.
    + intros Ew Eh. apply H1. rewrite Hw, Hh, Ew, Eh.
      split; apply Qle_refl.
Qed.

Lemma target_size_boundaries_witness :
  meetsWCAG (touchTargetOf (Samples.mobileEl 44 44 None)) = true
  /\ meetsWCAG (touchTargetOf (Samples.mobileEl 40 40 (Some 2%Z))) = true
  /\ meets24x24 (targetSizeOf Qplus (Samples.desktopEl 24 24 None)) = true
  /\ meets24x24 (targetSizeOf Qplus (Samples.desktopEl 20 20 (Some 2%Q))) = true
  /\ meets24x24 (targetSizeOf Qplus (Samples.desktopEl 20 20 (Some (3 # 2)%Q)))
     = false.
Proof.
  destruct (target_size_boundaries Qplus) as (Hm & _ & Hd).
  split; [|split; [|split; [|split]]].
  - apply (Hm (Samples.mobileEl 44 44 None)). reflexivity.
  - apply (Hm (Samples.mobileEl 40 40 (Some 2%Z))). reflexivity.
  - apply (Hd (Samples.desktopEl 24 24 None)); reflexivity.
  - apply (Hd (Samples.desktopEl 20 20 (Some 2%Q))); reflexivity.
  - apply (Hd (Samples.desktopEl 20 20 (Some (3 # 2)%Q)));
      [reflexivity|reflexivity|left; reflexivity].
Defined.

(** Just under the thresholds the verdicts are negative. *)
Example under_the_thresholds :
  meetsWCAG (touchTargetOf (Samples.mobileEl 43 44 None)) = false
  /\ meetsWCAG (touchTargetOf (Samples.mobileEl 44 43 None)) = false
  /\ meets24x24 (targetSizeOf Qplus (Samples.desktopEl (47 # 2) 24 None)) = false
  /\ meets24x24 (targetSizeOf Qplus (Samples.desktopEl 24 (239 # 10) None)) = false.
Proof. repeat split; reflexivity. Qed.

End ProbeFacts.

(* ================================================================== *)
(** * The capture *)

Module CaptureFacts.

Import Snapshot.

Section Engine.

Variable fadd : Q -> Q -> Q.
Variable cheerio_load : jsstring -> RawDom.
Variable env : Env.

(** The rendering path, call by call. *)
Lemma renderPath_run (url : jsstring) :
  renderPath fadd cheerio_load env url start =
  match launch env with
  | Throws e => (Throws e, start)
  | Returns _ =>
      match desktopStage fadd cheerio_load env with
      | Throws e => (Throws e, running)
      | Returns d =>
          match close env with
          | Throws e => (Throws e, running)
          | Returns _ =>
              (Returns (renderedSnapshot env url d (mobileStage cheerio_load env)),
               closed)
          end
      end
  end.
Proof.
  unfold renderPath, bind, do_launch, call, do_close, clear_browser, ret.
  destruct (launch env); [|reflexivity].
  destruct (desktopStage fadd cheerio_load env); [|reflexivity].
  destruct (close env); reflexivity.
Qed.

Lemma capture_run (url : jsstring) :
  capture fadd cheerio_load env url =
  if puppeteer env then
    match renderPath fadd cheerio_load env url start with
    | (Returns s, w) => (Returns s, w)
    | (Throws _, w) =>
        (fetchWebsiteSimple cheerio_load env url, afterFailure env w)
    end
  else (fetchWebsiteSimple cheerio_load env url, start).
Proof.
  unfold capture, fetchWebsiteContent.
  destruct (puppeteer env); [|reflexivity].
  unfold try_catch at 1.
  destruct (renderPath fadd cheerio_load env url start) as [[s|e] [pr br]];
    [reflexivity|].
  unfold bind, get_browser, afterFailure, try_catch, do_close, ret, call.
  cbn [browser]. destruct br; [|reflexivity].
  destruct (close_in_catch env); reflexivity.
Qed.

(** The lightweight fetcher, case by case. *)
Lemma fetchWebsiteSimple_run (url : jsstring) :
  fetchWebsiteSimple cheerio_load env url =
  match fetch env with
  | Throws cause => Throws (wrapped cause)
  | Returns response =>
      if ok response then
        match body response with
        | Throws cause => Throws (wrapped cause)
        | Returns html =>
            Returns
              {| url := url;
                 html := substring0 (N.to_nat 200000) html;
                 structuredData := structuredDataOf [] (cheerio_load html);
                 cssAnalysis := Absent;
                 reflowTest := Absent;
                 zoomTest := Absent;
                 mobileData := Null;
                 fetchedAt := now env |}
        end
      else Throws (wrapped (new_Error (httpErrorMessage response)))
  end.
Proof.
  unfold fetchWebsiteSimple, tryO, bindO, wrapped.
  destruct (fetch env) as [response|cause]; [|reflexivity].
  destruct (ok response); cbn [negb]; [|reflexivity].
  destruct (body response); reflexivity.
Qed.

(** What the desktop stage hands on: each optional result is the whole
    result of its probe or [null]. *)
Lemma desktopStage_fields (d : Desktop) :
  desktopStage fadd cheerio_load env = Returns d ->
  (exists html title,
      page_content env = Returns html /\ page_title env = Returns title
      /\ dk_html d = html
      /\ dk_structuredData d = structuredDataOf title (cheerio_load html))
  /\ (dk_cssAnalysis d = Null
      \/ exists p, css_page env = Returns p
                   /\ dk_cssAnalysis d = Val (cssEvaluate fadd p))
  /\ (dk_reflowTest d = Null
      \/ exists p, reflow_page env = Returns p
                   /\ dk_reflowTest d = Val (reflowEvaluate p))
  /\ (dk_zoomTest d = Null
      \/ exists p, zoom_page env = Returns p
                   /\ dk_zoomTest d = Val (zoomEvaluate p)).
Proof.
  unfold desktopStage, bindO, tryO.
  destruct (newPage env); [|discriminate].
  destruct (setUserAgent env); [|discriminate].
  destruct (setViewport env); [|discriminate].
  assert (Hnav : match goto_networkidle0 env with
                 | Returns a => Returns a
                 | Throws _ =>
                     match goto_domcontentloaded env with
                     | Returns a => Returns a
                     | Throws _ => Returns tt
                     end
                 end = Returns tt).
  { destruct (goto_networkidle0 env) as [[]|];
      [|destruct (goto_domcontentloaded env) as [[]|]]; reflexivity. }
  rewrite Hnav. clear Hnav.
  destruct (scroll env); [|discriminate].
  destruct (page_content env) as [html|]; [|discriminate].
  destruct (page_title env) as [title|]; [|discriminate].
  destruct (css_page env) as [pc|];
    (destruct (reflow_setViewport env);
     [destruct (reflow_page env) as [pr|]|]);
    (destruct (zoom_setViewport env);
     [destruct (zoom_page env) as [pz|]|]);
    (destruct (reset_setViewport env); [|discriminate]);
    intros [= <-]; cbn;
    (split; [exists html, title; auto|]);
    repeat split; eauto.
Qed.

(** The mobile stage leaves the full record, the reduced one, or
    [null]. *)
Lemma mobileStage_cases :
  (exists m, mobileCapture cheerio_load env = Returns m
             /\ mobileStage cheerio_load env = Val m)
  \/ (exists e b, mobileCapture cheerio_load env = Throws e
                  /\ basic_page env = Returns b
                  /\ mobileStage cheerio_load env = Val (basicMobileData b))
  \/ (exists e e', mobileCapture cheerio_load env = Throws e
                   /\ basic_page env = Throws e'
                   /\ mobileStage cheerio_load env = Null).
Proof.
  unfold mobileStage.
  destruct (mobileCapture cheerio_load env) as [m|e]; [left; eauto|].
  destruct (basic_page env) as [b|e']; [right; left|right; right]; eauto.
Qed.

Lemma mobileCapture_full (m : MobileData) :
  mobileCapture cheerio_load env = Returns m -> fullyPopulated m = true.
Proof.
  unfold mobileCapture, bindO, tryO.
  destruct (mobile_setUserAgent env); [|discriminate].
  destruct (mobile_setViewport env); [|discriminate].
  destruct (mobile_viewportCheck env); [|discriminate].
  destruct (reload_networkidle0 env);
    [|destruct (reload_domcontentloaded env)];
    (destruct (mobile_scroll env); [|discriminate]);
    (destruct (mobile_content env); [|discriminate]);
    (destruct (mobile_page env); [|discriminate]);
    intros [= <-]; reflexivity.
Qed.

(** A returned snapshot comes from one of the two paths. *)
Lemma capture_returns (url : jsstring) (s : Snapshot) (w : World) :
  capture fadd cheerio_load env url = (Returns s, w) ->
  (exists d, puppeteer env = true /\ returned (launch env) = true
             /\ desktopStage fadd cheerio_load env = Returns d
             /\ returned (close env) = true
             /\ s = renderedSnapshot env url d (mobileStage cheerio_load env)
             /\ w = closed)
  \/ fetchWebsiteSimple cheerio_load env url = Returns s.
Proof.
  rewrite capture_run.
  destruct (puppeteer env); [|intros [= H _]; now right].
  rewrite renderPath_run.
  destruct (launch env); [|intros [= H _]; now right].
  destruct (desktopStage fadd cheerio_load env) as [d|] eqn:Ed;
    [|intros [= H _]; now right].
  destruct (close env); [|intros [= H _]; now right].
  intros [= <- <-]. left. exists d. repeat split; reflexivity.
Qed.

End Engine.

End CaptureFacts.

Module CaptureClaims.

Import Snapshot CaptureFacts.

(** C1, as the code has it. A capture throws only when the rendering
    path is unavailable or has failed and the lightweight fetcher has
    failed too, and the lightweight fetcher fails on a transport error,
    on a response whose status is outside 200..299, or on a body that
    cannot be read; the error thrown wraps that cause.  Whenever the
    lightweight request is answered with a status in 200..299 and a
    readable body, the capture returns a snapshot. *)
Theorem capture_throws_only_when_both_paths_fail
    (fadd : Q -> Q -> Q) (cheerio_load : jsstring -> RawDom)
    (env : Env) (url : jsstring) :
  (forall e w,
      capture fadd cheerio_load env url = (Throws e, w) ->
      (puppeteer env = false
       \/ exists e' w',
           renderPath fadd cheerio_load env url start = (Throws e', w'))
      /\ exists cause,
          e = wrapped cause
          /\ (fetch env = Throws cause
              \/ exists response,
                  fetch env = Returns response
                  /\ ((ok response = false
                       /\ cause = new_Error (httpErrorMessage response))
                      \/ (ok response = true
                          /\ body response = Throws cause))))
  /\ (forall response html,
         fetch env = Returns response ->
         ok response = true ->
         body response = Returns html ->
         exists s w, capture fadd cheerio_load env url = (Returns s, w)).
Proof.
  split.
  - intros e w. rewrite capture_run.
    assert (Hsimple :
              fetchWebsiteSimple cheerio_load env url = Throws e ->
              exists cause,
                e = wrapped cause
                /\ (fetch env = Throws cause
                    \/ exists response,
                        fetch env = Returns response
                        /\ ((ok response = false
                             /\ cause = new_Error (httpErrorMessage response))
                            \/ (ok response = true
                                /\ body response = Throws cause)))).
    { rewrite fetchWebsiteSimple_run.
      destruct (fetch env) as [response|cause].
      - destruct (ok response) eqn:Hok.
        + destruct (body response) as [html|cause] eqn:Hb; [discriminate|].
          intros [= <-]. exists cause. split; [reflexivity|].
          right. exists response. split; [reflexivity|]. right. auto.
        + intros [= <-]. eexists. split; [reflexivity|].
          right. exists response. split; [reflexivity|]. left. auto.
      - intros [= <-]. exists cause. auto. }
    destruct (puppeteer env).
    + destruct (renderPath fadd cheerio_load env url start) as [[s|e'] w'];
        [discriminate|].
      intros [= H _]. split; [|now apply Hsimple]. right. eauto.
    + intros [= H _]. split; [now left|now apply Hsimple].
  - intros response html Hf Hok Hb.
    rewrite capture_run, fetchWebsiteSimple_run, Hf, Hok, Hb.
    destruct (puppeteer env); [|eauto].
    destruct (renderPath fadd cheerio_load env url start) as [[s|e'] w']; eauto.
Qed.

Lemma capture_throws_only_when_both_paths_fail_witness :
  (puppeteer Samples.hostile = false
   \/ exists e' w',
       renderPath Qplus Samples.noDom Samples.hostile (u "https://example.com")
                  start = (Throws e', w'))
  /\ exists s w,
      capture Qplus Samples.noDom Samples.calm (u "https://example.com")
      = (Returns s, w).
Proof.
  destruct (capture_throws_only_when_both_paths_fail
              Qplus Samples.noDom Samples.hostile (u "https://example.com"))
    as [Hthrow _].
  destruct (capture_throws_only_when_both_paths_fail
              Qplus Samples.noDom Samples.calm (u "https://example.com"))
    as [_ Hreturn].
  split.
  - apply (Hthrow (wrapped (new_Error (u "HTTP 403: Forbidden")))
                  {| process := Closed; browser := true |}).
    vm_compute. reflexivity.
  - apply (Hreturn {| http_status := 200; statusText := u "OK";
                      body := Returns (u "<html></html>") |}
                   (u "<html></html>")); reflexivity.
Defined.

(** C1 as stated fails: a page that answers the plain request (with
    status 403) and crashes the renderer makes the capture throw. *)
Lemma reachable_page_makes_capture_throw :
  (exists response,
      fetch Samples.hostile = Returns response
      /\ http_status response = 403%N)
  /\ capture Qplus Samples.noDom Samples.hostile (u "https://example.com")
     = (Throws (new_Error (u "Simple fetch failed: HTTP 403: Forbidden")),
        {| process := Closed; browser := true |}).
Proof.
  split; [eexists; split; reflexivity|]. vm_compute. reflexivity.
Qed.

(** C9. The zoom probe reports [meetsZoomRequirement = true] whatever it
    measured, so no snapshot a capture returns carries a zoom test with a
    failing verdict. *)
Theorem zoom_verdict_never_fails
    (fadd : Q -> Q -> Q) (cheerio_load : jsstring -> RawDom)
    (env : Env) (url : jsstring) :
  (forall p, meetsZoomRequirement (zoomEvaluate p) = true)
  /\ (forall s w z,
         capture fadd cheerio_load env url = (Returns s, w) ->
         zoomTest s = Val z ->
         meetsZoomRequirement z = true).
Proof.
  split; [reflexivity|].
  intros s w z H Hz.
  destruct (capture_returns _ _ _ _ H) as [(d & _ & _ & Hd & _ & -> & _)|Hs].
  - cbn [zoomTest renderedSnapshot] in Hz.
    destruct (desktopStage_fields _ _ _ Hd) as (_ & _ & _ & [Hn|(p & _ & Hp)]);
      rewrite Hz in *; [discriminate|].
    injection Hp as ->. reflexivity.
  - rewrite fetchWebsiteSimple_run in Hs.
    destruct (fetch env) as [response|]; [|discriminate].
    destruct (ok response); [|discriminate].
    destruct (body response); [|discriminate].
    apply (f_equal (fun o => match o with
                             | Returns s => zoomTest s
                             | Throws _ => Absent
                             end)) in Hs.
    cbn [zoomTest] in Hs. congruence.
Qed.

Lemma zoom_verdict_never_fails_witness :
  exists s w z,
    capture Qplus Samples.noDom Samples.calm (u "https://example.com")
    = (Returns s, w)
    /\ zoomTest s = Val z
    /\ zoom_hasHorizontalScroll z = true
    /\ meetsZoomRequirement z = true.
Proof.
  destruct (zoom_verdict_never_fails Qplus Samples.noDom Samples.calm
              (u "https://example.com")) as [_ H].
  eexists _, _, _.
  split; [lazy; reflexivity|].
  split; [lazy; reflexivity|].
  split; [reflexivity|].
  eapply H; lazy; reflexivity.
Defined.

(** C6, as the code has it. In a snapshot a capture returns, the style
    analysis, the reflow test and the zoom test are each missing, [null],
    or the whole result of their probe; the mobile data is [null], or the
    full mobile record, or the reduced record of the mobile fallback, which
    lacks the style analysis and the per-target details.  A snapshot of
    the lightweight fetcher has no style analysis, reflow test or zoom
    test, has [null] mobile data, and has structured data with a title
    that is not empty. *)
Theorem optional_fields_whole_reduced_or_missing
    (fadd : Q -> Q -> Q) (cheerio_load : jsstring -> RawDom)
    (env : Env) (url : jsstring) :
  (forall s w,
      capture fadd cheerio_load env url = (Returns s, w) ->
      (cssAnalysis s = Absent \/ cssAnalysis s = Null
       \/ exists p, css_page env = Returns p
                    /\ cssAnalysis s = Val (cssEvaluate fadd p))
      /\ (reflowTest s = Absent \/ reflowTest s = Null
          \/ exists p, reflow_page env = Returns p
                       /\ reflowTest s = Val (reflowEvaluate p))
      /\ (zoomTest s = Absent \/ zoomTest s = Null
          \/ exists p, zoom_page env = Returns p
                       /\ zoomTest s = Val (zoomEvaluate p))
      /\ (mobileData s = Null
          \/ (exists m, mobileData s = Val m /\ fullyPopulated m = true)
          \/ (exists b, basic_page env = Returns b
                        /\ mobileData s = Val (basicMobileData b))))
  /\ (forall s,
         fetchWebsiteSimple cheerio_load env url = Returns s ->
         cssAnalysis s = Absent /\ reflowTest s = Absent
         /\ zoomTest s = Absent /\ mobileData s = Null
         /\ title (structuredData s) <> []
         /\ exists response html,
             fetch env = Returns response /\ body response = Returns html
             /\ structuredData s = structuredDataOf [] (cheerio_load html)).
Proof.
  assert (Hsimple :
            forall s,
              fetchWebsiteSimple cheerio_load env url = Returns s ->
              cssAnalysis s = Absent /\ reflowTest s = Absent
              /\ zoomTest s = Absent /\ mobileData s = Null
              /\ title (structuredData s) <> []
              /\ exists response html,
                  fetch env = Returns response /\ body response = Returns html
                  /\ structuredData s = structuredDataOf [] (cheerio_load html)).
  { intros s. rewrite fetchWebsiteSimple_run.
    destruct (fetch env) as [response|]; [|discriminate].
    destruct (ok response); [|discriminate].
    destruct (body response) as [html|] eqn:Hb; [|discriminate].
    intros H.
    assert (Hs : s = {| url := url;
                        html := substring0 (N.to_nat 200000) html;
                        structuredData := structuredDataOf [] (cheerio_load html);
                        cssAnalysis := Absent; reflowTest := Absent;
                        zoomTest := Absent; mobileData := Null;
                        fetchedAt := now env |}) by congruence.
    rewrite Hs. cbn [cssAnalysis reflowTest zoomTest mobileData structuredData].
    repeat split.
    - unfold structuredDataOf. cbn [title orElse].
      destruct (titleText (cheerio_load html)); discriminate.
    - exists response, html. auto. }
  split; [|exact Hsimple].
  intros s w H.
  destruct (capture_returns _ _ _ _ H) as [(d & _ & _ & Hd & _ & -> & _)|Hs].
  - cbn [cssAnalysis reflowTest zoomTest mobileData renderedSnapshot].
    destruct (desktopStage_fields _ _ _ Hd) as (_ & Hc & Hr & Hz).
    split; [tauto|]. split; [tauto|]. split; [tauto|].
    destruct (mobileStage_cases cheerio_load env)
      as [(m & Hm & ->)|[(e & b & _ & Hb & ->)|(e & e1 & _ & _ & ->)]].
    + right. left. exists m. split; [reflexivity|].
      exact (mobileCapture_full _ _ Hm).
    + right. right. exists b. auto.
    + now left.
  - destruct (Hsimple s Hs) as (-> & -> & -> & -> & _). auto.
Qed.

Lemma optional_fields_whole_reduced_or_missing_witness :
  exists s w,
    capture Qplus Samples.noDom Samples.mobileFails (u "https://example.com")
    = (Returns s, w)
    /\ (mobileData s = Null
        \/ (exists m, mobileData s = Val m /\ fullyPopulated m = true)
        \/ (exists b, basic_page Samples.mobileFails = Returns b
                      /\ mobileData s = Val (basicMobileData b))).
Proof.
  destruct (optional_fields_whole_reduced_or_missing
              Qplus Samples.noDom Samples.mobileFails (u "https://example.com"))
    as [H _].
  eexists _, _. split; [lazy; reflexivity|].
  eapply H. lazy. reflexivity.
Defined.

(** C6 as stated fails: when the mobile stage throws and the reduced
    script returns, the snapshot carries a mobile record that is neither
    missing nor full: it has the viewport and the number of controls, and
    neither the style analysis nor the per-target details. *)
Lemma reduced_mobile_record_is_partial :
  exists s w m,
    capture Qplus Samples.noDom Samples.mobileFails (u "https://example.com")
    = (Returns s, w)
    /\ mobileData s = Val m
    /\ fullyPopulated m = false
    /\ mobile_cssAnalysis m = None
    /\ details (touchTargets m) = None
    /\ total (touchTargets m) = 3%nat
    /\ vp_width (viewport m) = 390%Z.
Proof.
  eexists _, _, _. split; [lazy; reflexivity|].
  split; [lazy; reflexivity|].
  repeat split; reflexivity.
Qed.




End CaptureClaims.

(* ================================================================== *)
(** * The rate limiter *)

Module RateLimitFacts.

Import RateLimit.

Lemma get_set_same (m : Store) (ip : jsstring) (v : list Z) :
  get (set m ip v) ip = Some v.
Proof.
  induction m as [|[k w] m IH]; cbn.
  - now rewrite jseq_refl.
  - destruct (jseq k ip) eqn:E; cbn; rewrite E; [reflexivity|exact IH].
Qed.

Lemma get_set_other (m : Store) (ip ip' : jsstring) (v : list Z) :
  ip' <> ip -> get (set m ip v) ip' = get m ip'.
Proof.
  intros Hne. induction m as [|[k w] m IH]; cbn.
  - destruct (jseq ip ip') eqn:E; [|reflexivity].
    apply jseq_true in E. congruence.
  - destruct (jseq k ip) eqn:E; cbn.
    + apply jseq_true in E. subst k.
      destruct (jseq ip ip') eqn:E'; [|reflexivity].
      apply jseq_true in E'. congruence.
    + destruct (jseq k ip'); [reflexivity|exact IH].
Qed.

Lemma userRequests_set_same (m : Store) (ip : jsstring) (v : list Z) :
  userRequests (set m ip v) ip = v.
Proof. unfold userRequests. now rewrite get_set_same. Qed.

Lemma userRequests_set_other (m : Store) (ip ip' : jsstring) (v : list Z) :
  ip' <> ip -> userRequests (set m ip v) ip' = userRequests m ip'.
Proof. intros H. unfold userRequests. now rewrite get_set_other. Qed.

(** What a call leaves for its own address. *)
Lemma checkRateLimit_own (now : Z) (ip : jsstring) (m : Store) :
  let recentRequests := filter (inWindow now) (userRequests m ip) in
  fst (checkRateLimit now ip m) = (length recentRequests <? RATE_LIMIT)%nat
  /\ userRequests (snd (checkRateLimit now ip m)) ip
     = if (length recentRequests <? RATE_LIMIT)%nat
       then recentRequests ++ [now]
       else userRequests m ip.
Proof.
  cbn zeta. unfold checkRateLimit.
  destruct (Nat.leb_spec RATE_LIMIT
              (length (filter (inWindow now) (userRequests m ip)))) as [H|H];
    cbn [fst snd].
  - apply Nat.ltb_ge in H. rewrite H. auto.
  - apply Nat.ltb_lt in H. rewrite H. now rewrite userRequests_set_same.
Qed.

Lemma checkRateLimit_other (now : Z) (ip ip' : jsstring) (m : Store) :
  ip' <> ip ->
  userRequests (snd (checkRateLimit now ip m)) ip' = userRequests m ip'.
Proof.
  intros H. unfold checkRateLimit.
  destruct (RATE_LIMIT <=? _)%nat; cbn [snd]; [reflexivity|].
  now apply userRequests_set_other.
Qed.

(** X1. Whatever the calls and their clock readings, the limiter never
    holds more than ten times for an address. *)
Theorem store_stays_bounded (calls : list (Z * jsstring)) (m : Store) :
  (forall ip, length (userRequests m ip) <= RATE_LIMIT)%nat ->
  forall ip, (length (userRequests (snd (serve calls m)) ip) <= RATE_LIMIT)%nat.
Proof.
  revert m. induction calls as [|[now a] calls IH]; intros m Hm ip.
  - apply Hm.
  - cbn [serve].
    destruct (checkRateLimit now a m) as [allowed m'] eqn:E.
    destruct (serve calls m') as [verdicts final] eqn:Es. cbn [snd].
    change final with (snd (verdicts, final)). rewrite <- Es.
    apply IH. intros i.
    change m' with (snd (allowed, m')). rewrite <- E.
    destruct (list_eq_dec N.eq_dec i a) as [->|Hne].
    + destruct (checkRateLimit_own now a m) as [_ ->].
      destruct (Nat.ltb_spec
                  (length (filter (inWindow now) (userRequests m a))) RATE_LIMIT)
        as [H|H]; [|apply Hm].
      rewrite length_app. cbn. lia.
    + rewrite (checkRateLimit_other now m Hne). apply Hm.
Qed.

Lemma store_stays_bounded_witness :
  (length (userRequests
             (snd (serve (map (fun t => (t, u "10.0.0.7"))
                             [0; 1; 2; 3; 4; 5; 6; 7; 8; 9; 10; 11; 12]%Z) []))
             (u "10.0.0.7")) <= RATE_LIMIT)%nat.
Proof.
  apply store_stays_bounded. intros ip. cbn. apply Nat.le_0_l.
Defined.

(** X2. A refused call records nothing and leaves the map as it was, and
    a call never changes what is held, or decided, for another address. *)
Theorem refusal_and_other_addresses (now : Z) (ip : jsstring) (m : Store) :
  (fst (checkRateLimit now ip m) = false -> snd (checkRateLimit now ip m) = m)
  /\ forall ip',
      ip' <> ip ->
      userRequests (snd (checkRateLimit now ip m)) ip' = userRequests m ip'
      /\ forall t, fst (checkRateLimit t ip' (snd (checkRateLimit now ip m)))
                   = fst (checkRateLimit t ip' m).
Proof.
  split.
  - unfold checkRateLimit. destruct (RATE_LIMIT <=? _)%nat; [reflexivity|discriminate].
  - intros ip' Hne. split; [now apply checkRateLimit_other|].
    intros t.
    destruct (checkRateLimit_own t ip' (snd (checkRateLimit now ip m))) as [-> _].
    destruct (checkRateLimit_own t ip' m) as [-> _].
    now rewrite checkRateLimit_other.
Qed.

Lemma refusal_and_other_addresses_witness :
  let full := [(u "10.0.0.7", [1; 2; 3; 4; 5; 6; 7; 8; 9; 10]%Z)] in
  snd (checkRateLimit 11 (u "10.0.0.7") full) = full
  /\ fst (checkRateLimit 12 (u "10.0.0.8")
            (snd (checkRateLimit 11 (u "10.0.0.7") full)))
     = fst (checkRateLimit 12 (u "10.0.0.8") full).
Proof.
  cbn zeta.
  destruct (refusal_and_other_addresses 11 (u "10.0.0.7")
              [(u "10.0.0.7", [1; 2; 3; 4; 5; 6; 7; 8; 9; 10]%Z)])
    as [Hsame Hother].
  split.
  - apply Hsame. reflexivity.
  - apply (Hother (u "10.0.0.8")). discriminate.
Defined.

Lemma window_widens (now now' time : Z) :
  (now <= now')%Z -> inWindow now' time = true -> inWindow now time = true.
Proof. unfold inWindow. rewrite !Z.ltb_lt. lia. Qed.

Lemma filter_window_twice (now now' : Z) (l : list Z) :
  (now <= now')%Z ->
  filter (inWindow now') (filter (inWindow now) l) = filter (inWindow now') l.
Proof.
  intros H. induction l as [|x l IH]; [reflexivity|]. cbn.
  destruct (inWindow now x) eqn:E; cbn.
  - now rewrite IH.
  - destruct (inWindow now' x) eqn:E'; [|exact IH].
    rewrite (window_widens _ H E') in E. discriminate.
Qed.

Lemma serve_window (calls : list (Z * jsstring)) :
  forall (m : Store) (history : jsstring -> list Z) (last : Z),
    agrees m history last ->
    ascending last calls ->
    forall pre now ip post,
      calls = pre ++ (now, ip) :: post ->
      nth (length pre) (fst (serve calls m)) false
      = (length (filter (inWindow now)
                        (history ip ++ allowedTimes ip pre (fst (serve calls m))))
         <? RATE_LIMIT)%nat.
Proof.
  induction calls as [|[t a] calls IH]; intros m history last Hagree Hasc
    pre now ip post Hcalls.
  - destruct pre; discriminate.
  - destruct Hasc as [Hlast Hasc]. cbn [serve].
    destruct (checkRateLimit t a m) as [allowed m'] eqn:E.
    destruct (serve calls m') as [verdicts final] eqn:Es. cbn [fst].
    destruct pre as [|[t' a'] pre].
    + injection Hcalls as -> -> _. cbn [length nth allowedTimes].
      rewrite app_nil_r.
      change allowed with (fst (allowed, m')). rewrite <- E.
      destruct (checkRateLimit_own now ip m) as [-> _].
      now rewrite (Hagree ip now Hlast).
    + injection Hcalls as <- <- Hcalls. cbn [length nth allowedTimes].
      set (history' := fun i => if allowed && jseq a i
                                then history i ++ [t] else history i).
      assert (Hagree' : agrees m' history' t).
      { intros i now' Hnow'. unfold history'.
        change m' with (snd (allowed, m')). rewrite <- E.
        destruct (list_eq_dec N.eq_dec i a) as [->|Hne].
        - rewrite jseq_refl, andb_true_r.
          destruct (checkRateLimit_own t a m) as [Hv ->].
          rewrite E in Hv. cbn [fst] in Hv. rewrite <- Hv.
          destruct allowed.
          + rewrite !filter_app, (filter_window_twice _ Hnow').
            f_equal. apply Hagree. lia.
          + apply Hagree. lia.
        - rewrite (checkRateLimit_other t m Hne).
          assert (Hj : jseq a i = false).
          { apply jseq_false. congruence. }
          rewrite Hj, andb_false_r. apply Hagree. lia. }
      specialize (IH m' history' t Hagree' Hasc pre now ip post Hcalls).
      rewrite Es in IH. cbn [fst] in IH. rewrite IH. unfold history'.
      destruct (allowed && jseq a ip)%bool eqn:Hb.
      * now rewrite <- app_assoc.
      * reflexivity.
Qed.

(** X3. With clock readings that never go back, and starting from the
    empty map, a call is allowed exactly when fewer than ten of the
    earlier allowed calls of the same address lie less than an hour
    before it. *)
Theorem sliding_window (calls : list (Z * jsstring)) (first : Z) :
  ascending first calls ->
  forall pre now ip post,
    calls = pre ++ (now, ip) :: post ->
    nth (length pre) (fst (serve calls [])) false
    = (length (filter (inWindow now)
                      (allowedTimes ip pre (fst (serve calls []))))
       <? RATE_LIMIT)%nat.
Proof.
  intros Hasc pre now ip post Hcalls.
  exact (@serve_window calls [] (fun _ => []) first
           (fun _ _ _ => eq_refl) Hasc pre now ip post Hcalls).
Qed.

Lemma sliding_window_witness :
  let calls := map (fun t => (t, u "10.0.0.7"))
                   [0; 1; 2; 3; 4; 5; 6; 7; 8; 9; 10; 3600000]%Z in
  nth 10 (fst (serve calls [])) false = false
  /\ nth 11 (fst (serve calls [])) false = true.
Proof.
  cbn zeta.
  set (calls := map (fun t => (t, u "10.0.0.7"))
                    [0; 1; 2; 3; 4; 5; 6; 7; 8; 9; 10; 3600000]%Z).
  assert (Hasc : ascending 0 calls) by (cbn; repeat split; lia).
  split.
  - pose proof (@sliding_window calls 0 Hasc (firstn 10 calls) 10 (u "10.0.0.7")
                  (skipn 11 calls) eq_refl) as H.
    change (length (firstn 10 calls)) with 10%nat in H. rewrite H.
    vm_compute. reflexivity.
  - pose proof (@sliding_window calls 0 Hasc (firstn 11 calls) 3600000
                  (u "10.0.0.7") (skipn 12 calls) eq_refl) as H.
    change (length (firstn 11 calls)) with 11%nat in H. rewrite H.
    vm_compute. reflexivity.
Defined.

Lemma set_keeps_keys (m : Store) (ip k : jsstring) (v : list Z) :
  get m k <> None -> get (set m ip v) k <> None.
Proof.
  intros H. destruct (list_eq_dec N.eq_dec k ip) as [->|Hne].
  - rewrite get_set_same. discriminate.
  - now rewrite get_set_other.
Qed.

Lemma set_length (m : Store) (ip : jsstring) (v : list Z) :
  (length m <= length (set m ip v))%nat.
Proof.
  induction m as [|[k w] m IH]; cbn [set length]; [lia|].
  destruct (jseq k ip); cbn [length]; lia.
Qed.

(** X4. The map of the limiter only grows.  Whatever the calls, it never
    gets shorter and an address that is in it stays in it; and what is
    held for an address that does not call is left as it is, so that
    times older than the window are dropped only when their address calls
    again. *)
Theorem addresses_are_never_forgotten (calls : list (Z * jsstring)) (m : Store) :
  (length m <= length (snd (serve calls m)))%nat
  /\ (forall ip, get m ip <> None -> get (snd (serve calls m)) ip <> None)
  /\ (forall ip, (forall now, ~ In (now, ip) calls) ->
                 userRequests (snd (serve calls m)) ip = userRequests m ip).
Proof.
  revert m. induction calls as [|[now a] calls IH]; intros m.
  - cbn [serve snd]. repeat split; auto.
  - cbn [serve].
    destruct (checkRateLimit now a m) as [allowed m'] eqn:E.
    destruct (serve calls m') as [verdicts final] eqn:Es. cbn [snd].
    destruct (IH m') as (Hlen & Hkeys & Hother). rewrite Es in *. cbn [snd] in *.
    assert (Hm' : m' = snd (checkRateLimit now a m)) by now rewrite E.
    split; [|split].
    + etransitivity; [|exact Hlen]. rewrite Hm'. unfold checkRateLimit.
      destruct (RATE_LIMIT <=? _)%nat; cbn [snd]; [lia|apply set_length].
    + intros ip Hip. apply Hkeys. rewrite Hm'. unfold checkRateLimit.
      destruct (RATE_LIMIT <=? _)%nat; cbn [snd];
        [exact Hip|now apply set_keeps_keys].
    + intros ip Hip. rewrite Hother.
      * rewrite Hm'. apply checkRateLimit_other.
        intros ->. apply (Hip now). now left.
      * intros t Hin. apply (Hip t). now right.
Qed.

End RateLimitFacts.

(* ================================================================== *)
(** * More on the clean-up of the response *)

Module CleanupFacts.

Import Audit.

Lemma includes_nil (s : jsstring) : includes s [] = true.
Proof. destruct s; reflexivity. Qed.

Lemma startsWith_nil (s : jsstring) : startsWith s [] = true.
Proof. destruct s; reflexivity. Qed.

Lemma startsWith_cons (c d : N) (s m : jsstring) :
  startsWith (c :: s) (d :: m) = N.eqb c d && startsWith s m.
Proof. reflexivity. Qed.

Lemma startsWith_extend (x m post : jsstring) :
  startsWith x m = true -> startsWith (x ++ post) m = true.
Proof.
  revert x. induction m as [|d m IH]; intros x H;
    [destruct (x ++ post); reflexivity|].
  destruct x as [|c x]; [discriminate|]. cbn in *.
  apply andb_true_iff in H. destruct H as [-> H]. now apply IH.
Qed.

Lemma includes_suffix (pre x m : jsstring) :
  includes (pre ++ x) m = false -> includes x m = false.
Proof.
  induction pre as [|c pre IH]; intros H; [exact H|].
  cbn [app includes] in H. apply orb_false_iff in H. now apply IH.
Qed.

Lemma includes_prefix_part (x post m : jsstring) :
  includes (x ++ post) m = false -> includes x m = false.
Proof.
  induction x as [|c x IH]; intros H.
  - destruct m as [|d m]; [now rewrite includes_nil in H|reflexivity].
  - cbn [app includes] in H. apply orb_false_iff in H. destruct H as [H1 H2].
    cbn [includes]. rewrite (IH H2), orb_false_r.
    destruct (startsWith (c :: x) m) eqn:E; [|reflexivity].
    pose proof (startsWith_extend _ _ post E) as E1. cbn [app] in E1. congruence.
Qed.

Lemma trimEnd_prefix (s : jsstring) :
  s = trimEnd s ++ rev (Spec.leadingSpace (rev s)).
Proof.
  unfold trimEnd. rewrite <- rev_app_distr.
  rewrite <- RegexFacts.leadingSpace_trimStart. now rewrite rev_involutive.
Qed.

Lemma includes_trim (s m : jsstring) :
  includes s m = false -> includes (trim s) m = false.
Proof.
  intros H. unfold trim.
  apply (includes_prefix_part _ (rev (Spec.leadingSpace (rev (trimStart s))))).
  rewrite <- trimEnd_prefix.
  apply (includes_suffix (Spec.leadingSpace s)).
  now rewrite <- RegexFacts.leadingSpace_trimStart.
Qed.

(** Taking out the three-backquote marker leaves no such marker behind. *)
Lemma stripped_has_no_fence (s out : jsstring) :
  Spec.Stripped (u "```") s out ->
  includes out (u "```") = false
  /\ (startsWith out (u "`") = true -> startsWith s (u "`") = true)
  /\ (startsWith out (u "``") = true -> startsWith s (u "``") = true).
Proof.
  induction 1 as [|rest out _ IH|c s out Hkeep _ IH].
  - repeat split; discriminate.
  - destruct IH as (IH & _ & _).
    split; [exact IH|]. split; intros _; reflexivity.
  - destruct IH as (IH0 & IH1 & IH2).
    assert (H1 : startsWith (c :: out) (u "`") = true ->
                 startsWith (c :: s) (u "`") = true).
    { change (u "`") with [cu "`"]. rewrite !startsWith_cons, !startsWith_nil.
      auto. }
    assert (H2 : startsWith (c :: out) (u "``") = true ->
                 startsWith (c :: s) (u "``") = true).
    { change (u "``") with (cu "`" :: u "`"). rewrite !startsWith_cons.
      intros H. apply andb_true_iff in H. destruct H as [-> H].
      now rewrite (IH1 H). }
    repeat split; [|exact H1|exact H2].
    cbn [includes]. rewrite IH0, orb_false_r.
    destruct (startsWith (c :: out) (u "```")) eqn:E; [|reflexivity].
    change (u "```") with (cu "`" :: u "``") in E, Hkeep.
    rewrite startsWith_cons in E, Hkeep.
    apply andb_true_iff in E. destruct E as [Ec E].
    rewrite Ec, (IH2 E) in Hkeep. discriminate.
Qed.

Lemma split_last_parts (c : N) (s inside after : jsstring) :
  Spec.split_last c s = Some (inside, after) ->
  s = inside ++ c :: after /\ ~ In c after.
Proof.
  revert inside. induction s as [|y s IH]; intros inside H; [discriminate|].
  cbn in H. destruct (Spec.split_last c s) as [[b a]|] eqn:E.
  - injection H as <- <-. destruct (IH _ eq_refl) as [-> Hn]. now split.
  - destruct (N.eqb_spec y c) as [->|]; [|discriminate].
    injection H as <- <-. split; [reflexivity|].
    clear IH. revert E. induction s as [|z s IHs]; intros E; [intros []|].
    cbn in E. destruct (Spec.split_last c s) as [[b a]|]; [discriminate|].
    destruct (N.eqb_spec z c); [discriminate|].
    intros [->|Hin]; [congruence|]. now apply IHs.
Qed.

Lemma split_last_none (c : N) (s : jsstring) :
  Spec.split_last c s = None -> ~ In c s.
Proof.
  induction s as [|z s IH]; intros E; [intros []|].
  cbn in E. destruct (Spec.split_last c s) as [[b a]|]; [discriminate|].
  destruct (N.eqb_spec z c); [discriminate|].
  intros [->|Hin]; [congruence|]. now apply IH.
Qed.

Lemma brace_span_some (s span : jsstring) :
  Spec.brace_span s = Some span ->
  exists pre inside post,
    s = pre ++ cu "{" :: inside ++ cu "}" :: post
    /\ span = cu "{" :: inside ++ [cu "}"]
    /\ ~ In (cu "{") pre
    /\ ~ In (cu "}") post.
Proof.
  induction s as [|x s IH]; intros H; [discriminate|].
  cbn [Spec.brace_span] in H.
  destruct (N.eqb_spec x (cu "{")) as [->|Hx].
  - destruct (Spec.split_last (cu "}") s) as [[inside after]|] eqn:E;
      [|discriminate].
    injection H as <-. destruct (split_last_parts _ _ E) as [-> Hn].
    exists [], inside, after. repeat split; auto.
  - destruct (IH H) as (pre & inside & post & -> & -> & Hpre & Hpost).
    exists (x :: pre), inside, post. repeat split; auto.
    intros [Heq|Hin]; [congruence|]. now apply Hpre.
Qed.

Lemma brace_span_none (s : jsstring) :
  Spec.brace_span s = None ->
  forall pre post, s = pre ++ cu "{" :: post -> ~ In (cu "}") post.
Proof.
  induction s as [|x s IH]; intros H pre post Hs.
  - destruct pre; discriminate.
  - cbn [Spec.brace_span] in H.
    destruct (N.eqb_spec x (cu "{")) as [->|Hx].
    + destruct (Spec.split_last (cu "}") s) as [[inside after]|] eqn:E;
        [discriminate|].
      pose proof (split_last_none _ _ E) as Hn.
      destruct pre as [|p pre].
      * injection Hs as ->. exact Hn.
      * injection Hs as _ ->.
        intros Hin. apply Hn. apply in_or_app. right. now right.
    + destruct pre as [|p pre]; injection Hs as -> ->;
        [exfalso; apply Hx; reflexivity|].
      now apply (IH H pre post).
Qed.

(** X5. Whatever the backend answered, the text that comes out of the
    fence step holds no three-backquote marker, and so neither does the
    span taken from it. *)
Theorem cleaned_text_has_no_fence (responseText : jsstring) :
  includes (stripFences responseText) (u "```") = false
  /\ includes (extractJson (stripFences responseText)) (u "```") = false.
Proof.
  assert (H : includes (stripFences responseText) (u "```") = false).
  { destruct (RegexFacts.stripFences_spec responseText)
      as (a & b & _ & Hb & ->).
    apply includes_trim. exact (proj1 (stripped_has_no_fence Hb)). }
  split; [exact H|].
  rewrite RegexFacts.extractJson_spec. unfold Spec.first_to_last_brace.
  destruct (Spec.brace_span (stripFences responseText)) as [span|] eqn:E;
    [|exact H].
  destruct (brace_span_some _ E) as (pre & inside & post & Hs & -> & _ & _).
  rewrite Hs in H. apply includes_suffix in H.
  apply (includes_prefix_part _ post).
  cbn [app]. now rewrite <- app_assoc.
Qed.

(** X6. The span step either leaves the text as it is, which it does
    exactly when no opening brace is followed by a closing one, or cuts
    it down to the part that starts at the first opening brace and ends at
    the last closing brace. *)
Theorem extractJson_cuts_first_to_last (s : jsstring) :
  (extractJson s = s
   /\ forall pre post, s = pre ++ cu "{" :: post -> ~ In (cu "}") post)
  \/ exists pre inside post,
      s = pre ++ cu "{" :: inside ++ cu "}" :: post
      /\ extractJson s = cu "{" :: inside ++ [cu "}"]
      /\ ~ In (cu "{") pre
      /\ ~ In (cu "}") post.
Proof.
  rewrite RegexFacts.extractJson_spec. unfold Spec.first_to_last_brace.
  destruct (Spec.brace_span s) as [span|] eqn:E.
  - right. destruct (brace_span_some _ E) as (pre & inside & post & H).
    exists pre, inside, post. tauto.
  - left. split; [reflexivity|]. now apply brace_span_none.
Qed.

End CleanupFacts.

(* ================================================================== *)
(** * More on the snapshot a capture returns *)

Module CaptureMore.

Import Snapshot CaptureFacts.

Lemma Some_inj {A} (a b : A) : Some a = Some b -> a = b.
Proof.
  intros H.
  exact (f_equal (fun o => match o with Some x => x | None => a end) H).
Qed.

Lemma Returns_inj {A} (a b : A) : Returns a = Returns b -> a = b.
Proof.
  intros H.
  exact (f_equal (fun o => match o with Returns x => x | Throws _ => a end) H).
Qed.

Lemma filter_split_length {A} (f : A -> bool) (l : list A) :
  (length (filter f l) + length (filter (fun a => negb (f a)) l))%nat = length l.
Proof.
  induction l as [|a l IH]; [reflexivity|].
  cbn [filter]. destruct (f a); cbn [negb length]; lia.
Qed.

Lemma squeeze_length (n : nat) (s : jsstring) : (length (squeeze n s) <= n)%nat.
Proof. unfold squeeze, substring0. apply firstn_le_length. Qed.

Lemma structuredDataOf_bounds (pageTitle : jsstring) (d : RawDom) :
  (length (textContent (structuredDataOf pageTitle d)) <= N.to_nat 50000
   /\ length (links (structuredDataOf pageTitle d)) <= 50
   /\ length (images (structuredDataOf pageTitle d)) <= 30)%nat.
Proof.
  unfold structuredDataOf. cbn [textContent links images]. unfold slice0.
  repeat split; [apply squeeze_length|apply firstn_le_length..].
Qed.

Section Engine.

Variable fadd : Q -> Q -> Q.
Variable cheerio_load : jsstring -> RawDom.
Variable env : Env.

(** A full mobile record is what the mobile script made of a page. *)
Lemma mobileCapture_shape (m : MobileData) :
  mobileCapture cheerio_load env = Returns m ->
  exists p mobileHtml,
    m = mobileEvaluate p mobileHtml (cheerio_load mobileHtml).
Proof.
  unfold mobileCapture, bindO, tryO.
  destruct (mobile_setUserAgent env); [|discriminate].
  destruct (mobile_setViewport env); [|discriminate].
  destruct (mobile_viewportCheck env); [|discriminate].
  destruct (reload_networkidle0 env);
    [|destruct (reload_domcontentloaded env)];
    (destruct (mobile_scroll env); [|discriminate]);
    (destruct (mobile_content env) as [h|]; [|discriminate]);
    (destruct (mobile_page env) as [p|]; [|discriminate]);
    intros [= <-]; eauto.
Qed.

(** The record the mobile stage leaves is the full one or the reduced
    one. *)
Lemma mobileStage_shape (m : MobileData) :
  mobileStage cheerio_load env = Val m ->
  (exists p mobileHtml,
      m = mobileEvaluate p mobileHtml (cheerio_load mobileHtml))
  \/ exists b, m = basicMobileData b.
Proof.
  unfold mobileStage.
  destruct (mobileCapture cheerio_load env) as [m'|e] eqn:E.
  - intros [= <-]. left. now apply mobileCapture_shape.
  - destruct (basic_page env) as [b|]; [|discriminate].
    intros [= <-]. right. now exists b.
Qed.

(** A returned snapshot, field by field. *)
Lemma capture_shape (url : jsstring) (s : Snapshot) (w : World) :
  capture fadd cheerio_load env url = (Returns s, w) ->
  (exists raw pageTitle,
      html s = substring0 (N.to_nat 200000) raw
      /\ structuredData s = structuredDataOf pageTitle (cheerio_load raw))
  /\ (forall c, cssAnalysis s = Val c -> exists p, c = cssEvaluate fadd p)
  /\ (forall m, mobileData s = Val m -> mobileStage cheerio_load env = Val m).
Proof.
  intros H. destruct (capture_returns _ _ _ _ H)
    as [(d & _ & _ & Hd & _ & -> & _)|Hs].
  - destruct (desktopStage_fields _ _ _ Hd)
      as ((raw & pageTitle & _ & _ & Hh & Hsd) & Hcss & _ & _).
    cbn [renderedSnapshot html structuredData cssAnalysis mobileData].
    split; [exists raw, pageTitle; now rewrite Hh, Hsd|].
    split; [|auto].
    intros c Hc. destruct Hcss as [Hn|(p & _ & Hp)]; [congruence|].
    exists p. congruence.
  - rewrite fetchWebsiteSimple_run in Hs.
    destruct (fetch env) as [response|]; [|discriminate].
    destruct (ok response); [|discriminate].
    destruct (body response) as [raw|]; [|discriminate].
    apply Returns_inj in Hs. subst s.
    cbn [html structuredData cssAnalysis mobileData].
    split; [exists raw, []; auto|]. split; intros ? [=].
Qed.

End Engine.

(** X7. Whatever the page sent, the snapshot a capture returns is bounded
    in its long fields: the markup at 200000 units, the page text at
    50000, the links at 50 and the images at 30; the desktop target list
    at 30; and in the mobile record the markup at 100000, the text at
    30000, the spacing issues at 10, the breakpoints at 5, the links at
    30, the per-target detail at 30 and the styled links at 20. *)
Theorem snapshot_sizes_are_bounded
    (fadd : Q -> Q -> Q) (cheerio_load : jsstring -> RawDom)
    (env : Env) (url : jsstring) (s : Snapshot) (w : World) :
  capture fadd cheerio_load env url = (Returns s, w) ->
  (length (html s) <= N.to_nat 200000
   /\ length (textContent (structuredData s)) <= N.to_nat 50000
   /\ length (links (structuredData s)) <= 50
   /\ length (images (structuredData s)) <= 30)%nat
  /\ (forall c, cssAnalysis s = Val c ->
        (ts_total (targetSizes c) <= 30
         /\ length (ts_details (targetSizes c)) <= 30
         /\ length (ts_nonCompliant (targetSizes c)) <= 30)%nat)
  /\ (forall m, mobileData s = Val m ->
        (length (mobile_html m) <= N.to_nat 100000
         /\ length (mobile_textContent m) <= N.to_nat 30000
         /\ length (spacing_issues m) <= 10
         /\ length (breakpoints m) <= 5
         /\ length (ms_links (mobile_structuredData m)) <= 30)%nat
        /\ (forall d, details (touchTargets m) = Some d -> (length d <= 30)%nat)
        /\ (forall c, mobile_cssAnalysis m = Some c ->
              (length (css_links_details c) <= 20)%nat)).
Proof.
  intros H.
  destruct (capture_shape _ _ _ _ H)
    as ((raw & pageTitle & Hh & Hsd) & Hcss & Hm).
  split; [|split].
  - rewrite Hh, Hsd. split; [apply firstn_le_length|].
    apply structuredDataOf_bounds.
  - intros c Hc. destruct (Hcss c Hc) as (p & ->).
    unfold cssEvaluate. cbn [targetSizes ts_total ts_details ts_nonCompliant].
    assert (Hl : (length (map (targetSizeOf fadd) (firstn 30 (clickable p)))
                  <= 30)%nat)
      by (rewrite length_map; apply firstn_le_length).
    repeat split; try exact Hl.
    pose proof (filter_split_length (@meets24x24)
                  (map (targetSizeOf fadd) (firstn 30 (clickable p)))).
    lia.
  - intros m Hv. destruct (mobileStage_shape _ _ (Hm m Hv))
      as [(p & h & ->)|(b & ->)].
    + unfold mobileEvaluate.
      cbn [mobile_html mobile_textContent spacing_issues breakpoints
           mobile_structuredData touchTargets details mobile_cssAnalysis].
      unfold mobileStructuredDataOf. cbn [ms_links]. unfold slice0, substring0.
      split; [|split].
      * repeat split; apply firstn_le_length.
      * intros d Hd. apply Some_inj in Hd. subst d. apply firstn_le_length.
      * intros c Hc. apply Some_inj in Hc. subst c.
        cbn [css_links_details]. rewrite length_map. apply firstn_le_length.
    + unfold basicMobileData.
      cbn [mobile_html mobile_textContent spacing_issues breakpoints
           mobile_structuredData touchTargets details mobile_cssAnalysis].
      unfold emptyMobileStructuredData. cbn [ms_links length].
      split; [|split; intros ? [=]].
      repeat split; try lia.
      * etransitivity; [apply firstn_le_length|]. lia.
      * etransitivity; [apply squeeze_length|]. lia.
Qed.

Lemma snapshot_sizes_are_bounded_witness :
  exists s w,
    capture Qplus Samples.noDom Samples.calm (u "https://example.com")
    = (Returns s, w)
    /\ (length (html s) <= N.to_nat 200000)%nat.
Proof.
  eexists. eexists. split; [lazy; reflexivity|].
  apply (@snapshot_sizes_are_bounded Qplus Samples.noDom Samples.calm
           (u "https://example.com") _ _ eq_refl).
Defined.

(** X8. In a returned snapshot the counts of the target probes add up.
    On the desktop list the compliant count and the non-compliant entries
    make up the total, which is the length of the detail list, and every
    non-compliant entry fails the 24 by 24 test.  In a full mobile record
    the compliant count and the non-compliant entries make up the total,
    while the detail list holds the first 30 targets at most; in a reduced
    record the compliant count is zero and the non-compliant list is empty
    whatever the total. *)
Theorem target_counts_add_up
    (fadd : Q -> Q -> Q) (cheerio_load : jsstring -> RawDom)
    (env : Env) (url : jsstring) (s : Snapshot) (w : World) :
  capture fadd cheerio_load env url = (Returns s, w) ->
  (forall c, cssAnalysis s = Val c ->
      (ts_compliant (targetSizes c) + length (ts_nonCompliant (targetSizes c))
       = ts_total (targetSizes c))%nat
      /\ ts_total (targetSizes c) = length (ts_details (targetSizes c))
      /\ forall t, In t (ts_nonCompliant (targetSizes c)) ->
                   meets24x24 t = false)
  /\ (forall m, mobileData s = Val m ->
        (fullyPopulated m = true ->
         (compliant (touchTargets m) + length (nonCompliant (touchTargets m))
          = total (touchTargets m))%nat
         /\ exists d, details (touchTargets m) = Some d
                      /\ length d = Nat.min 30 (total (touchTargets m)))
        /\ (fullyPopulated m = false ->
            compliant (touchTargets m) = 0%nat
            /\ nonCompliant (touchTargets m) = []
            /\ details (touchTargets m) = None)).
Proof.
  intros H.
  destruct (capture_shape _ _ _ _ H) as (_ & Hcss & Hm).
  split.
  - intros c Hc. destruct (Hcss c Hc) as (p & ->).
    unfold cssEvaluate. cbn [targetSizes ts_total ts_details ts_nonCompliant
                             ts_compliant].
    split; [apply filter_split_length|]. split; [reflexivity|].
    intros t Ht. apply filter_In in Ht. destruct Ht as [_ Ht].
    now apply negb_true_iff in Ht.
  - intros m Hv. destruct (mobileStage_shape _ _ (Hm m Hv))
      as [(p & h & ->)|(b & ->)].
    + split; [intros _|discriminate].
      unfold mobileEvaluate. cbn [touchTargets compliant nonCompliant total details].
      rewrite length_map. split; [apply filter_split_length|].
      eexists. split; [reflexivity|]. unfold slice0. apply length_firstn.
    + split; [discriminate|intros _]. repeat split.
Qed.

Lemma target_counts_add_up_witness :
  exists s w c,
    capture Qplus Samples.noDom Samples.calm (u "https://example.com")
    = (Returns s, w)
    /\ cssAnalysis s = Val c
    /\ ts_total (targetSizes c) = length (ts_details (targetSizes c)).
Proof.
  eexists. eexists. eexists.
  split; [lazy; reflexivity|]. split; [reflexivity|].
  apply (proj1 (@target_counts_add_up Qplus Samples.noDom Samples.calm
                  (u "https://example.com") _ _ eq_refl) _ eq_refl).
Defined.

(** X9. The browser process a capture leaves behind.  It was never
    started exactly when the rendering library is missing or the launch
    failed.  It is still running exactly when the launch succeeded, the
    rendering path failed after it (in the desktop stage or in the regular
    close), and the close of the handler failed too; in every other run
    that started a browser, the browser is closed, whether the capture
    returned or threw. *)
Theorem browser_left_running_only_when_close_fails
    (fadd : Q -> Q -> Q) (cheerio_load : jsstring -> RawDom)
    (env : Env) (url : jsstring) :
  (process (snd (capture fadd cheerio_load env url)) = NotStarted
   <-> puppeteer env = false \/ returned (launch env) = false)
  /\ (process (snd (capture fadd cheerio_load env url)) = Running
      <-> puppeteer env = true
          /\ returned (launch env) = true
          /\ (returned (desktopStage fadd cheerio_load env) = false
              \/ returned (close env) = false)
          /\ returned (close_in_catch env) = false).
Proof.
  rewrite capture_run, renderPath_run. unfold afterFailure, start, running, closed.
  destruct (puppeteer env);
    [|cbn; split; split; intros; intuition discriminate].
  destruct (launch env);
    [|cbn; split; split; intros; intuition discriminate].
  destruct (desktopStage fadd cheerio_load env);
    [destruct (close env)|];
    cbn; destruct (close_in_catch env); cbn;
    split; split; intros; intuition discriminate.
Qed.

(** Every issue comes from an element of the list and a later one that
    lie under 8 apart on both axes. *)
Lemma spacingIssues_close (els : list TouchTarget) (i : SpacingIssue) :
  In i (spacingIssues els) ->
  exists before el1 between el2 after,
    els = before ++ el1 :: between ++ el2 :: after
    /\ (Z.abs (x (size el1) - x (size el2)) < 8)%Z
    /\ (Z.abs (y (size el1) - y (size el2)) < 8)%Z
    /\ i = {| element1 := substring0 30 (tt_text el1);
              element2 := substring0 30 (tt_text el2);
              distance := Z.min (Z.abs (x (size el1) - x (size el2)))
                                (Z.abs (y (size el1) - y (size el2))) |}.
Proof.
  induction els as [|el1 rest IH]; intros H; [destruct H|].
  cbn [spacingIssues] in H. apply in_app_or in H. destruct H as [H|H].
  - apply in_flat_map in H. destruct H as (el2 & Hel2 & H).
    destruct ((Z.abs (x (size el1) - x (size el2)) <? 8)%Z
              && (Z.abs (y (size el1) - y (size el2)) <? 8)%Z) eqn:E;
      [|destruct H].
    destruct H as [<-|[]].
    apply andb_true_iff in E. destruct E as [Ex Ey].
    apply Z.ltb_lt in Ex, Ey.
    apply in_split in Hel2. destruct Hel2 as (between & after & ->).
    exists [], el1, between, el2, after. auto.
  - destruct (IH H) as (before & a & between & b & after & -> & Hx & Hy & Hi).
    exists (el1 :: before), a, between, b, after. auto.
Qed.

(** The full mobile record is made of the page the mobile script read
    in this run. *)
Lemma mobileCapture_reads
    (cheerio_load : jsstring -> RawDom) (env : Env) (m : MobileData) :
  mobileCapture cheerio_load env = Returns m ->
  exists p mobileHtml,
    mobile_page env = Returns p
    /\ mobile_content env = Returns mobileHtml
    /\ m = mobileEvaluate p mobileHtml (cheerio_load mobileHtml).
Proof.
  unfold mobileCapture, bindO, tryO.
  destruct (mobile_setUserAgent env); [|discriminate].
  destruct (mobile_setViewport env); [|discriminate].
  destruct (mobile_viewportCheck env); [|discriminate].
  destruct (reload_networkidle0 env);
    [|destruct (reload_domcontentloaded env)];
    (destruct (mobile_scroll env); [|discriminate]);
    (destruct (mobile_content env) as [h|]; [|discriminate]);
    (destruct (mobile_page env) as [p|]; [|discriminate]);
    intros [= <-]; eauto.
Qed.

(** X10. Every spacing issue of a returned snapshot is a pair of touch
    targets of the page the mobile script read, the second one later in
    the list than the first, whose origins are under 8 px apart on the
    horizontal axis and on the vertical axis as well; its distance is the
    smaller of the two gaps, so it lies between 0 and 7, and its two names
    are the texts of the two targets cut at 30 units. *)
Theorem spacing_issues_are_close_pairs
    (fadd : Q -> Q -> Q) (cheerio_load : jsstring -> RawDom)
    (env : Env) (url : jsstring) (s : Snapshot) (w : World)
    (m : MobileData) (i : SpacingIssue) :
  capture fadd cheerio_load env url = (Returns s, w) ->
  mobileData s = Val m ->
  In i (spacing_issues m) ->
  exists p before el1 between el2 after,
    mobile_page env = Returns p
    /\ flat_map (fun els => map touchTargetOf (firstn 20 els)) (mp_matches p)
       = before ++ el1 :: between ++ el2 :: after
    /\ (Z.abs (x (size el1) - x (size el2)) < 8)%Z
    /\ (Z.abs (y (size el1) - y (size el2)) < 8)%Z
    /\ distance i = Z.min (Z.abs (x (size el1) - x (size el2)))
                          (Z.abs (y (size el1) - y (size el2)))
    /\ element1 i = substring0 30 (tt_text el1)
    /\ element2 i = substring0 30 (tt_text el2)
    /\ (0 <= distance i < 8)%Z
    /\ (length (element1 i) <= 30)%nat
    /\ (length (element2 i) <= 30)%nat.
Proof.
  intros H Hm Hi.
  destruct (capture_shape _ _ _ _ H) as (_ & _ & Hstage).
  specialize (Hstage m Hm). unfold mobileStage in Hstage.
  destruct (mobileCapture cheerio_load env) as [m'|e] eqn:E.
  - assert (Hmm : m' = m).
    { exact (f_equal (fun f => match f with Val a => a | _ => m' end) Hstage). }
    subst m'.
    destruct (mobileCapture_reads _ _ E) as (p & h & Hp & _ & ->).
    unfold mobileEvaluate in Hi. cbn [spacing_issues] in Hi.
    unfold slice0 in Hi.
    assert (Hall : In i (spacingIssues
                           (flat_map (fun els => map touchTargetOf (firstn 20 els))
                                     (mp_matches p)))).
    { rewrite <- (firstn_skipn 10 (spacingIssues _)).
      apply in_or_app. left. exact Hi. }
    destruct (spacingIssues_close _ _ Hall)
      as (before & el1 & between & el2 & after & Hels & Hx & Hy & ->).
    exists p, before, el1, between, el2, after.
    cbn [distance element1 element2]. unfold substring0.
    repeat split; auto; try apply firstn_le_length; lia.
  - destruct (basic_page env) as [b|]; [|discriminate].
    assert (Hmm : basicMobileData b = m).
    { exact (f_equal (fun f => match f with
                               | Val a => a
                               | _ => basicMobileData b
                               end) Hstage). }
    subst m. destruct Hi.
Qed.

Lemma spacing_issues_are_close_pairs_witness :
  exists s w m i,
    capture Qplus Samples.noDom Samples.crowded (u "https://example.com")
    = (Returns s, w)
    /\ mobileData s = Val m
    /\ In i (spacing_issues m)
    /\ distance i = 2%Z.
Proof.
  eexists. eexists. eexists. eexists.
  split; [lazy; reflexivity|]. split; [reflexivity|].
  split; [lazy; left; reflexivity|].
  destruct (@spacing_issues_are_close_pairs Qplus Samples.noDom Samples.crowded
              (u "https://example.com") _ _ _ _ eq_refl eq_refl
              (or_introl eq_refl))
    as (p & before & el1 & between & el2 & after & _ & _ & _ & _ & _ & _ & _
        & _ & _ & _).
  reflexivity.
Defined.





End CaptureMore.

(* ================================================================== *)
(** * The handler as a whole *)

Module HandlerFacts.

Import Audit Handler.

Lemma handleError_plain (error : JsError) :
  status error = None ->
  handleError error
  = ReplyError 500 (u "Failed to generate audit. Please try again.")
               (Some (message error)).
Proof. unfold handleError. now intros ->. Qed.

(** What the catch makes of an error: the two replies for a status, or
    the reply with the message as details. *)
Lemma handleError_cases (e : JsError) :
  (status e = Some 429%N
   /\ handleError e
      = ReplyError 429 (u "API rate limit exceeded. Please try again later.")
                   None)
  \/ (status e = Some 401%N
      /\ handleError e
         = ReplyError 500
             (u "Invalid API key. Please check server configuration.") None)
  \/ (status e <> Some 429%N /\ status e <> Some 401%N
      /\ handleError e
         = ReplyError 500 (u "Failed to generate audit. Please try again.")
                      (Some (message e))).
Proof.
  unfold handleError. destruct (status e) as [n|].
  - destruct (N.eq_dec n 429) as [->|H1]; [left; auto|].
    destruct (N.eq_dec n 401) as [->|H2]; [right; left; auto|].
    right. right.
    split; [congruence|]. split; [congruence|].
    destruct n as [|p]; [reflexivity|].
    repeat (destruct p as [p|p|]; try reflexivity; try congruence).
  - right. right. repeat split; discriminate.
Qed.

(** Every error the ladder or the reconciler throws is a fresh [Error]
    without a status, except what [text()] of the result threw, which is
    thrown on as it is. *)
Lemma callGemini_throws
    (JSON_parse : jsstring -> Outcome unit)
    (generateContent : jsstring -> Outcome GenerateContentResult)
    (model : jsstring) (e : JsError) :
  callGemini JSON_parse generateContent model = Throws e ->
  status e = None
  \/ exists m r, generateContent m = Returns r /\ text r = Throws e.
Proof.
  unfold callGemini.
  set (st0 := {| result := None;
                 modelName := orElse model (u "gemini-2.0-flash");
                 lastError := None |}).
  destruct (result (tryModels generateContent (modelsToTry model) st0))
    as [r|] eqn:E; [|intros [= <-]; now left].
  destruct (@LadderFacts.tryModels_winner generateContent
              (modelsToTry model) st0 r eq_refl E)
    as (pre & post & _ & _ & Hw).
  unfold reconcile. destruct (text r) as [t|e'] eqn:Et.
  - destruct (JSON_parse _); [discriminate|].
    destruct (JSON_parse _); [discriminate|intros [= <-]; now left].
  - intros [= <-]. right. eauto.
Qed.

Lemma callGemini_model
    (JSON_parse : jsstring -> Outcome unit)
    (generateContent : jsstring -> Outcome GenerateContentResult)
    (requested : jsstring) (response : Response) :
  callGemini JSON_parse generateContent requested = Returns response ->
  In (model response) (modelsToTry requested)
  /\ exists r, generateContent (model response) = Returns r
               /\ input_tokens (usage response) = orZero (promptTokenCount r)
               /\ output_tokens (usage response) = orZero (candidatesTokenCount r).
Proof.
  unfold callGemini.
  set (st0 := {| result := None;
                 modelName := orElse requested (u "gemini-2.0-flash");
                 lastError := None |}).
  destruct (result (tryModels generateContent (modelsToTry requested) st0))
    as [r|] eqn:E; [|discriminate].
  destruct (@LadderFacts.tryModels_winner generateContent
              (modelsToTry requested) st0 r eq_refl E)
    as (pre & post & Hm & _ & Hw).
  intros H. pose proof (LadderClaims.reconcile_model _ _ _ H) as Hmodel.
  rewrite Hmodel. split.
  - rewrite Hm at 2. apply in_or_app. right. now left.
  - exists r. split; [exact Hw|].
    revert H. unfold reconcile. destruct (text r); [|discriminate].
    destruct (JSON_parse _); [intros [= <-]; split; reflexivity|].
    destruct (JSON_parse _); [intros [= <-]; split; reflexivity|discriminate].
Qed.

Lemma modelsToTry_in_defaults (requested m : jsstring) :
  In m (modelsToTry requested) <-> In m defaultModels.
Proof.
  destruct (arrayIncludes defaultModels requested) eqn:H.
  - rewrite (LadderFacts.modelsToTry_default _ H).
    unfold arrayIncludes, defaultModels in H. cbn [existsb] in H.
    repeat (apply orb_true_iff in H; destruct H as [H|H]);
      try discriminate; apply jseq_true in H; subst requested;
      vm_compute; tauto.
  - now rewrite (LadderFacts.modelsToTry_other _ H).
Qed.

Section Engine.

Variable typeErrorMessage : jsstring -> jsstring.
Variable toUpperCase : jsstring -> jsstring.

Lemma countCustomPrompts_missing_items (auditOptions : AuditOptions)
    (key : jsstring) (category : Category) :
  In (key, category) auditOptions ->
  items category = None ->
  forall n,
    countCustomPrompts typeErrorMessage auditOptions n
    = Throws (TypeError typeErrorMessage (u "items")).
Proof.
  induction auditOptions as [|[k c] rest IH]; intros Hin Hnone n; [destruct Hin|].
  cbn [countCustomPrompts]. destruct (items c) as [its|] eqn:E; [|reflexivity].
  destruct Hin as [Heq|Hin]; [|now apply IH].
  injection Heq as _ ->. congruence.
Qed.

Lemma countCustomPrompts_returns (auditOptions : AuditOptions) :
  (forall key category, In (key, category) auditOptions ->
                        items category <> None) ->
  forall n, exists n', countCustomPrompts typeErrorMessage auditOptions n
                       = Returns n'.
Proof.
  induction auditOptions as [|[k c] rest IH]; intros H n; [now exists n|].
  cbn [countCustomPrompts]. destruct (items c) as [its|] eqn:E.
  - apply IH. intros key category Hin. apply (H key category). now right.
  - exfalso. apply (H k c); [now left|exact E].
Qed.

(** With every [items] in place, the only error of the checklist is the
    one for a missing title. *)
Lemma checklist_throws_title (auditOptions : AuditOptions) :
  (forall key category, In (key, category) auditOptions ->
                        items category <> None) ->
  forall prompt e,
    checklist typeErrorMessage toUpperCase auditOptions prompt = Throws e ->
    e = TypeError typeErrorMessage (u "toUpperCase").
Proof.
  induction auditOptions as [|[k c] rest IH]; intros H prompt e; [discriminate|].
  cbn [checklist]. unfold categoryText.
  destruct (items c) as [its|] eqn:E;
    [|exfalso; apply (H k c); [now left|exact E]].
  assert (Hrest : forall key category, In (key, category) rest ->
                                       items category <> None)
    by (intros key category Hin; apply (H key category); now right).
  destruct (checkedItems its) as [|entry more]; [now apply IH|].
  destruct (cat_title c); [now apply IH|]. now intros [= <-].
Qed.

Lemma checklist_missing_title (auditOptions : AuditOptions)
    (key : jsstring) (category : Category) (its : list (jsstring * Item)) :
  (forall key category, In (key, category) auditOptions ->
                        items category <> None) ->
  In (key, category) auditOptions ->
  items category = Some its ->
  checkedItems its <> [] ->
  cat_title category = None ->
  forall prompt,
    checklist typeErrorMessage toUpperCase auditOptions prompt
    = Throws (TypeError typeErrorMessage (u "toUpperCase")).
Proof.
  intros Hall Hin Hits Hchecked Htitle.
  induction auditOptions as [|[k c] rest IH]; intros prompt; [destruct Hin|].
  assert (Hrest : forall key category, In (key, category) rest ->
                                       items category <> None)
    by (intros key' category' Hin'; apply (Hall key' category'); now right).
  destruct Hin as [Heq|Hin].
  - injection Heq as _ ->. cbn [checklist]. unfold categoryText.
    rewrite Hits. destruct (checkedItems its); [congruence|].
    now rewrite Htitle.
  - cbn [checklist].
    destruct (categoryText typeErrorMessage toUpperCase c) as [text|e] eqn:E.
    + now apply IH.
    + f_equal.
      apply (@checklist_throws_title [(k, c)]
               (fun key' category' Hin' =>
                  match Hin' with
                  | or_introl Heq =>
                      Hall key' category' (or_introl Heq)
                  | or_intror F => match F with end
                  end) prompt e).
      cbn [checklist]. now rewrite E.
Qed.

Lemma filter_checked_twice (its : list (jsstring * Item)) :
  checkedItems (checkedItems its) = checkedItems its.
Proof.
  unfold checkedItems. induction its as [|entry its IH]; [reflexivity|].
  cbn [filter]. destruct (checked (snd entry)) eqn:E; [|exact IH].
  cbn [filter]. now rewrite E, IH.
Qed.

Lemma custom_prompts_among_checked (its : list (jsstring * Item)) :
  filter (fun entry => checked (snd entry) && hasCustomPrompt (snd entry))
         (checkedItems its)
  = filter (fun entry => checked (snd entry) && hasCustomPrompt (snd entry)) its.
Proof.
  unfold checkedItems. induction its as [|entry its IH]; [reflexivity|].
  cbn [filter]. destruct (checked (snd entry)) eqn:E; [|exact IH].
  cbn [filter andb]. now rewrite E, IH.
Qed.

Lemma countCustomPrompts_onlyChecked (auditOptions : AuditOptions) (n : nat) :
  countCustomPrompts typeErrorMessage (onlyChecked auditOptions) n
  = countCustomPrompts typeErrorMessage auditOptions n.
Proof.
  revert n. induction auditOptions as [|[k c] rest IH]; intros n; [reflexivity|].
  cbn [onlyChecked map countCustomPrompts fst snd items].
  destruct (items c) as [its|]; [|reflexivity].
  rewrite custom_prompts_among_checked. apply IH.
Qed.

Lemma checklist_onlyChecked (auditOptions : AuditOptions) (prompt : jsstring) :
  checklist typeErrorMessage toUpperCase (onlyChecked auditOptions) prompt
  = checklist typeErrorMessage toUpperCase auditOptions prompt.
Proof.
  revert prompt.
  induction auditOptions as [|[k c] rest IH]; intros prompt; [reflexivity|].
  cbn [onlyChecked map checklist fst snd].
  assert (E : categoryText typeErrorMessage toUpperCase
                {| cat_title := cat_title c;
                   items := match items c with
                            | Some its => Some (checkedItems its)
                            | None => None
                            end |}
              = categoryText typeErrorMessage toUpperCase c).
  { unfold categoryText. cbn [items cat_title].
    destruct (items c) as [its|]; [|reflexivity].
    now rewrite filter_checked_twice. }
  rewrite E. destruct (categoryText typeErrorMessage toUpperCase c);
    [apply IH|reflexivity].
Qed.

End Engine.

Lemma countCustomPrompts_throws_plain
    (typeErrorMessage : jsstring -> jsstring)
    (auditOptions : AuditOptions) (n : nat) (e : JsError) :
  countCustomPrompts typeErrorMessage auditOptions n = Throws e ->
  status e = None.
Proof.
  revert n. induction auditOptions as [|[k c] rest IH]; intros n; [discriminate|].
  cbn [countCustomPrompts]. destruct (items c); [apply IH|now intros [= <-]].
Qed.

Lemma generateAuditPrompt_throws_plain
    (typeErrorMessage toUpperCase : jsstring -> jsstring)
    (renderContent :
       jsstring -> Snapshot.Snapshot -> option Psi.Result -> jsstring)
    (outputContract url : jsstring) (websiteContent : Snapshot.Snapshot)
    (psiData : option Psi.Result) (auditOptions : AuditOptions) (e : JsError) :
  generateAuditPrompt typeErrorMessage toUpperCase renderContent outputContract
    url websiteContent psiData auditOptions = Throws e ->
  status e = None.
Proof.
  unfold generateAuditPrompt.
  generalize (renderContent url websiteContent psiData).
  induction auditOptions as [|[k c] rest IH]; intros prompt; [discriminate|].
  cbn [checklist]. unfold categoryText.
  destruct (items c) as [its|]; [|now intros [= <-]].
  destruct (checkedItems its); [apply IH|].
  destruct (cat_title c); [apply IH|now intros [= <-]].
Qed.

(** X12. The error replies of the handler, once the limiter has let the
    request through, are these and no others: 400 for a missing URL, for
    missing options, or for a requested backend whose name does not start
    with gemini; 500 without details when the API key is not set; 500
    with the fixed text and the message of the error as details; and the
    two replies the catch has for an error with status 429 or 401, which
    are sent only when [text()] of the result of the backend that answered
    threw an error with that status.  So the status that an error of
    [generateContent] carries never decides the reply: the errors of the
    ladder end in 500 with details. *)
Theorem status_replies_come_from_text_only
    (typeErrorMessage toUpperCase : jsstring -> jsstring)
    (renderContent :
       jsstring -> Snapshot.Snapshot -> option Psi.Result -> jsstring)
    (outputContract : jsstring) (fadd fmul : Q -> Q -> Q)
    (cheerio_load : jsstring -> Snapshot.RawDom)
    (JSON_parse : jsstring -> Outcome unit)
    (generateContent : jsstring -> jsstring -> Outcome GenerateContentResult)
    (env : Snapshot.Env) (psiEnv : Psi.Env) (genAI : bool) (req : Request)
    (code : N) (error : jsstring) (details : option jsstring) :
  audit typeErrorMessage toUpperCase renderContent outputContract fadd fmul
    cheerio_load JSON_parse generateContent env psiEnv genAI req
  = ReplyError code error details ->
  (code = 400%N /\ details = None
   /\ (error = u "URL is required"
       \/ error = u "Audit options are required"
       \/ exists model,
           req_model req = Some model
           /\ startsWith model (u "gemini") = false
           /\ error
              = u "Unsupported model: " ++ model
                ++ u ". Use 'gemini-2.0-flash' (recommended) or 'gemini-1.5-flash'"))
  \/ (code = 500%N /\ details = None /\ genAI = false
      /\ error
         = u "Gemini API key not configured. Please set GEMINI_API_KEY in .env file.")
  \/ (code = 500%N
      /\ error = u "Failed to generate audit. Please try again."
      /\ exists msg, details = Some msg)
  \/ (exists prompt m r e,
         generateContent prompt m = Returns r
         /\ text r = Throws e
         /\ ((status e = Some 429%N /\ code = 429%N
              /\ error = u "API rate limit exceeded. Please try again later.")
             \/ (status e = Some 401%N /\ code = 500%N
                 /\ error
                    = u "Invalid API key. Please check server configuration."))
         /\ details = None).
Proof.
  assert (Hparts : forall c t d,
             ReplyError c t d = ReplyError code error details ->
             c = code /\ t = error /\ d = details).
  { intros c t d H.
    pose proof (f_equal (fun r => match r with
                                  | ReplyError c _ _ => c
                                  | ReplyJson _ => 0%N
                                  end) H) as Hc.
    pose proof (f_equal (fun r => match r with
                                  | ReplyError _ t _ => t
                                  | ReplyJson _ => []
                                  end) H) as Ht.
    pose proof (f_equal (fun r => match r with
                                  | ReplyError _ _ d => d
                                  | ReplyJson _ => None
                                  end) H) as Hd.
    cbn beta iota in Hc, Ht, Hd. auto. }
  assert (Hplain : forall e, status e = None ->
            handleError e = ReplyError code error details ->
            code = 500%N
            /\ error = u "Failed to generate audit. Please try again."
            /\ exists msg, details = Some msg).
  { intros e He. rewrite (handleError_plain _ He). intros H.
    destruct (Hparts _ _ _ H) as (<- & <- & <-). eauto. }
  assert (Hladder : forall prompt model e,
            callGemini JSON_parse (generateContent prompt) model = Throws e ->
            handleError e = ReplyError code error details ->
            (code = 500%N
             /\ error = u "Failed to generate audit. Please try again."
             /\ exists msg, details = Some msg)
            \/ (exists prompt m r e,
                   generateContent prompt m = Returns r
                   /\ text r = Throws e
                   /\ ((status e = Some 429%N /\ code = 429%N
                        /\ error
                           = u "API rate limit exceeded. Please try again later.")
                       \/ (status e = Some 401%N /\ code = 500%N
                           /\ error
                              = u "Invalid API key. Please check server configuration."))
                   /\ details = None)).
  { intros prompt model e E H.
    destruct (callGemini_throws _ _ _ E) as [He|(m & r & Hr & Ht)];
      [left; exact (Hplain e He H)|].
    destruct (handleError_cases e) as [(Hs & Hh)|[(Hs & Hh)|(_ & _ & Hh)]];
      rewrite Hh in H; destruct (Hparts _ _ _ H) as (<- & <- & <-).
    - right. exists prompt, m, r, e. repeat split; auto.
    - right. exists prompt, m, r, e. repeat split; auto.
    - left. eauto. }
  unfold audit.
  destruct (Snapshot.orEmpty (req_url req)) as [|c s].
  { intros H. destruct (Hparts _ _ _ H) as (<- & <- & <-). left. auto. }
  destruct (req_auditOptions req) as [auditOptions|].
  2:{ intros H. destruct (Hparts _ _ _ H) as (<- & <- & <-). left. auto. }
  destruct (countCustomPrompts typeErrorMessage auditOptions 0) as [n|e] eqn:Ec.
  2:{ intros H. right. right. left.
      apply (Hplain e (countCustomPrompts_throws_plain _ _ _ Ec) H). }
  destruct (fst (Snapshot.capture fadd cheerio_load env (c :: s)))
    as [content|e].
  2:{ intros H. right. right. left.
      apply (Hplain (new_Error (u "Failed to fetch website content"))
               eq_refl H). }
  destruct (generateAuditPrompt typeErrorMessage toUpperCase renderContent
              outputContract (c :: s) content
              (Psi.fetchPageSpeedInsights fmul psiEnv) auditOptions)
    as [prompt|e] eqn:Eg.
  2:{ intros H. right. right. left.
      apply (Hplain e (generateAuditPrompt_throws_plain _ _ _ _ _ _ _ _ Eg) H). }
  unfold api_audit_step3.
  destruct (req_model req) as [model|].
  - destruct (startsWith model (u "gemini")) eqn:Eg'.
    + destruct genAI; cbn [negb].
      * destruct (callGemini JSON_parse (generateContent prompt) model)
          as [response|e] eqn:E; [discriminate|].
        intros H. right. right. exact (Hladder _ _ _ E H).
      * intros H. destruct (Hparts _ _ _ H) as (<- & <- & <-).
        right. left. auto.
    + intros H. destruct (Hparts _ _ _ H) as (<- & <- & <-).
      left. repeat split. right. right. exists model. auto.
  - change (startsWith (u "gemini-2.0-flash") (u "gemini")) with true.
    cbn iota. destruct genAI; cbn [negb].
    + destruct (callGemini JSON_parse (generateContent prompt)
                  (u "gemini-2.0-flash")) as [response|e] eqn:E; [discriminate|].
      intros H. right. right. exact (Hladder _ _ _ E H).
    + intros H. destruct (Hparts _ _ _ H) as (<- & <- & <-).
      right. left. auto.
Qed.

Lemma status_replies_come_from_text_only_witness :
  Runs.audit Runs.throttled Samples.calm Runs.plain
  = ReplyError 500 (u "Failed to generate audit. Please try again.")
      (Some (u "Gemini API error: All models failed. Last error: Too Many Requests. Note: Some models may require billing to be enabled in Google AI Studio."))
  /\ exists prompt m r e,
      Runs.audit Runs.blocked Samples.calm Runs.plain
      = ReplyError 429 (u "API rate limit exceeded. Please try again later.")
                   None
      /\ Runs.blocked prompt m = Returns r
      /\ text r = Throws e
      /\ status e = Some 429%N.
Proof.
  split; [lazy; reflexivity|].
  assert (H : Runs.audit Runs.blocked Samples.calm Runs.plain
              = ReplyError 429
                  (u "API rate limit exceeded. Please try again later.") None)
    by (lazy; reflexivity).
  destruct (@status_replies_come_from_text_only
              Runs.typeErrorMessage Runs.toUpperCase Runs.renderContent
              Runs.outputContract Qplus Qmult Samples.noDom Samples.parse
              Runs.blocked Samples.calm Runs.noMetrics true Runs.plain
              _ _ _ H)
    as [(Hc & _)|[(Hc & _)|[(Hc & _)|(prompt & m & r & e & Hr & Ht & Hs & _)]]];
    try discriminate Hc.
  exists prompt, m, r, e. split; [exact H|]. split; [exact Hr|].
  split; [exact Ht|].
  destruct Hs as [(Hs & _)|(_ & Hc & _)]; [exact Hs|discriminate Hc].
Defined.

(** X13. A report is sent only when everything before it went through:
    the request has a URL, the API key is set, the capture returned a
    snapshot, the parser accepted the text that is sent, and the backend
    named in the reply is one of the four defaults and did return the
    result whose token counts the reply carries (zero for a count that is
    missing). *)
Theorem report_reply_has_passed_every_step
    (typeErrorMessage toUpperCase : jsstring -> jsstring)
    (renderContent :
       jsstring -> Snapshot.Snapshot -> option Psi.Result -> jsstring)
    (outputContract : jsstring) (fadd fmul : Q -> Q -> Q)
    (cheerio_load : jsstring -> Snapshot.RawDom)
    (JSON_parse : jsstring -> Outcome unit)
    (generateContent : jsstring -> jsstring -> Outcome GenerateContentResult)
    (env : Snapshot.Env) (psiEnv : Psi.Env) (genAI : bool) (req : Request)
    (response : Response) :
  audit typeErrorMessage toUpperCase renderContent outputContract fadd fmul
    cheerio_load JSON_parse generateContent env psiEnv genAI req
  = ReplyJson response ->
  (exists url, req_url req = Some url /\ url <> []
     /\ exists content,
         fst (Snapshot.capture fadd cheerio_load env url) = Returns content)
  /\ genAI = true
  /\ returned (JSON_parse (content_text response)) = true
  /\ In (model response) defaultModels
  /\ exists prompt r,
      generateContent prompt (model response) = Returns r
      /\ input_tokens (usage response) = orZero (promptTokenCount r)
      /\ output_tokens (usage response) = orZero (candidatesTokenCount r).
Proof.
  unfold audit.
  destruct (req_url req) as [[|c s]|]; cbn [Snapshot.orEmpty];
    try discriminate.
  destruct (req_auditOptions req) as [auditOptions|]; [|discriminate].
  destruct (countCustomPrompts typeErrorMessage auditOptions 0) as [n|e];
    [|unfold handleError; destruct (status e) as [[|p]|];
      try discriminate; destruct (N.pos p) eqn:E; try discriminate;
      repeat (match goal with
              | |- context [match ?x with _ => _ end] => destruct x
              end; try discriminate)].
  destruct (fst (Snapshot.capture fadd cheerio_load env (c :: s)))
    as [content|e] eqn:Ecap; [|discriminate].
  destruct (generateAuditPrompt typeErrorMessage toUpperCase renderContent
              outputContract (c :: s) content
              (Psi.fetchPageSpeedInsights fmul psiEnv) auditOptions)
    as [prompt|e];
    [|unfold handleError; destruct (status e) as [[|p]|];
      try discriminate;
      repeat (match goal with
              | |- context [match ?x with _ => _ end] => destruct x
              end; try discriminate)].
  unfold api_audit_step3.
  destruct (startsWith _ (u "gemini")); [|discriminate].
  destruct genAI; cbn [negb]; [|discriminate].
  destruct (callGemini JSON_parse (generateContent prompt) _)
    as [response'|e] eqn:E;
    [|unfold handleError; destruct (status e) as [[|p]|];
      try discriminate;
      repeat (match goal with
              | |- context [match ?x with _ => _ end] => destruct x
              end; try discriminate)].
  intros [= <-].
  split; [exists (c :: s); repeat split; [discriminate|eauto]|].
  split; [reflexivity|].
  split; [exact (ReconcilerFacts.returned_report_parses _ _ _ E)|].
  destruct (callGemini_model _ _ _ E) as (Hin & r & Hr & Hi & Ho).
  split; [exact (proj1 (modelsToTry_in_defaults _ _) Hin)|].
  exists prompt, r. auto.
Qed.

Lemma report_reply_has_passed_every_step_witness :
  exists response,
    Runs.audit Runs.obliging Samples.calm Runs.plain = ReplyJson response
    /\ returned (Samples.parse (content_text response)) = true
    /\ In (model response) defaultModels.
Proof.
  eexists. split; [lazy; reflexivity|].
  destruct (@report_reply_has_passed_every_step
              Runs.typeErrorMessage Runs.toUpperCase Runs.renderContent
              Runs.outputContract Qplus Qmult Samples.noDom Samples.parse
              Runs.obliging Samples.calm Runs.noMetrics true Runs.plain
              _ eq_refl) as (_ & _ & Hp & Hm & _).
  split; [exact Hp|exact Hm].
Defined.

(** X14. The order in which broken options are found.  A category
    without [items] makes the handler reply 500 with the [TypeError] as
    details before anything is fetched: the reply is the same in every
    run of the capture, of the metrics client and of the backends.  With
    every [items] in place, a category that has a checked item and no
    title is met only after the capture: the reply is 500 with the
    [TypeError] of the title when the capture returned, and 500 with the
    fetch failure when it threw. *)
Theorem broken_options_are_found_in_order
    (typeErrorMessage toUpperCase : jsstring -> jsstring)
    (renderContent :
       jsstring -> Snapshot.Snapshot -> option Psi.Result -> jsstring)
    (outputContract : jsstring) (fadd fmul : Q -> Q -> Q)
    (cheerio_load : jsstring -> Snapshot.RawDom)
    (JSON_parse : jsstring -> Outcome unit)
    (generateContent : jsstring -> jsstring -> Outcome GenerateContentResult)
    (env : Snapshot.Env) (psiEnv : Psi.Env) (genAI : bool) (req : Request)
    (url : jsstring) (auditOptions : AuditOptions)
    (key : jsstring) (category : Category) :
  req_url req = Some url -> url <> [] ->
  req_auditOptions req = Some auditOptions ->
  In (key, category) auditOptions ->
  (items category = None ->
   audit typeErrorMessage toUpperCase renderContent outputContract fadd fmul
     cheerio_load JSON_parse generateContent env psiEnv genAI req
   = ReplyError 500 (u "Failed to generate audit. Please try again.")
                (Some (typeErrorMessage (u "items"))))
  /\ (forall its,
         (forall key' category', In (key', category') auditOptions ->
                                 items category' <> None) ->
         items category = Some its ->
         checkedItems its <> [] ->
         cat_title category = None ->
         audit typeErrorMessage toUpperCase renderContent outputContract
           fadd fmul cheerio_load JSON_parse generateContent env psiEnv
           genAI req
         = ReplyError 500 (u "Failed to generate audit. Please try again.")
             (Some (if returned (fst (Snapshot.capture fadd cheerio_load
                                        env url))
                    then typeErrorMessage (u "toUpperCase")
                    else u "Failed to fetch website content"))).
Proof.
  intros Hurl Hne Hopts Hin. unfold audit. rewrite Hurl, Hopts.
  destruct url as [|c s]; [congruence|]. cbn [Snapshot.orEmpty].
  split.
  - intros Hnone.
    now rewrite (countCustomPrompts_missing_items typeErrorMessage _ _ _
                   Hin Hnone).
  - intros its Hall Hits Hchecked Htitle.
    destruct (countCustomPrompts_returns typeErrorMessage _ Hall 0)
      as (n & ->).
    destruct (fst (Snapshot.capture fadd cheerio_load env (c :: s)))
      as [content|e]; cbn [returned]; [|reflexivity].
    unfold generateAuditPrompt.
    now rewrite (checklist_missing_title typeErrorMessage toUpperCase _ _ _
                   Hall Hin Hits Hchecked Htitle).
Qed.

Lemma broken_options_are_found_in_order_witness :
  Runs.audit Runs.obliging Samples.calm Runs.malformed
  = ReplyError 500 (u "Failed to generate audit. Please try again.")
      (Some (Runs.typeErrorMessage (u "items")))
  /\ Runs.audit Runs.obliging Samples.hostile Runs.untitled
     = ReplyError 500 (u "Failed to generate audit. Please try again.")
         (Some (u "Failed to fetch website content")).
Proof.
  split.
  - apply (proj1 (@broken_options_are_found_in_order
             Runs.typeErrorMessage Runs.toUpperCase Runs.renderContent
             Runs.outputContract Qplus Qmult Samples.noDom Samples.parse
             Runs.obliging Samples.calm Runs.noMetrics true Runs.malformed
             (u "https://example.com")
             [(u "seo", Runs.seo);
              (u "ux", {| cat_title := Some (u "ux"); items := None |})]
             (u "ux") {| cat_title := Some (u "ux"); items := None |}
             eq_refl ltac:(discriminate) eq_refl
             (or_intror (or_introl eq_refl)))).
    reflexivity.
  - apply (proj2 (@broken_options_are_found_in_order
             Runs.typeErrorMessage Runs.toUpperCase Runs.renderContent
             Runs.outputContract Qplus Qmult Samples.noDom Samples.parse
             Runs.obliging Samples.hostile Runs.noMetrics true Runs.untitled
             (u "https://example.com")
             [(u "seo", {| cat_title := None;
                           items := Some [(u "meta", Runs.metaItem)] |})]
             (u "seo") {| cat_title := None;
                          items := Some [(u "meta", Runs.metaItem)] |}
             eq_refl ltac:(discriminate) eq_refl (or_introl eq_refl))
             [(u "meta", Runs.metaItem)]).
    + intros key' category' [Heq|[]]. injection Heq as _ <-. discriminate.
    + reflexivity.
    + discriminate.
    + reflexivity.
Defined.

(** X15. Items that are not checked do not matter: taking them out of the
    options of a request, with their labels and their custom prompts,
    changes nothing in the reply. *)
Theorem unchecked_items_do_not_matter
    (typeErrorMessage toUpperCase : jsstring -> jsstring)
    (renderContent :
       jsstring -> Snapshot.Snapshot -> option Psi.Result -> jsstring)
    (outputContract : jsstring) (fadd fmul : Q -> Q -> Q)
    (cheerio_load : jsstring -> Snapshot.RawDom)
    (JSON_parse : jsstring -> Outcome unit)
    (generateContent : jsstring -> jsstring -> Outcome GenerateContentResult)
    (env : Snapshot.Env) (psiEnv : Psi.Env) (genAI : bool) (req : Request) :
  audit typeErrorMessage toUpperCase renderContent outputContract fadd fmul
    cheerio_load JSON_parse generateContent env psiEnv genAI
    {| req_url := req_url req;
       req_auditOptions := option_map onlyChecked (req_auditOptions req);
       req_model := req_model req |}
  = audit typeErrorMessage toUpperCase renderContent outputContract fadd fmul
      cheerio_load JSON_parse generateContent env psiEnv genAI req.
Proof.
  unfold audit. cbn [req_url req_auditOptions req_model].
  destruct (Snapshot.orEmpty (req_url req)) as [|c s]; [reflexivity|].
  destruct (req_auditOptions req) as [auditOptions|]; [|reflexivity].
  cbn [option_map]. rewrite countCustomPrompts_onlyChecked.
  destruct (countCustomPrompts typeErrorMessage auditOptions 0); [|reflexivity].
  destruct (fst (Snapshot.capture fadd cheerio_load env (c :: s)));
    [|reflexivity].
  unfold generateAuditPrompt. now rewrite checklist_onlyChecked.
Qed.

(** X16. The limiter comes before everything else in the handler.  A
    refused request gets 429 whatever it holds, and the map is left as it
    was.  A request that is let through is recorded in the map before it
    is looked at: one that is then rejected with 400 for its missing URL
    has used up one of the ten requests of its address all the same. *)
Theorem quota_is_spent_before_validation
    (typeErrorMessage toUpperCase : jsstring -> jsstring)
    (renderContent :
       jsstring -> Snapshot.Snapshot -> option Psi.Result -> jsstring)
    (outputContract : jsstring) (fadd fmul : Q -> Q -> Q)
    (cheerio_load : jsstring -> Snapshot.RawDom)
    (JSON_parse : jsstring -> Outcome unit)
    (generateContent : jsstring -> jsstring -> Outcome GenerateContentResult)
    (now : Z) (env : Snapshot.Env) (psiEnv : Psi.Env) (genAI : bool)
    (clientIp : jsstring) (req : Request) (requestCounts : RateLimit.Store) :
  let recent :=
    filter (RateLimit.inWindow now)
           (RateLimit.userRequests requestCounts clientIp) in
  let out :=
    api_audit typeErrorMessage toUpperCase renderContent outputContract
      fadd fmul cheerio_load JSON_parse generateContent now env psiEnv genAI
      clientIp req requestCounts in
  ((RateLimit.RATE_LIMIT <= length recent)%nat ->
   out = (ReplyError 429 (u "Rate limit exceeded. Please try again later.")
                     None, requestCounts))
  /\ ((length recent < RateLimit.RATE_LIMIT)%nat ->
      fst out
      = audit typeErrorMessage toUpperCase renderContent outputContract
          fadd fmul cheerio_load JSON_parse generateContent env psiEnv genAI
          req
      /\ RateLimit.userRequests (snd out) clientIp = recent ++ [now]
      /\ (Snapshot.orEmpty (req_url req) = [] ->
          fst out = ReplyError 400 (u "URL is required") None)).
Proof.
  cbn zeta. unfold api_audit, RateLimit.checkRateLimit.
  split; intros H.
  - apply Nat.leb_le in H. now rewrite H.
  - apply Nat.leb_gt in H. rewrite H. cbn [negb fst snd].
    split; [reflexivity|].
    split; [apply RateLimitFacts.userRequests_set_same|].
    intros Hurl. unfold audit. now rewrite Hurl.
Qed.

(** A text includes another one when it is that text with something
    before and after it. *)
Lemma includes_iff (a m : jsstring) :
  includes a m = true <-> exists pre post, a = pre ++ m ++ post.
Proof.
  split.
  - induction a as [|c a IH]; cbn [includes]; intros H.
    + rewrite orb_false_r in H. destruct m; [|discriminate].
      now exists [], [].
    + apply orb_true_iff in H. destruct H as [H|H].
      * exists [], (skipn (length m) (c :: a)).
        apply RegexFacts.startsWith_skipn, H.
      * destruct (IH H) as (pre & post & ->). now exists (c :: pre), post.
  - intros (pre & post & ->). apply ReconcilerFacts.includes_app.
Qed.

Lemma includes_within (a b m pre post : jsstring) :
  includes b m = true -> a = pre ++ b ++ post -> includes a m = true.
Proof.
  intros H ->. apply includes_iff in H. destruct H as (p & q & ->).
  apply includes_iff. exists (pre ++ p), (q ++ post).
  now rewrite <- !app_assoc.
Qed.

Lemma includes_concat (x : jsstring) (xs : list jsstring) :
  In x xs -> includes (concat xs) x = true.
Proof.
  induction xs as [|y ys IH]; intros H; [destruct H|].
  cbn [concat]. destruct H as [->|H].
  - apply includes_iff. exists [], (concat ys). reflexivity.
  - apply (@includes_within _ (concat ys) _ y []); [now apply IH|].
    now rewrite app_nil_r.
Qed.

Section Prompt.

Variable typeErrorMessage : jsstring -> jsstring.
Variable toUpperCase : jsstring -> jsstring.

(** What a category adds holds its heading and every checked item. *)
Lemma categoryText_holds (category : Category) (text : jsstring)
    (its : list (jsstring * Item)) (k : jsstring) (item : Item) :
  categoryText typeErrorMessage toUpperCase category = Returns text ->
  items category = Some its ->
  In (k, item) its -> checked item = true ->
  includes text (itemText item) = true
  /\ exists title,
      cat_title category = Some title
      /\ startsWith text (newline ++ u "## " ++ toUpperCase title ++ newline)
         = true.
Proof.
  unfold categoryText. intros H Hits Hin Hc. rewrite Hits in H.
  assert (Hin' : In (k, item) (checkedItems its))
    by (apply filter_In; split; [exact Hin|exact Hc]).
  destruct (checkedItems its) as [|entry more] eqn:E; [destruct Hin'|].
  destruct (cat_title category) as [title|]; [|discriminate].
  apply CaptureMore.Returns_inj in H. subst text. split.
  - apply (@includes_within _
             (concat (map (fun e => itemText (snd e)) (entry :: more))) _
             (newline ++ u "## " ++ toUpperCase title ++ newline) []).
    + apply includes_concat.
      apply (in_map (fun e => itemText (snd e)) _ _ Hin').
    + now rewrite app_nil_r, <- !app_assoc.
  - exists title. split; [reflexivity|].
    rewrite !app_assoc. rewrite <- !app_assoc.
    replace (newline ++ u "## " ++ toUpperCase title ++ newline
             ++ concat (map (fun e => itemText (snd e)) (entry :: more)))
      with ((newline ++ u "## " ++ toUpperCase title ++ newline)
            ++ concat (map (fun e => itemText (snd e)) (entry :: more)))
      by now rewrite <- !app_assoc.
    apply ReconcilerFacts.startsWith_app.
Qed.

(** The loop only appends, and what it appends holds the text of every
    category. *)
Lemma checklist_grows (auditOptions : AuditOptions) :
  forall prompt prompt',
    checklist typeErrorMessage toUpperCase auditOptions prompt
    = Returns prompt' ->
    exists tail,
      prompt' = prompt ++ tail
      /\ forall key category,
          In (key, category) auditOptions ->
          exists text,
            categoryText typeErrorMessage toUpperCase category = Returns text
            /\ includes tail text = true.
Proof.
  induction auditOptions as [|[k c] rest IH]; intros prompt prompt' H.
  - apply CaptureMore.Returns_inj in H. subst prompt'. exists [].
    split; [now rewrite app_nil_r|intros ? ? []].
  - cbn [checklist] in H.
    destruct (categoryText typeErrorMessage toUpperCase c) as [text0|] eqn:E;
      [|discriminate].
    destruct (IH _ _ H) as (tail & -> & Htail).
    exists (text0 ++ tail). split; [now rewrite app_assoc|].
    intros key category [Heq|Hin].
    + injection Heq as _ <-. exists text0. split; [exact E|].
      apply includes_iff. now exists [], tail.
    + destruct (Htail key category Hin) as (text & Ht & Hi).
      exists text. split; [exact Ht|].
      apply (@includes_within _ tail _ text0 []); [exact Hi|].
      now rewrite app_nil_r.
Qed.

End Prompt.

(** X17. No checked item is left out of the prompt.  When the prompt is
    built, it is the rendered content, then the checklist, then the output
    contract; and for every checked item of every category the checklist
    holds the heading of the category and the text of the item: its label
    and, when its custom prompt is not blank, the custom prompt under the
    warning line. *)
Theorem checked_items_reach_the_prompt
    (typeErrorMessage toUpperCase : jsstring -> jsstring)
    (renderContent :
       jsstring -> Snapshot.Snapshot -> option Psi.Result -> jsstring)
    (outputContract url : jsstring) (websiteContent : Snapshot.Snapshot)
    (psiData : option Psi.Result) (auditOptions : AuditOptions)
    (prompt : jsstring) :
  generateAuditPrompt typeErrorMessage toUpperCase renderContent
    outputContract url websiteContent psiData auditOptions
  = Returns prompt ->
  exists tail,
    prompt = renderContent url websiteContent psiData ++ tail ++ outputContract
    /\ forall key category its k item,
        In (key, category) auditOptions ->
        items category = Some its ->
        In (k, item) its -> checked item = true ->
        includes tail (itemText item) = true
        /\ includes (itemText item) (checkMark ++ u " " ++ label item) = true
        /\ (hasCustomPrompt item = true ->
            includes (itemText item)
                     (warningSign ++ j " CUSTOM INSTRUCTIONS") = true
            /\ includes (itemText item)
                        (newline ++ Snapshot.orEmpty (Handler.prompt item)
                         ++ newline) = true)
        /\ exists title,
            cat_title category = Some title
            /\ includes tail (newline ++ u "## " ++ toUpperCase title ++ newline)
               = true.
Proof.
  unfold generateAuditPrompt.
  destruct (checklist typeErrorMessage toUpperCase auditOptions
              (renderContent url websiteContent psiData)) as [p|] eqn:E;
    [|discriminate].
  intros H. apply CaptureMore.Returns_inj in H. subst prompt.
  destruct (checklist_grows _ _ _ _ E) as (tail & -> & Htail).
  exists tail. split; [now rewrite app_assoc|].
  intros key category its k item Hin Hits Hitem Hc.
  destruct (Htail key category Hin) as (text & Ht & Hi).
  destruct (categoryText_holds _ _ _ _ _ Ht Hits Hitem Hc)
    as (Hitem' & title & Htitle & Hhead).
  apply includes_iff in Hi. destruct Hi as (pre & post & Hl).
  split; [exact (@includes_within _ _ _ _ _ Hitem' Hl)|].
  split.
  { unfold itemText. apply includes_iff. exists newline. eexists.
    rewrite <- !app_assoc. reflexivity. }
  split.
  { intros Hcustom. unfold itemText. rewrite Hcustom. split.
    - apply includes_iff.
      exists (newline ++ checkMark ++ u " " ++ label item ++ newline ++ newline).
      eexists. rewrite <- !app_assoc.
      change (j " CUSTOM INSTRUCTIONS (HIGHEST PRIORITY - override default behavior if needed, but keep '")
        with (j " CUSTOM INSTRUCTIONS"
              ++ j " (HIGHEST PRIORITY - override default behavior if needed, but keep '").
      rewrite <- !app_assoc. reflexivity.
    - apply includes_iff.
      exists (newline ++ checkMark ++ u " " ++ label item ++ newline
              ++ newline ++ warningSign
              ++ j " CUSTOM INSTRUCTIONS (HIGHEST PRIORITY - override default behavior if needed, but keep '"
              ++ label item ++ j "' as the main assessment context):"), [].
      rewrite <- !app_assoc. reflexivity. }
  exists title. split; [exact Htitle|].
  apply (@includes_within _ _ _ _ _
           (ReconcilerFacts.includes_prefix _ _ Hhead) Hl).
Qed.

Lemma checked_items_reach_the_prompt_witness :
  exists prompt,
    generateAuditPrompt Runs.typeErrorMessage Runs.toUpperCase
      Runs.renderContent Runs.outputContract (u "https://example.com")
      (Snapshot.mkSnapshot [] [] (Snapshot.structuredDataOf [] Samples.emptyDom)
         Snapshot.Absent Snapshot.Absent Snapshot.Absent Snapshot.Null [])
      None [(u "seo", Runs.seo)]
    = Returns prompt
    /\ includes prompt (itemText Runs.metaItem) = true.
Proof.
  eexists. split; [lazy; reflexivity|].
  destruct (@checked_items_reach_the_prompt
              Runs.typeErrorMessage Runs.toUpperCase
              Runs.renderContent Runs.outputContract (u "https://example.com")
              (Snapshot.mkSnapshot [] []
                 (Snapshot.structuredDataOf [] Samples.emptyDom)
                 Snapshot.Absent Snapshot.Absent Snapshot.Absent
                 Snapshot.Null [])
              None [(u "seo", Runs.seo)] _ eq_refl) as (tail & Hp & H).
  destruct (H (u "seo") Runs.seo
              [(u "meta", Runs.metaItem); (u "alt", Runs.altItem)]
              (u "meta") Runs.metaItem
              (or_introl eq_refl) eq_refl (or_introl eq_refl) eq_refl)
    as (Hi & _).
  apply (@includes_within _ _ _ _ _ Hi Hp).
Defined.

End HandlerFacts.

(* ================================================================== *)
(** * The external metrics client *)

Module PsiFacts.

Import Psi.

Lemma assign_keys_old {A} (obj : list (jsstring * A)) (key : jsstring) (v : A) :
  In key (map fst obj) -> map fst (assign obj key v) = map fst obj.
Proof.
  induction obj as [|[k w] obj IH]; intros H; [destruct H|].
  cbn [assign]. destruct (jseq k key) eqn:E; [reflexivity|].
  cbn [map fst]. f_equal. apply IH.
  destruct H as [H|H]; [|exact H].
  cbn [fst] in H. subst k. now rewrite jseq_refl in E.
Qed.

Lemma assign_keys_new {A} (obj : list (jsstring * A)) (key : jsstring) (v : A) :
  ~ In key (map fst obj) -> map fst (assign obj key v) = map fst obj ++ [key].
Proof.
  induction obj as [|[k w] obj IH]; intros H; [reflexivity|].
  cbn [assign]. destruct (jseq k key) eqn:E.
  - apply jseq_true in E. exfalso. apply H. now left.
  - cbn [map fst app]. f_equal. apply IH. intros Hin. apply H. now right.
Qed.

Lemma assign_keys {A} (obj : list (jsstring * A)) (key : jsstring) (v : A) :
  forall k, In k (map fst (assign obj key v)) <-> k = key \/ In k (map fst obj).
Proof.
  intros k. destruct (in_dec (list_eq_dec N.eq_dec) key (map fst obj)) as [H|H].
  - rewrite (assign_keys_old _ _ v H). split; [auto|].
    intros [->|Hin]; auto.
  - rewrite (assign_keys_new _ _ v H), in_app_iff. cbn [In].
    split; [intros [Hin|[<-|[]]]; auto|intros [->|Hin]; auto].
Qed.

Lemma assign_NoDup {A} (obj : list (jsstring * A)) (key : jsstring) (v : A) :
  NoDup (map fst obj) -> NoDup (map fst (assign obj key v)).
Proof.
  intros Hnd.
  destruct (in_dec (list_eq_dec N.eq_dec) key (map fst obj)) as [H|H].
  - now rewrite (assign_keys_old _ _ v H).
  - rewrite (assign_keys_new _ _ v H).
    induction (map fst obj) as [|k l IH]; [repeat constructor; intros []|].
    apply NoDup_cons_iff in Hnd. destruct Hnd as [Hk Hnd].
    cbn [app]. constructor.
    + rewrite in_app_iff. cbn [In]. intros [Hin|[<-|[]]]; [contradiction|].
      apply H. now left.
    + apply IH; [exact Hnd|]. intros Hin. apply H. now right.
Qed.

(** The keys the loop over the audits leaves. *)
Lemma collectAccessibility_keys (audits : list (jsstring * Audit)) :
  forall acc k,
    In k (map fst (collectAccessibility audits acc))
    <-> In k (map fst acc)
        \/ exists key audit,
            In (key, audit) audits
            /\ audit_id audit = Some k
            /\ startsWith k (u "accessibility") = true.
Proof.
  induction audits as [|[key audit] rest IH]; intros acc k.
  - cbn [collectAccessibility]. split; [auto|].
    intros [H|(? & ? & [] & _)]. exact H.
  - cbn [collectAccessibility]. rewrite IH. clear IH.
    destruct (audit_id audit) as [id|] eqn:Eid.
    + destruct (startsWith id (u "accessibility")) eqn:Es.
      * assert (Ht : Audit.truthy id = true) by (destruct id; [discriminate|reflexivity]).
        rewrite Ht. cbn [andb]. rewrite assign_keys. split.
        -- intros [[->|H]|(key' & audit' & Hin & Hid & Hs)]; auto.
           ++ right. exists key, audit. repeat split; auto. now left.
           ++ right. exists key', audit'. repeat split; auto. now right.
        -- intros [H|(key' & audit' & [Heq|Hin] & Hid & Hs)]; auto.
           ++ injection Heq as _ <-. left. left. congruence.
           ++ right. exists key', audit'. auto.
      * rewrite andb_false_r. split.
        -- intros [H|(key' & audit' & Hin & Hid & Hs)]; auto.
           right. exists key', audit'. repeat split; auto. now right.
        -- intros [H|(key' & audit' & [Heq|Hin] & Hid & Hs)]; auto.
           ++ injection Heq as _ <-. congruence.
           ++ right. exists key', audit'. auto.
    + split.
      * intros [H|(key' & audit' & Hin & Hid & Hs)]; auto.
        right. exists key', audit'. repeat split; auto. now right.
      * intros [H|(key' & audit' & [Heq|Hin] & Hid & Hs)]; auto.
        -- injection Heq as _ <-. congruence.
        -- right. exists key', audit'. auto.
Qed.

Lemma collectAccessibility_NoDup (audits : list (jsstring * Audit)) :
  forall acc,
    NoDup (map fst acc) ->
    NoDup (map fst (collectAccessibility audits acc)).
Proof.
  induction audits as [|[key audit] rest IH]; intros acc H; [exact H|].
  cbn [collectAccessibility]. apply IH.
  destruct (audit_id audit) as [id|]; [|exact H].
  destruct (Audit.truthy id && startsWith id (u "accessibility"));
    [now apply assign_NoDup|exact H].
Qed.

(** The keys the loop over the metric names leaves: the names that the
    audits hold, in the order of the names. *)
Lemma collectMetrics_keys (audits : list (jsstring * Audit))
    (ids : list jsstring) :
  NoDup ids ->
  forall acc,
    (forall id, In id ids -> ~ In id (map fst acc)) ->
    map fst (collectMetrics audits ids acc)
    = map fst acc
      ++ filter (fun id => match lookup audits id with
                           | Some _ => true
                           | None => false
                           end) ids.
Proof.
  induction ids as [|id ids IH]; intros Hnd acc Hfresh.
  - cbn. now rewrite app_nil_r.
  - apply NoDup_cons_iff in Hnd. destruct Hnd as [Hid Hnd].
    cbn [collectMetrics filter]. destruct (lookup audits id) as [audit|].
    + rewrite (IH Hnd).
      * rewrite assign_keys_new by (apply Hfresh; now left).
        now rewrite <- app_assoc.
      * intros id' Hin. rewrite assign_keys. intros [->|H]; [contradiction|].
        apply (Hfresh id'); [now right|exact H].
    + apply (IH Hnd). intros id' Hin. apply Hfresh. now right.
Qed.

Lemma metricIds_NoDup : NoDup metricIds.
Proof.
  unfold metricIds.
  repeat (constructor; [cbn [In]; intros H;
                        repeat (destruct H as [H|H]; [vm_compute in H; discriminate|]);
                        exact H|]).
  constructor.
Qed.

Lemma percent_none (fmul : Q -> Q -> Q) (score : option Q) :
  percent fmul score = None
  <-> match score with
      | Some q => Qeq_bool q 0 = true
      | None => True
      end.
Proof.
  unfold percent. destruct score as [q|]; [|tauto].
  destruct (Qeq_bool q 0); split; intros; auto; discriminate.
Qed.

(** X18. The metrics client puts up with a failed request, not with an
    unreadable body.  With the key set: if a request that was answered
    with an ok status has a body that cannot be read, the client returns
    [null], whatever the other strategy brought; if both requests failed
    or were answered with another status, it returns [null]; if one of
    them failed so and the other brought a body, the result holds the data
    of that other strategy and [null] for the failed one. *)
Theorem metrics_survive_a_failed_request_only
    (fmul : Q -> Q -> Q) (env : Env) (key : jsstring) :
  psiApiKey env = Some key -> key <> [] ->
  ((exists h e, mobileResponse env = Returns h
                /\ psi_ok h = true /\ psi_json h = Throws e)
   \/ (exists h e, desktopResponse env = Returns h
                   /\ psi_ok h = true /\ psi_json h = Throws e) ->
   fetchPageSpeedInsights fmul env = None)
  /\ (usable (mobileResponse env) = false ->
      usable (desktopResponse env) = false ->
      fetchPageSpeedInsights fmul env = None)
  /\ (forall h body,
         usable (mobileResponse env) = false ->
         desktopResponse env = Returns h ->
         psi_ok h = true -> psi_json h = Returns (Some body) ->
         fetchPageSpeedInsights fmul env
         = Some {| mobile := None;
                   desktop := extractPSIData fmul (Some body) (u "desktop");
                   fetchedAt := psi_now env |})
  /\ (forall h body,
         usable (desktopResponse env) = false ->
         mobileResponse env = Returns h ->
         psi_ok h = true -> psi_json h = Returns (Some body) ->
         fetchPageSpeedInsights fmul env
         = Some {| mobile := extractPSIData fmul (Some body) (u "mobile");
                   desktop := None;
                   fetchedAt := psi_now env |}).
Proof.
  intros Hkey Hne. unfold fetchPageSpeedInsights. rewrite Hkey.
  cbn [Snapshot.orEmpty]. destruct key as [|c key]; [congruence|].
  cbn [Audit.truthy]. unfold dataOf, usable. split; [|split; [|split]].
  - intros [(h & e & -> & -> & ->)|(h & e & -> & -> & ->)]; [reflexivity|].
    destruct (mobileResponse env) as [h'|]; [|reflexivity].
    destruct (psi_ok h'); [|reflexivity].
    destruct (psi_json h'); reflexivity.
  - destruct (mobileResponse env) as [hm|];
      destruct (desktopResponse env) as [hd|];
      try destruct (psi_ok hm); try destruct (psi_ok hd);
      intros; try discriminate; reflexivity.
  - intros h body Hm -> -> ->.
    destruct (mobileResponse env) as [hm|]; [|reflexivity].
    destruct (psi_ok hm); [discriminate|reflexivity].
  - intros h body Hd -> -> ->.
    destruct (desktopResponse env) as [hd|];
      [destruct (psi_ok hd); [discriminate|]|]; destruct body; reflexivity.
Qed.

Lemma metrics_survive_a_failed_request_only_witness :
  fetchPageSpeedInsights Qmult Runs.desktopOnly
  = Some {| mobile := None;
            desktop := extractPSIData Qmult (Some Runs.report) (u "desktop");
            fetchedAt := psi_now Runs.desktopOnly |}.
Proof.
  destruct (@metrics_survive_a_failed_request_only Qmult Runs.desktopOnly
              (u "key") eq_refl ltac:(discriminate)) as (_ & _ & Hd & _).
  apply (Hd {| psi_ok := true; psi_json := Returns (Some Runs.report) |}
            Runs.report); reflexivity.
Defined.

(** X19. What the client keeps of a report.  The accessibility audits
    are keyed by the names of the audits whose name starts with
    accessibility, each name once; the metrics are keyed by those of the
    five metric names that the report holds, in the order of the names;
    the strategy is the one asked for; and a category score is reported
    as missing exactly when the category or its score is missing or the
    score is zero. *)
Theorem kept_metrics_are_keyed_by_name
    (fmul : Q -> Q -> Q) (psiResponse : option Body) (strategy' : jsstring)
    (d : Data) :
  extractPSIData fmul psiResponse strategy' = Some d ->
  exists lhr,
    psiResponse = Some {| lighthouseResult := Some lhr |}
    /\ strategy d = strategy'
    /\ NoDup (map fst (accessibilityAudits d))
    /\ (forall k,
           In k (map fst (accessibilityAudits d))
           <-> exists key audit,
               In (key, audit) (match audits lhr with Some a => a | None => [] end)
               /\ audit_id audit = Some k
               /\ startsWith k (u "accessibility") = true)
    /\ map fst (performanceMetrics d)
       = filter (fun id =>
                   match lookup (match audits lhr with
                                 | Some a => a
                                 | None => []
                                 end) id with
                   | Some _ => true
                   | None => false
                   end) metricIds
    /\ (accessibility (scores d) = None
        <-> match categories lhr with
            | Some c => match cat_accessibility c with
                        | Some q => Qeq_bool q 0 = true
                        | None => True
                        end
            | None => True
            end)
    /\ (performance (scores d) = None
        <-> match categories lhr with
            | Some c => match cat_performance c with
                        | Some q => Qeq_bool q 0 = true
                        | None => True
                        end
            | None => True
            end).
Proof.
  unfold extractPSIData.
  destruct psiResponse as [[[lhr|]]|]; try discriminate.
  intros H. apply CaptureMore.Some_inj in H. subst d. exists lhr.
  cbn [strategy accessibilityAudits performanceMetrics scores accessibility
       performance].
  split; [reflexivity|]. split; [reflexivity|].
  split; [apply collectAccessibility_NoDup; constructor|].
  split.
  { intros k. rewrite collectAccessibility_keys. cbn [map In]. tauto. }
  split.
  { rewrite (collectMetrics_keys _ metricIds_NoDup); [reflexivity|].
    intros id _ []. }
  split; rewrite percent_none; destruct (categories lhr); cbn; tauto.
Qed.

Lemma kept_metrics_are_keyed_by_name_witness :
  exists d,
    extractPSIData Qmult (Some Runs.report) (u "desktop") = Some d
    /\ map fst (performanceMetrics d) = [u "largest-contentful-paint"]
    /\ accessibility (scores d) = None.
Proof.
  destruct (extractPSIData Qmult (Some Runs.report) (u "desktop"))
    as [d|] eqn:E; [|lazy in E; discriminate].
  exists d. split; [reflexivity|].
  destruct (@kept_metrics_are_keyed_by_name Qmult (Some Runs.report)
              (u "desktop") d E)
    as (lhr & Hl & _ & _ & _ & Hm & Ha & _).
  apply CaptureMore.Some_inj in Hl.
  pose proof (f_equal (fun b => match lighthouseResult b with
                                | Some l => l
                                | None => lhr
                                end) Hl) as El.
  cbn in El. subst lhr.
  split; [rewrite Hm; vm_compute; reflexivity|].
  apply Ha. vm_compute. reflexivity.
Defined.

End PsiFacts.

(* ================================================================== *)
(** * More on the desktop style probe *)

Module ProbeMore.

Import Probe.

Lemma scanLabels_cases (labels : list RawLabel) :
  forall acc,
    (fst (scanLabels labels acc) = true -> fst acc = true \/ labels <> [])
    /\ (fst (scanLabels labels acc) = false ->
        scanLabels labels acc = acc).
Proof.
  induction labels as [|label rest IH]; intros acc.
  - cbn [scanLabels]. split; auto.
  - cbn [scanLabels]. split; [intros _; right; discriminate|].
    destruct (isnt (l_display label) "none" && isnt (l_visibility label) "hidden"
              && isnt (l_opacity label) "0"); intros H.
    + destruct (IH (true, trim (l_text label))) as [_ IH2].
      rewrite (IH2 H) in H. discriminate.
    + destruct (IH acc) as [_ IH2]. exact (IH2 H).
Qed.

Lemma filter_implies_length {A} (f g : A -> bool) (l : list A) :
  (forall a, f a = true -> g a = true) ->
  (length (filter f l) <= length (filter g l))%nat.
Proof.
  intros H. induction l as [|a l IH]; [reflexivity|].
  cbn [filter]. destruct (f a) eqn:E.
  - rewrite (H a E). cbn [length]. lia.
  - destruct (g a); cbn [length]; lia.
Qed.

(** X20. The label facts of a form control hang together.  A label that
    is reported visible is a label that is reported present; without a
    visible label the label text is empty; the text is cut at 50 units.
    And an [aria-label] that is not empty makes the label count as
    visible and supplies the text, whatever the styles of the label
    elements are. *)
Theorem label_facts_hang_together (input : RawInput) :
  (labelVisible (labelFacts input) = true ->
   hasLabel (labelFacts input) = true)
  /\ (labelVisible (labelFacts input) = false ->
      labelText (labelFacts input) = [])
  /\ (length (labelText (labelFacts input)) <= 50)%nat
  /\ (forall ariaLabel,
         in_ariaLabel input = Some ariaLabel -> ariaLabel <> [] ->
         labelVisible (labelFacts input) = true
         /\ labelText (labelFacts input) = substring0 50 ariaLabel).
Proof.
  unfold labelFacts.
  destruct (scanLabels_cases (in_labels input) (false, [])) as [Ht Hf].
  destruct (scanLabels (in_labels input) (false, [])) as [v t] eqn:E.
  cbn [fst] in Ht, Hf.
  assert (Hs1 : v = true -> (0 <? length (in_labels input))%nat = true).
  { intros Hv. destruct (Ht Hv) as [H|H]; [discriminate|].
    destruct (in_labels input); [congruence|reflexivity]. }
  assert (Hs2 : v = false -> t = []).
  { intros Hv. specialize (Hf Hv). congruence. }
  destruct (Snapshot.orEmpty (in_ariaLabel input)) as [|a0 a] eqn:Ea.
  - assert (H4 : forall ariaLabel,
               in_ariaLabel input = Some ariaLabel -> ariaLabel <> [] ->
               False).
    { intros ariaLabel Hsome Hne. rewrite Hsome in Ea. cbn in Ea.
      congruence. }
    destruct (Snapshot.orEmpty (in_ariaLabelledBy input)) as [|b0 b] eqn:Eb.
    + cbn [hasLabel labelVisible labelText Audit.truthy].
      rewrite !orb_false_r.
      split; [exact Hs1|].
      split; [intros Hv; now rewrite (Hs2 Hv)|].
      split; [apply firstn_le_length|].
      intros ariaLabel Hsome Hne. destruct (H4 _ Hsome Hne).
    + destruct (in_labelledByTarget input) as [labelEl|];
        [destruct (isnt (l_display labelEl) "none"
                   && isnt (l_visibility labelEl) "hidden")|];
        cbn [hasLabel labelVisible labelText Audit.truthy];
        rewrite orb_true_r;
        (split; [reflexivity|]);
        (split; [first [discriminate|intros Hv; now rewrite (Hs2 Hv)]|]);
        (split; [apply firstn_le_length|]);
        intros ariaLabel Hsome Hne; destruct (H4 _ Hsome Hne).
  - cbn [hasLabel labelVisible labelText Audit.truthy].
    rewrite orb_true_r.
    split; [reflexivity|].
    split; [discriminate|].
    split; [apply firstn_le_length|].
    intros ariaLabel Hsome Hne. rewrite Hsome in Ea. cbn in Ea. subst ariaLabel.
    split; reflexivity.
Qed.

(** X21. The two lists of the interactive-state loop.  At most 25
    elements are looked at; every entry whose focus is reported visible is
    also reported distinct from the normal state; the hover-only list is
    no longer than the number of entries with a title and without an
    [aria-label], each of its entries has a tooltip that is not empty, and
    its texts are cut at 40 units. *)
Theorem focus_and_hover_lists (els : list RawInteractive) :
  (length (fst (interactiveStates els)) <= 25)%nat
  /\ (forall f, In f (fst (interactiveStates els)) ->
                hasVisibleFocus f = true -> isDistinctFromNormal f = true)
  /\ (length (snd (interactiveStates els))
      <= length (filter (fun f => hasTitle f && negb (hasAriaLabel f))
                        (fst (interactiveStates els))))%nat
  /\ (forall h, In h (snd (interactiveStates els)) ->
                ho_tooltip h <> [] /\ (length (ho_text h) <= 40)%nat).
Proof.
  unfold interactiveStates. cbn [fst snd].
  split; [rewrite length_map; apply firstn_le_length|].
  split.
  { intros f Hin. apply in_map_iff in Hin. destruct Hin as (el & <- & _).
    unfold focusFacts. cbn [hasVisibleFocus isDistinctFromNormal].
    intros H. apply andb_true_iff in H. destruct H as [-> _].
    apply orb_true_r. }
  split.
  { rewrite length_map.
    assert (E : forall l,
               filter (fun f => hasTitle f && negb (hasAriaLabel f))
                      (map focusFacts l)
               = map focusFacts
                   (filter (fun el => hasTitle (focusFacts el)
                                      && negb (hasAriaLabel (focusFacts el))) l)).
    { induction l as [|el l IH]; [reflexivity|]. cbn [map filter].
      destruct (hasTitle (focusFacts el) && negb (hasAriaLabel (focusFacts el)));
        cbn [map]; now rewrite IH. }
    rewrite E, length_map. apply filter_implies_length.
    intros el H. unfold isHoverOnly in H. unfold focusFacts.
    cbn [hasTitle hasAriaLabel].
    apply andb_true_iff in H. destruct H as [H _]. exact H. }
  intros h Hin. apply in_map_iff in Hin. destruct Hin as (el & <- & Hel).
  apply filter_In in Hel. destruct Hel as [_ Hel]. cbn [ho_tooltip ho_text].
  split; [|apply firstn_le_length].
  unfold isHoverOnly in Hel.
  destruct (Snapshot.orEmpty (ri_title el)); [discriminate|discriminate].
Qed.

Lemma figures_do_not_include (figures tail m : jsstring) (c : N) :
  forallb isFigure figures = true ->
  isFigure c = false ->
  includes tail (c :: m) = false ->
  includes (figures ++ tail) (c :: m) = false.
Proof.
  intros Hf Hc Ht. induction figures as [|d figures IH]; [exact Ht|].
  cbn [forallb] in Hf. apply andb_true_iff in Hf. destruct Hf as [Hd Hf].
  cbn [app includes startsWith]. rewrite (IH Hf), orb_false_r.
  destruct (N.eqb_spec d c) as [->|_]; [congruence|reflexivity].
Qed.

(** X24. The test for a relative unit.  Its check for rem never decides
    anything, since a text that holds rem holds em: the verdict is that
    of the checks for em, normal and inherit on a value that is not
    empty.  And a length written in figures and px, which the lower-casing
    leaves as it is, is never counted as relative. *)
Theorem relative_unit_test (toLowerCase : jsstring -> jsstring)
    (value : jsstring) :
  checkIfRelativeUnit toLowerCase value
  = Audit.truthy value
    && (includes (toLowerCase value) (u "em")
        || jseq (toLowerCase value) (u "normal")
        || jseq (toLowerCase value) (u "inherit"))
  /\ (forall figures,
         value = figures ++ u "px" ->
         forallb isFigure figures = true ->
         toLowerCase value = value ->
         checkIfRelativeUnit toLowerCase value = false).
Proof.
  assert (Hrem : forall str, includes str (u "rem") = true ->
                             includes str (u "em") = true).
  { intros str H. apply HandlerFacts.includes_iff in H.
    destruct H as (pre & post & ->). apply HandlerFacts.includes_iff.
    exists (pre ++ u "r"), post. now rewrite <- app_assoc. }
  assert (Hfirst : checkIfRelativeUnit toLowerCase value
                   = Audit.truthy value
                     && (includes (toLowerCase value) (u "em")
                         || jseq (toLowerCase value) (u "normal")
                         || jseq (toLowerCase value) (u "inherit"))).
  { unfold checkIfRelativeUnit. destruct value as [|c value]; [reflexivity|].
    cbn [Audit.truthy andb].
    destruct (includes (toLowerCase (c :: value)) (u "rem")) eqn:E;
      [now rewrite (Hrem _ E)|now rewrite orb_false_r]. }
  split; [exact Hfirst|].
  intros figures Hv Hf Hlow. rewrite Hfirst, Hlow, Hv.
  change (u "em") with (cu "e" :: u "m").
  rewrite (@figures_do_not_include figures (u "px") (u "m") (cu "e") Hf
             eq_refl eq_refl).
  assert (Hn : forall word c rest,
             word = c :: rest -> isFigure c = false ->
             (c =? cu "p")%N = false ->
             jseq (figures ++ u "px") word = false).
  { intros word c rest -> Hc Hp. apply jseq_false.
    destruct figures as [|d figures].
    - cbn [app]. intros H. injection H as H _.
      apply N.eqb_neq in Hp. apply Hp. now rewrite <- H.
    - cbn [forallb] in Hf. apply andb_true_iff in Hf. destruct Hf as [Hd _].
      cbn [app]. intros H. injection H as H _. congruence. }
  rewrite (Hn (u "normal") (cu "n") (u "ormal") eq_refl eq_refl eq_refl).
  rewrite (Hn (u "inherit") (cu "i") (u "nherit") eq_refl eq_refl eq_refl).
  apply andb_false_r.
Qed.

Lemma relative_unit_test_witness :
  checkIfRelativeUnit (fun s => s) (u "19.2px") = false.
Proof.
  apply (proj2 (@relative_unit_test (fun s => s) (u "19.2px")) (u "19.2"));
    reflexivity.
Defined.

End ProbeMore.

(* ================================================================== *)
(** * The text fields of a snapshot, and the counts of the repair *)

Module TextFacts.

Import Regex.

Lemma replace_from_skip (r : regex) (rep : list jsstring -> jsstring)
    (s : jsstring) :
  forall k, (k <= length s)%nat ->
            replace_from r rep k s = replace_from r rep 0 (skipn k s).
Proof.
  induction s as [|c s IH]; intros k Hk.
  - cbn in Hk. replace k with 0%nat by lia. reflexivity.
  - destruct k as [|k]; [reflexivity|].
    cbn [replace_from skipn]. apply IH. cbn in Hk. lia.
Qed.

Lemma exec_spaces (s : jsstring) :
  exec_here [One space; Many space] s
  = match s with
    | c :: s' =>
        if isSpace c
        then Some ([[c]; Spec.leadingSpace s'], trimStart s')
        else None
    | [] => None
    end.
Proof.
  destruct s as [|c s']; [reflexivity|].
  change (exec_here [One space; Many space] (c :: s'))
    with (if accepts space c
          then match exec_here [Many space] s' with
               | Some (ch, rest) => Some ([c] :: ch, rest)
               | None => None
               end
          else None).
  rewrite RegexFacts.exec_space_end. reflexivity.
Qed.

Lemma skipn_leadingSpace (s : jsstring) :
  skipn (length (Spec.leadingSpace s)) s = trimStart s.
Proof.
  induction s as [|c s IH]; [reflexivity|].
  cbn [Spec.leadingSpace trimStart]. destruct (isSpace c); [|reflexivity].
  cbn [length skipn]. exact IH.
Qed.

Lemma length_leadingSpace (s : jsstring) :
  (length (Spec.leadingSpace s) <= length s)%nat.
Proof.
  induction s as [|c s IH]; [reflexivity|].
  cbn [Spec.leadingSpace]. destruct (isSpace c); cbn [length]; lia.
Qed.

Lemma trimStart_head (s : jsstring) (c : N) (rest : jsstring) :
  trimStart s = c :: rest -> isSpace c = false.
Proof.
  induction s as [|x s IH]; [discriminate|].
  cbn [trimStart]. destruct (isSpace x) eqn:E; [exact IH|].
  intros [= <- _]. exact E.
Qed.

Lemma trimStart_length (s : jsstring) :
  (length (trimStart s) <= length s)%nat.
Proof.
  induction s as [|x s IH]; [reflexivity|].
  cbn [trimStart]. destruct (isSpace x); cbn [length]; lia.
Qed.

Lemma trimStart_incl (s : jsstring) (c : N) : In c (trimStart s) -> In c s.
Proof.
  induction s as [|x s IH]; [auto|].
  cbn [trimStart]. destruct (isSpace x); [|auto].
  intros H. right. now apply IH.
Qed.

(** One step of [replace(/\s+/g, ' ')]. *)
Lemma collapse_step (c : N) (s : jsstring) :
  replace_from [One space; Many space] (fun _ => u " ") 0 (c :: s)
  = if isSpace c
    then 32%N :: replace_from [One space; Many space] (fun _ => u " ") 0
                   (trimStart s)
    else c :: replace_from [One space; Many space] (fun _ => u " ") 0 s.
Proof.
  cbn [replace_from]. rewrite exec_spaces.
  destruct (isSpace c); [|reflexivity].
  cbn [concat app length]. rewrite app_nil_r.
  rewrite replace_from_skip by apply length_leadingSpace.
  now rewrite skipn_leadingSpace.
Qed.

Lemma collapse_nil :
  replace_from [One space; Many space] (fun _ => u " ") 0 [] = [].
Proof. reflexivity. Qed.

Lemma collapse_shape (n : nat) :
  forall s,
    (length s <= n)%nat ->
    Text.singleSpaced
      (replace_from [One space; Many space] (fun _ => u " ") 0 s) = true
    /\ (forall x out,
           replace_from [One space; Many space] (fun _ => u " ") 0 s = x :: out ->
           isSpace x = true ->
           exists c s', s = c :: s' /\ isSpace c = true)
    /\ (forall x,
           In x (replace_from [One space; Many space] (fun _ => u " ") 0 s) ->
           x = 32%N \/ In x s).
Proof.
  induction n as [|n IH]; intros s Hlen.
  - destruct s; [|cbn in Hlen; lia]. rewrite collapse_nil.
    repeat split; [discriminate|intros x []].
  - destruct s as [|c s].
    { rewrite collapse_nil. repeat split; [discriminate|intros x []]. }
    cbn [length] in Hlen. rewrite collapse_step.
    destruct (isSpace c) eqn:Ec.
    + assert (Hts : (length (trimStart s) <= n)%nat)
        by (pose proof (trimStart_length s); lia).
      destruct (IH _ Hts) as (Hs & Hhead & Hin).
      split; [|split].
      * cbn [Text.singleSpaced]. rewrite Hs.
        change (isSpace 32) with true. cbn [N.eqb andb].
        destruct (replace_from [One space; Many space] (fun _ => u " ") 0
                    (trimStart s)) as [|b out] eqn:E; [reflexivity|].
        destruct (isSpace b) eqn:Eb; [|reflexivity].
        destruct (Hhead b out eq_refl Eb) as (c' & s' & Hc' & Hsp).
        now rewrite (trimStart_head _ Hc') in Hsp.
      * intros x out _ _. exists c, s. auto.
      * intros x [<-|Hx]; [now left|].
        destruct (Hin x Hx) as [->|H]; [now left|].
        right. right. now apply trimStart_incl.
    + assert (Hs' : (length s <= n)%nat) by lia.
      destruct (IH _ Hs') as (Hs & Hhead & Hin).
      split; [|split].
      * cbn [Text.singleSpaced]. now rewrite Ec, Hs.
      * intros x out [= <- _] Hx. congruence.
      * intros x [<-|Hx]; [right; now left|].
        destruct (Hin x Hx) as [->|H]; [now left|]. right. now right.
Qed.

Lemma singleSpaced_app (a b : jsstring) :
  Text.singleSpaced (a ++ b) = true ->
  Text.singleSpaced a = true /\ Text.singleSpaced b = true.
Proof.
  induction a as [|x a IH]; [auto|].
  cbn [app Text.singleSpaced]. intros H.
  apply andb_true_iff in H. destruct H as [Hx H].
  destruct (IH H) as [Ha Hb]. split; [|exact Hb].
  rewrite Ha, andb_true_r. destruct (isSpace x); [|reflexivity].
  apply andb_true_iff in Hx. destruct Hx as [-> Hx].
  destruct a; [reflexivity|exact Hx].
Qed.

Lemma trimStart_suffix (s : jsstring) :
  exists pre, s = pre ++ trimStart s.
Proof. exists (Spec.leadingSpace s). apply RegexFacts.leadingSpace_trimStart. Qed.

Lemma trim_middle (s : jsstring) :
  exists pre post, s = pre ++ trim s ++ post.
Proof.
  destruct (trimStart_suffix s) as (pre & Hpre).
  exists pre, (rev (Spec.leadingSpace (rev (trimStart s)))).
  unfold trim. now rewrite <- CleanupFacts.trimEnd_prefix.
Qed.

Lemma trim_head (s : jsstring) (c : N) (rest : jsstring) :
  trim s = c :: rest -> isSpace c = false.
Proof.
  unfold trim. intros H.
  pose proof (CleanupFacts.trimEnd_prefix (trimStart s)) as E.
  rewrite H in E. cbn [app] in E. exact (trimStart_head _ E).
Qed.

(** X22. The text fields of a snapshot are normalised.  What
    [replace(/\s+/g, ' ').trim().substring(0, n)] returns has at most [n]
    units; each of its white-space units is U+0020 and is followed by a
    unit that is not white space, if by any; it does not open with white
    space; and each of its units is U+0020 or a unit of the text it was
    made from. *)
Theorem squeeze_normalises_white_space (n : nat) (s : jsstring) :
  (length (Snapshot.squeeze n s) <= n)%nat
  /\ Text.singleSpaced (Snapshot.squeeze n s) = true
  /\ (forall c rest, Snapshot.squeeze n s = c :: rest -> isSpace c = false)
  /\ (forall c, In c (Snapshot.squeeze n s) -> c = 32%N \/ In c s).
Proof.
  unfold Snapshot.squeeze, substring0, replaceAll.
  set (t := replace_from [One space; Many space] (fun _ => u " ") 0 s).
  destruct (@collapse_shape (length s) s (le_n _)) as (Hs & _ & Hin).
  fold t in Hs, Hin.
  destruct (trim_middle t) as (pre & post & Ht).
  split; [apply firstn_le_length|]. split; [|split].
  - rewrite Ht in Hs. apply singleSpaced_app in Hs. destruct Hs as [_ Hs].
    apply singleSpaced_app in Hs. destruct Hs as [Hs _].
    rewrite <- (firstn_skipn n (trim t)) in Hs.
    now apply singleSpaced_app in Hs.
  - intros c rest H. destruct (trim t) as [|x y] eqn:E.
    + rewrite firstn_nil in H. discriminate.
    + destruct n; [discriminate|]. cbn [firstn] in H.
      injection H as <- _. exact (trim_head _ E).
  - intros c H. apply Hin. rewrite Ht.
    apply in_or_app. right. apply in_or_app. left.
    rewrite <- (firstn_skipn n (trim t)). apply in_or_app. now left.
Qed.

Lemma count_occ_repeat (c d : N) (n : nat) :
  count_occ N.eq_dec (repeat d n) c = if N.eqb d c then n else 0%nat.
Proof.
  induction n as [|n IH]; [now destruct (N.eqb d c)|].
  cbn [repeat count_occ]. rewrite IH.
  destruct (N.eq_dec d c) as [->|Hne].
  - now rewrite N.eqb_refl.
  - apply N.eqb_neq in Hne. now rewrite Hne.
Qed.

(** X23. After the repair the counts balance: the repaired text has at
    least as many closing braces as opening ones, and at least as many
    closing brackets as opening ones, whatever the text was and whether
    or not it parses; and where closers were missing, the counts are now
    equal. *)
Theorem repair_balances_the_counts (cleanText : jsstring) :
  (Audit.countOf (cu "{") (Audit.repair cleanText)
   <= Audit.countOf (cu "}") (Audit.repair cleanText))%nat
  /\ (Audit.countOf (cu "[") (Audit.repair cleanText)
      <= Audit.countOf (cu "]") (Audit.repair cleanText))%nat
  /\ ((Audit.countOf (cu "}") (replaceAll Audit.trailing_comma Audit.group1 cleanText)
       <= Audit.countOf (cu "{") (replaceAll Audit.trailing_comma Audit.group1 cleanText))%nat ->
      Audit.countOf (cu "{") (Audit.repair cleanText)
      = Audit.countOf (cu "}") (Audit.repair cleanText))
  /\ ((Audit.countOf (cu "]") (replaceAll Audit.trailing_comma Audit.group1 cleanText)
       <= Audit.countOf (cu "[") (replaceAll Audit.trailing_comma Audit.group1 cleanText))%nat ->
      Audit.countOf (cu "[") (Audit.repair cleanText)
      = Audit.countOf (cu "]") (Audit.repair cleanText)).
Proof.
  rewrite !ReconcilerFacts.counts_are_occurrences, RegexFacts.repair_spec.
  rewrite RegexFacts.replace_trailing_comma.
  unfold Spec.balance, Spec.occurrences.
  set (t := Spec.dropTrailingCommas cleanText).
  rewrite !count_occ_app, !count_occ_repeat.
  change (N.eqb (cu "]") (cu "{")) with false.
  change (N.eqb (cu "}") (cu "{")) with false.
  change (N.eqb (cu "]") (cu "}")) with false.
  change (N.eqb (cu "}") (cu "}")) with true.
  change (N.eqb (cu "]") (cu "[")) with false.
  change (N.eqb (cu "}") (cu "[")) with false.
  change (N.eqb (cu "]") (cu "]")) with true.
  change (N.eqb (cu "}") (cu "]")) with false.
  cbn iota. repeat split; intros; lia.
Qed.

End TextFacts.
